(** * VisionNarrator: the PCM audio pipeline and the playback controller

    A shallow embedding of the audio side of the VisionNarrator front end:

    - [Base64], [Pcm], [Wav]: the helpers the two [App] components import from
      [./utils/audioUtils] ([decode], [decodeAudioData], [createWavBlob]).
      That file is not among the sources; they follow the spec.
    - [WebAudio]: the part of the Web Audio platform the components drive
      (one [AudioContext], [AudioBufferSourceNode]s and their [ended] event).
    - [Narrator]: the [App] component with pause/stop controls
      ([startNewAudio], [togglePlayback], [stopAudio], [downloadAudio]).
    - [Desktop]: the [App] component of the desktop edition ([playAudio]).
    - [NarratorAsync], [DesktopAsync]: [processVideo] of the two editions
      call by call, each call resumed at its [await]s among the other
      events of the page.
    - [NarratorTasks]: [startNewAudio], [togglePlayback] and [stopAudio]
      await by await, with the promises they leave pending.
    - [NarratorView], [DesktopView], [ProgressBar], [DesktopProgressBar]:
      what the two pages render besides the playback bar (the start button,
      the error banner, the progress bar).
    - [GeminiService], [NarratorRequest], [DesktopRequest]: the requests to
      the model ([services/geminiService.ts]) and the style they ask for.
    - [FrameSampling]: [sampleFrames].

    In [Narrator] and [Desktop] each handler is one task of the event loop
    and is run to completion: the promises it awaits ([ctx.resume()],
    [ctx.suspend()], [decodeAudioData]) are taken as settled before another
    task runs. [NarratorTasks] drops that: there the promises settle in
    tasks of their own, in any order among the events.

    The model comes first, then the notions the properties are stated with,
    then the lemmas and theorems. *)

From Stdlib Require Import ZArith QArith Lia Ascii String List.
From Stdlib.Strings Require Import Byte.
From stdpp Require Import base option list.

Local Open Scope Z_scope.

(** ** Errors and results *)

Inductive Error : Type :=
  | MalformedInputError
  | UnsupportedFormatError
  | InvalidStateError.

Inductive Result (A : Type) : Type :=
  | Ok (a : A)
  | Err (e : Error).

Arguments Ok {A} a.
Arguments Err {A} e.

Definition RawByteBuffer : Type := list byte.

Definition byteZ (b : byte) : Z := Z.of_N (Byte.to_N b).

Definition byte_of_Z (z : Z) : byte :=
  match Byte.of_N (Z.to_N (z mod 256)) with
  | Some b => b
  | None => x00
  end.

(** ** Base64 codec *)

Module Base64.

Definition alphabet : list ascii :=
  list_ascii_of_string
    "ABCDEFGHIJKLMNOPQRSTUVWXYZabcdefghijklmnopqrstuvwxyz0123456789+/".

Definition pad_char : ascii := "="%char.

Definition is_pad (c : ascii) : bool := Ascii.eqb c pad_char.

Definition char_of_sextet (v : Z) : ascii :=
  nth (Z.to_nat v) alphabet "A"%char.

Fixpoint index_of (c : ascii) (l : list ascii) : option nat :=
  match l with
  | [] => None
  | x :: l' => if Ascii.eqb c x then Some 0%nat else S <$> index_of c l'
  end.

Definition sextet_of_char (c : ascii) : option Z :=
  Z.of_nat <$> index_of c alphabet.

(** Three bytes give four sextets; a tail of one or two bytes gives two or
    three, the unused low bits being zero. *)
Fixpoint encode_sextets (bs : list byte) : list Z :=
  match bs with
  | [] => []
  | [a] => [byteZ a / 4; (byteZ a mod 4) * 16]
  | [a; b] =>
      [byteZ a / 4; (byteZ a mod 4) * 16 + byteZ b / 16; (byteZ b mod 16) * 4]
  | a :: b :: c :: rest =>
      byteZ a / 4
      :: (byteZ a mod 4) * 16 + byteZ b / 16
      :: (byteZ b mod 16) * 4 + byteZ c / 64
      :: byteZ c mod 64
      :: encode_sextets rest
  end.

Definition pad_length (sextets : nat) : nat := ((4 - sextets mod 4) mod 4)%nat.

Definition encode_chars (bs : list byte) : list ascii :=
  map char_of_sextet (encode_sextets bs).

Definition with_padding (body : list ascii) : list ascii :=
  body ++ repeat pad_char (pad_length (length body)).

(** Modelled from the spec: [encode] of [./utils/audioUtils] is not among the
    sources; "encode(bytes: RawByteBuffer) -> string: total inverse of
    decode for any valid byte buffer", with canonical padding. *)
Definition encode (bs : RawByteBuffer) : string :=
  string_of_list_ascii (with_padding (encode_chars bs)).

(** The same text without its trailing padding. *)
Definition encode_unpadded (bs : RawByteBuffer) : string :=
  string_of_list_ascii (encode_chars bs).

(** Splits the trailing run of padding characters off. *)
Fixpoint strip_padding (cs : list ascii) : list ascii * nat :=
  match cs with
  | [] => ([], 0%nat)
  | c :: cs' =>
      match strip_padding cs' with
      | ([], n) => if is_pad c then ([], S n) else ([c], n)
      | (body, n) => (c :: body, n)
      end
  end.

Definition padding_ok (body pad : nat) : bool :=
  (pad =? 0)%nat || (pad =? pad_length body)%nat.

Fixpoint decode_sextets (l : list Z) : option (list byte) :=
  match l with
  | [] => Some []
  | [_] => None
  | [s1; s2] =>
      if s2 mod 16 =? 0 then Some [byte_of_Z (s1 * 4 + s2 / 16)] else None
  | [s1; s2; s3] =>
      if s3 mod 4 =? 0
      then Some [byte_of_Z (s1 * 4 + s2 / 16);
                 byte_of_Z ((s2 mod 16) * 16 + s3 / 4)]
      else None
  | s1 :: s2 :: s3 :: s4 :: rest =>
      bs ← decode_sextets rest;
      Some (byte_of_Z (s1 * 4 + s2 / 16)
            :: byte_of_Z ((s2 mod 16) * 16 + s3 / 4)
            :: byte_of_Z ((s3 mod 4) * 64 + s4)
            :: bs)
  end.

(** Modelled from the spec: [decode] of [./utils/audioUtils] is not among the
    sources; "decode(base64: string) -> RawByteBuffer: fails with
    MalformedInputError if the input is not valid base64. No side effects."
    Padding may be left out; when present it is the canonical one. *)
Definition decode (s : string) : Result RawByteBuffer :=
  let (body, pad) := strip_padding (list_ascii_of_string s) in
  match mapM sextet_of_char body with
  | None => Err MalformedInputError
  | Some sextets =>
      if padding_ok (length body) pad
      then match decode_sextets sextets with
           | Some bs => Ok bs
           | None => Err MalformedInputError
           end
      else Err MalformedInputError
  end.

(** Valid base64: the encoding of some byte buffer, with or without its
    padding. *)
Definition valid (s : string) : Prop :=
  ∃ bs, s = encode bs ∨ s = encode_unpadded bs.

(** [s] with its padding made canonical. *)
Definition canonical (s : string) : string :=
  string_of_list_ascii
    (with_padding (fst (strip_padding (list_ascii_of_string s)))).

End Base64.

(** ** PCM decoder *)

Module Pcm.

(** Samples are kept as exact rationals: a 16-bit integer divided by 32768
    is a dyadic fraction with at most 16 significant bits, which a 32-bit
    float holds without rounding. *)
Record SampleBuffer : Type := {
  sampleRate : Z;
  numberOfChannels : Z;
  channelData : list (list Q)
}.

(** Two bytes read as a little-endian signed 16-bit integer. *)
Definition int16_le (lo hi : byte) : Z :=
  let u := byteZ lo + 256 * byteZ hi in
  if u <? 32768 then u else u - 65536.

(** Every consecutive pair of bytes; a trailing single byte is dropped. *)
Fixpoint int16_samples (bs : list byte) : list Z :=
  match bs with
  | lo :: hi :: rest => int16_le lo hi :: int16_samples rest
  | _ => []
  end.

Definition normalize (v : Z) : Q := v # 32768.

(** Channel [c] of an interleaved stream of [frameCount] frames. *)
Definition channel (ints : list Z) (channelCount frameCount c : nat) : list Q :=
  map (λ i, normalize (nth (i * channelCount + c) ints 0)) (seq 0 frameCount).

(** Modelled from the spec: [decodeAudioData] of [./utils/audioUtils] is not
    among the sources; "decodePcm(bytes, sampleRate, channelCount) ->
    SampleBuffer" of section 4.2: little-endian signed 16-bit pairs divided
    by 32768.0, incomplete trailing frames discarded, frames grouped per
    channel, UnsupportedFormatError if sampleRate <= 0 or channelCount <= 0. *)
Definition decodePcm (bytes : RawByteBuffer) (sampleRate channelCount : Z)
  : Result SampleBuffer :=
  if (sampleRate <=? 0) || (channelCount <=? 0)
  then Err UnsupportedFormatError
  else
    let ints := int16_samples bytes in
    let n := Z.to_nat channelCount in
    let frameCount := (length ints / n)%nat in
    Ok {| sampleRate := sampleRate;
          numberOfChannels := channelCount;
          channelData := map (channel ints n frameCount) (seq 0 n) |}.

Definition in_range (x : Q) : Prop := (-1 <= x)%Q ∧ (x < 1)%Q.

End Pcm.

(** ** WAV encoder *)

Module Wav.

Definition le16 (v : Z) : list byte := [byte_of_Z v; byte_of_Z (v / 256)].

Definition le32 (v : Z) : list byte :=
  [byte_of_Z v; byte_of_Z (v / 256); byte_of_Z (v / 65536);
   byte_of_Z (v / 16777216)].

Definition tag (s : string) : list byte :=
  map byte_of_ascii (list_ascii_of_string s).

(** The canonical 44-byte RIFF/WAVE header of section 4.3. *)
Definition header (channelCount sampleRate dataByteLength : Z) : list byte :=
  tag "RIFF" ++ le32 (dataByteLength + 36) ++ tag "WAVE"
  ++ tag "fmt " ++ le32 16 ++ le16 1 ++ le16 channelCount
  ++ le32 sampleRate ++ le32 (sampleRate * channelCount * 2)
  ++ le16 (channelCount * 2) ++ le16 16
  ++ tag "data" ++ le32 dataByteLength.

(** Modelled from the spec: [createWavBlob] of [./utils/audioUtils] is not
    among the sources; "encodeWav" of section 4.3 on a buffer that already
    is 16-bit PCM: the header, then the data unchanged. *)
Definition encodeWav (channelCount sampleRate : Z) (data : RawByteBuffer)
  : list byte :=
  header channelCount sampleRate (Z.of_nat (length data)) ++ data.

(** Modelled from the spec: the call [createWavBlob(bytes, sampleRate)]
    names no channel count; the payload is the speech collaborator's, "fixed
    sample rate of 24000 Hz, mono channel". *)
Definition createWavBlob (bytes : RawByteBuffer) (sampleRate : Z) : list byte :=
  encodeWav 1 sampleRate bytes.

Definition clamp16 (v : Z) : Z := Z.max (-32768) (Z.min 32767 v).

(** Frames of a per-channel buffer, interleaved. *)
Definition interleave (channels : list (list Q)) : list Q :=
  flat_map (λ i, map (λ ch, nth i ch 0%Q) channels)
           (seq 0 (length (hd [] channels))).

Section Quantize.

(** The spec leaves the rounding of a scaled sample open. *)
Variable round : Q → Z.

Definition quantize (x : Q) : Z := clamp16 (round (x * 32767)%Q).

Definition pcm_bytes (samples : list Q) : list byte :=
  flat_map (λ x, le16 (quantize x)) samples.

(** Modelled from the spec: "encodeWav" of section 4.3 on a normalized
    float SampleBuffer: "re-quantize to 16-bit signed integers by
    multiplying by 32767 and clamping to [-32768, 32767] before writing". *)
Definition encodeWavSamples (buf : Pcm.SampleBuffer) : list byte :=
  encodeWav (Pcm.numberOfChannels buf) (Pcm.sampleRate buf)
            (pcm_bytes (interleave (Pcm.channelData buf))).

End Quantize.

(** Header fields read back from a file. *)
Definition u8_at (off : nat) (w : list byte) : Z := byteZ (nth off w x00).

Definition u16_at (off : nat) (w : list byte) : Z :=
  u8_at off w + 256 * u8_at (off + 1) w.

Definition u32_at (off : nat) (w : list byte) : Z :=
  u16_at off w + 65536 * u16_at (off + 2) w.

Definition slice (off len : nat) (w : list byte) : list byte :=
  take len (drop off w).

End Wav.

(** ** Event handlers: state and exceptions

    A handler runs on the component's state and either completes or throws;
    the state it reached is kept either way. *)

Inductive Outcome (A : Type) : Type :=
  | Done (a : A)
  | Threw (e : Error).

Arguments Done {A} a.
Arguments Threw {A} e.

Definition M (St A : Type) : Type := St → Outcome A * St.

Definition ret {St A} (a : A) : M St A := λ s, (Done a, s).

Definition bind {St A B} (m : M St A) (k : A → M St B) : M St B :=
  λ s, match m s with
       | (Done a, s') => k a s'
       | (Threw e, s') => (Threw e, s')
       end.

Definition throw {St A} (e : Error) : M St A := λ s, (Threw e, s).

Definition gets {St A} (f : St → A) : M St A := λ s, (Done (f s), s).

Definition modify {St} (f : St → St) : M St unit := λ s, (Done tt, f s).

(** [try { m } catch (e) {}] *)
Definition try_catch {St} (m : M St unit) : M St unit :=
  λ s, (Done tt, snd (m s)).

(** A call whose promise nobody awaits: a rejection does not reach the caller. *)
Definition detach {St} (m : M St unit) : M St unit :=
  λ s, (Done tt, snd (m s)).

Definition lift {St A} (r : Result A) : M St A :=
  match r with
  | Ok a => ret a
  | Err e => throw e
  end.

(** Runs a computation on a component of the state. *)
Definition zoom {St T A} (get : St → T) (set : T → St → St) (m : M T A)
  : M St A :=
  λ s, let (r, t) := m (get s) in (r, set t s).

Declare Scope handler_scope.
Delimit Scope handler_scope with handler.
Notation "x <- m ;; k" := (bind m (λ x, k))
  (at level 20, m at level 99, k at level 200, only parsing) : handler_scope.
Notation "m ;; k" := (bind m (λ _, k))
  (at level 100, k at level 200, right associativity, only parsing)
  : handler_scope.

Definition exec {St A} (m : M St A) (s : St) : St := snd (m s).

Definition completes {St A} (m : M St A) (s : St) : Prop :=
  ∃ a, fst (m s) = Done a.

(** ** The Web Audio platform

    The browser objects the components drive, after the Web Audio API: audio
    contexts with their [state], buffer source nodes with [start], [stop] and
    the [ended] event. Objects are named by their index of creation. *)

Module WebAudio.

Inductive ContextState : Type := running | suspended | closed.

Record AudioContext : Type := {
  ctxSampleRate : Z;
  state : ContextState
}.

(** A source node before [start], while it renders, and once it was halted
    by [stop] or ran out of samples. *)
Inductive Playback : Type := unscheduled | started | stopped.

Record SourceNode : Type := {
  context : nat;
  buffer : option Pcm.SampleBuffer;
  connected : bool;
  onended : bool;
  playback : Playback;
  endedFired : bool
}.

(** [allowedToStart]: whether a new context starts running by itself (the
    autoplay policy); otherwise it stays suspended until resumed. *)
Record Audio : Type := {
  allowedToStart : bool;
  contexts : list AudioContext;
  sources : list SourceNode
}.

Definition set_contexts (f : list AudioContext → list AudioContext)
  (a : Audio) : Audio :=
  {| allowedToStart := allowedToStart a;
     contexts := f (contexts a);
     sources := sources a |}.

Definition set_sources (f : list SourceNode → list SourceNode)
  (a : Audio) : Audio :=
  {| allowedToStart := allowedToStart a;
     contexts := contexts a;
     sources := f (sources a) |}.

Definition with_state (st : ContextState) (c : AudioContext) : AudioContext :=
  {| ctxSampleRate := ctxSampleRate c; state := st |}.

Definition with_buffer (b : Pcm.SampleBuffer) (n : SourceNode) : SourceNode :=
  {| context := context n; buffer := Some b; connected := connected n;
     onended := onended n; playback := playback n;
     endedFired := endedFired n |}.

Definition with_connected (n : SourceNode) : SourceNode :=
  {| context := context n; buffer := buffer n; connected := true;
     onended := onended n; playback := playback n;
     endedFired := endedFired n |}.

Definition with_onended (n : SourceNode) : SourceNode :=
  {| context := context n; buffer := buffer n; connected := connected n;
     onended := true; playback := playback n;
     endedFired := endedFired n |}.

Definition with_playback (p : Playback) (n : SourceNode) : SourceNode :=
  {| context := context n; buffer := buffer n; connected := connected n;
     onended := onended n; playback := p;
     endedFired := endedFired n |}.

Definition with_ended (n : SourceNode) : SourceNode :=
  {| context := context n; buffer := buffer n; connected := connected n;
     onended := onended n; playback := stopped;
     endedFired := true |}.

Local Open Scope handler_scope.

(** [new AudioContext({ sampleRate })] *)
Definition newAudioContext (sampleRate : Z) : M Audio nat :=
  λ a, (Done (length (contexts a)),
        set_contexts
          (λ l, l ++ [{| ctxSampleRate := sampleRate;
                         state := if allowedToStart a then running
                                  else suspended |}]) a).

(** [ctx.state] *)
Definition contextState (c : nat) : M Audio ContextState :=
  gets (λ a, from_option state closed (contexts a !! c)).

(** [ctx.resume()] and [ctx.suspend()], taken at their completion: the
    promise is rejected on a closed context. *)
Definition transition (st : ContextState) (c : nat) : M Audio unit :=
  λ a, match contexts a !! c with
       | Some ctx =>
           match state ctx with
           | closed => (Threw InvalidStateError, a)
           | _ => (Done tt, set_contexts (alter (with_state st) c) a)
           end
       | None => (Threw InvalidStateError, a)
       end.

Definition resume : nat → M Audio unit := transition running.
Definition suspend : nat → M Audio unit := transition suspended.

(** [ctx.close()] *)
Definition close (c : nat) : M Audio unit :=
  modify (set_contexts (alter (with_state closed) c)).

(** [ctx.createBufferSource()] *)
Definition createBufferSource (c : nat) : M Audio nat :=
  λ a, (Done (length (sources a)),
        set_sources
          (λ l, l ++ [{| context := c; buffer := None; connected := false;
                         onended := false; playback := unscheduled;
                         endedFired := false |}]) a).

Definition update (f : SourceNode → SourceNode) (i : nat) : M Audio unit :=
  modify (set_sources (alter f i)).

(** [source.buffer = b], [source.connect(ctx.destination)],
    [source.onended = handler] *)
Definition setBuffer (i : nat) (b : Pcm.SampleBuffer) : M Audio unit :=
  update (with_buffer b) i.
Definition connect (i : nat) : M Audio unit := update with_connected i.
Definition setOnended (i : nat) : M Audio unit := update with_onended i.

(** [source.start(0)]: InvalidStateError when called a second time. *)
Definition start (i : nat) : M Audio unit :=
  λ a, match playback <$> sources a !! i with
       | Some unscheduled => update (with_playback started) i a
       | _ => (Threw InvalidStateError, a)
       end.

(** [source.stop()]: InvalidStateError when [start] was never called. *)
Definition stop (i : nat) : M Audio unit :=
  λ a, match playback <$> sources a !! i with
       | Some started | Some stopped => update (with_playback stopped) i a
       | _ => (Threw InvalidStateError, a)
       end.

(** The [ended] event of node [i] can be dispatched: the node was started
    (it stops by [stop] or by running out of samples) and the event was
    not dispatched before. *)
Definition endedPending (i : nat) (a : Audio) : bool :=
  match sources a !! i with
  | Some n =>
      match playback n with
      | unscheduled => false
      | _ => negb (endedFired n)
      end
  | None => false
  end.

(** Dispatch of [ended] on node [i]; answers whether a handler is to run. *)
Definition takeEnded (i : nat) : M Audio bool :=
  λ a, if endedPending i a
       then (Done (from_option onended false (sources a !! i)),
             set_sources (alter with_ended i) a)
       else (Done false, a).

Definition isStarted (i : nat) (a : Audio) : Prop :=
  playback <$> sources a !! i = Some started.

(** Node [i] is heard: it renders, connected, on a running context. *)
Definition audible (i : nat) (a : Audio) : Prop :=
  ∃ n ctx, sources a !! i = Some n ∧ playback n = started
           ∧ connected n = true
           ∧ contexts a !! context n = Some ctx ∧ state ctx = running.

Definition init (allowed : bool) : Audio :=
  {| allowedToStart := allowed; contexts := []; sources := [] |}.

End WebAudio.

(** ** Shared types of the two components ([types.ts]) *)

Record NarrationResult : Type := {
  text : string;
  audioData : option string;
  thinkingProcess : option string;
  genreDetected : option string
}.

Inductive AppStatus : Type :=
  | IDLE | UPLOADING | SAMPLING | ANALYZING | NARRATING | COMPLETED | ERROR.

(** What [analyzeVideo] resolves to. *)
Record Analysis : Type := {
  narration : string;
  analysis : string;
  genre : option string
}.

(** A collaborator's promise: resolved with a value, or rejected with the
    error's message. *)
Inductive Reply (A : Type) : Type :=
  | Resolved (a : A)
  | Rejected (message : string).

Arguments Resolved {A} a.
Arguments Rejected {A} message.

(** JavaScript truthiness of a [string | undefined]. *)
Definition truthy (o : option string) : bool :=
  match o with
  | Some EmptyString => false
  | Some _ => true
  | None => false
  end.

(** Modelled from the spec: [decodeAudioData(bytes, ctx, sampleRate,
    numChannels)] of [./utils/audioUtils] is not among the sources; it is the
    "decodePcm" of section 4.2, the context only allocating the buffer. *)
Definition decodeAudioData (bytes : RawByteBuffer) (ctx : nat)
  (sampleRate numChannels : Z) : Result Pcm.SampleBuffer :=
  Pcm.decodePcm bytes sampleRate numChannels.

(** ** The component with pause and stop controls *)

Module Narrator.

Import WebAudio.
Local Open Scope handler_scope.

Record State : Type := {
  status : AppStatus;
  result : option NarrationResult;
  error : option string;
  isPlaying : bool;
  isPaused : bool;
  audioContextRef : option nat;
  activeSourceRef : option nat;
  downloads : list (list byte);
  audio : Audio
}.

Definition set_status (v : AppStatus) (s : State) : State :=
  {| status := v; result := result s; error := error s;
     isPlaying := isPlaying s; isPaused := isPaused s;
     audioContextRef := audioContextRef s;
     activeSourceRef := activeSourceRef s;
     downloads := downloads s; audio := audio s |}.

Definition set_result (v : option NarrationResult) (s : State) : State :=
  {| status := status s; result := v; error := error s;
     isPlaying := isPlaying s; isPaused := isPaused s;
     audioContextRef := audioContextRef s;
     activeSourceRef := activeSourceRef s;
     downloads := downloads s; audio := audio s |}.

Definition set_error (v : option string) (s : State) : State :=
  {| status := status s; result := result s; error := v;
     isPlaying := isPlaying s; isPaused := isPaused s;
     audioContextRef := audioContextRef s;
     activeSourceRef := activeSourceRef s;
     downloads := downloads s; audio := audio s |}.

Definition set_isPlaying (v : bool) (s : State) : State :=
  {| status := status s; result := result s; error := error s;
     isPlaying := v; isPaused := isPaused s;
     audioContextRef := audioContextRef s;
     activeSourceRef := activeSourceRef s;
     downloads := downloads s; audio := audio s |}.

Definition set_isPaused (v : bool) (s : State) : State :=
  {| status := status s; result := result s; error := error s;
     isPlaying := isPlaying s; isPaused := v;
     audioContextRef := audioContextRef s;
     activeSourceRef := activeSourceRef s;
     downloads := downloads s; audio := audio s |}.

Definition set_audioContextRef (v : option nat) (s : State) : State :=
  {| status := status s; result := result s; error := error s;
     isPlaying := isPlaying s; isPaused := isPaused s;
     audioContextRef := v;
     activeSourceRef := activeSourceRef s;
     downloads := downloads s; audio := audio s |}.

Definition set_activeSourceRef (v : option nat) (s : State) : State :=
  {| status := status s; result := result s; error := error s;
     isPlaying := isPlaying s; isPaused := isPaused s;
     audioContextRef := audioContextRef s;
     activeSourceRef := v;
     downloads := downloads s; audio := audio s |}.

Definition add_download (file : list byte) (s : State) : State :=
  {| status := status s; result := result s; error := error s;
     isPlaying := isPlaying s; isPaused := isPaused s;
     audioContextRef := audioContextRef s;
     activeSourceRef := activeSourceRef s;
     downloads := downloads s ++ [file]; audio := audio s |}.

Definition set_audio (a : Audio) (s : State) : State :=
  {| status := status s; result := result s; error := error s;
     isPlaying := isPlaying s; isPaused := isPaused s;
     audioContextRef := audioContextRef s;
     activeSourceRef := activeSourceRef s;
     downloads := downloads s; audio := a |}.

Definition platform {A} (m : M Audio A) : M State A := zoom audio set_audio m.

Definition setStatus (v : AppStatus) : M State unit := modify (set_status v).
Definition setResult (v : option NarrationResult) : M State unit :=
  modify (set_result v).
Definition setError (v : option string) : M State unit := modify (set_error v).
Definition setIsPlaying (v : bool) : M State unit := modify (set_isPlaying v).
Definition setIsPaused (v : bool) : M State unit := modify (set_isPaused v).

Definition initial (allowed : bool) : State :=
  {| status := IDLE; result := None; error := None;
     isPlaying := false; isPaused := false;
     audioContextRef := None; activeSourceRef := None;
     downloads := []; audio := WebAudio.init allowed |}.

(** The handlers of this module are taken with their promises settled as
    soon as they are made: the [resume()] that [stopAudio] requests takes
    effect at once, and [startNewAudio] and [togglePlayback] pass their
    [await]s with no other task in between. [NarratorTasks] has the same
    handlers await by await, and [runSettled_atomic] shows that they do what
    these do whenever their promises settle before the next event. *)
Definition stopAudio : M State unit :=
  src <- gets activeSourceRef ;;
  match src with
  | Some i =>
      try_catch (platform (stop i)) ;;
      modify (set_activeSourceRef None)
  | None => ret tt
  end ;;
  ctx <- gets audioContextRef ;;
  match ctx with
  | Some c =>
      st <- platform (contextState c) ;;
      match st with
      | suspended => detach (platform (resume c))
      | _ => ret tt
      end
  | None => ret tt
  end ;;
  setIsPlaying false ;;
  setIsPaused false.

(** The handler [startNewAudio] assigns to [source.onended]. *)
Definition onended_handler : M State unit :=
  setIsPlaying false ;;
  setIsPaused false ;;
  modify (set_activeSourceRef None).

(** [startNewAudio], run to its end: [await ctx.resume()] and
    [await decodeAudioData(...)] settle before anything else runs. *)
Definition startNewAudio (base64 : string) : M State unit :=
  stopAudio ;;
  ref <- gets audioContextRef ;;
  ctx <- match ref with
         | Some c => ret c
         | None =>
             c <- platform (newAudioContext 24000) ;;
             modify (set_audioContextRef (Some c)) ;;
             ret c
         end ;;
  st <- platform (contextState ctx) ;;
  match st with
  | suspended => platform (resume ctx)
  | _ => ret tt
  end ;;
  bytes <- lift (Base64.decode base64) ;;
  audioBuffer <- lift (decodeAudioData bytes ctx 24000 1) ;;
  source <- platform (createBufferSource ctx) ;;
  platform (setBuffer source audioBuffer) ;;
  platform (connect source) ;;
  platform (setOnended source) ;;
  modify (set_activeSourceRef (Some source)) ;;
  platform (start source) ;;
  setIsPlaying true ;;
  setIsPaused false.

Definition resultAudio (s : State) : option string :=
  r ← result s; audioData r.

(** [if (data) k(data)] *)
Definition whenTruthy (data : option string) (k : string → M State unit)
  : M State unit :=
  match data with
  | Some d => if truthy data then k d else ret tt
  | None => ret tt
  end.

(** [togglePlayback], run to its end: [await ctx.resume()] and
    [await ctx.suspend()] settle before anything else runs. *)
Definition togglePlayback : M State unit :=
  ref <- gets audioContextRef ;;
  match ref with
  | None => ret tt
  | Some ctx =>
      paused <- gets isPaused ;;
      playing <- gets isPlaying ;;
      data <- gets resultAudio ;;
      if paused then
        platform (resume ctx) ;; setIsPaused false ;; setIsPlaying true
      else if playing then
        platform (suspend ctx) ;; setIsPaused true ;; setIsPlaying false
      else
        whenTruthy data (λ d, detach (startNewAudio d))
  end.

Definition downloadAudio : M State unit :=
  data <- gets resultAudio ;;
  whenTruthy data (λ d,
    bytes <- lift (Base64.decode d) ;;
    modify (add_download (Wav.createWavBlob bytes 24000))).

Definition clearResults : M State unit :=
  stopAudio ;; setResult None ;; setError None ;; setStatus IDLE.

(** [resetAll] on the component's state, up to [setStatus]. Its last two
    statements revoke the object URL and set [videoUrl] to null: the video
    is the page's, see [NarratorAsync.resetAll]. *)
Definition resetAll : M State unit :=
  stopAudio ;; setResult None ;; setError None ;; setStatus IDLE.

Definition defaultError : string :=
  "Error al procesar el vídeo. Inténtalo de nuevo.".

Definition await {A} (r : Reply A) (k : A → M State unit) : M State unit :=
  match r with
  | Resolved a => k a
  | Rejected message =>
      setError (Some (if truthy (Some message) then message
                      else defaultError)) ;;
      setStatus ERROR
  end.

(** [processVideo] with the video mounted, given what [analyzeVideo] and
    [generateSpeech] answer; frame sampling and the prompt are left out. A
    rejection is caught by the [try] around the body, which [await] spells
    out; [startNewAudio] is not awaited. *)
Definition processVideo (analyzed : Reply Analysis)
  (spoken : Reply (option string)) : M State unit :=
  setStatus SAMPLING ;;
  setStatus ANALYZING ;;
  await analyzed (λ a,
    setStatus NARRATING ;;
    await spoken (λ audioBase64,
      setResult (Some {| text := narration a;
                         audioData := audioBase64;
                         thinkingProcess := Some (analysis a);
                         genreDetected := genre a |}) ;;
      setStatus COMPLETED ;;
      whenTruthy audioBase64 (λ d, detach (startNewAudio d)))).

(** The cleanup of the component's [useEffect]. *)
Definition unmount : M State unit :=
  ref <- gets audioContextRef ;;
  match ref with
  | Some c => platform (close c)
  | None => ret tt
  end.

(** The buttons of the playback bar, as rendered. *)
Inductive Control : Type := PlayPauseButton | StopButton | DownloadButton.

Definition controls (s : State) : list Control :=
  match result s with
  | Some r =>
      if truthy (audioData r)
      then [PlayPauseButton; StopButton; DownloadButton]
      else []
  | None => []
  end.

Definition onClick (c : Control) : M State unit :=
  match c with
  | PlayPauseButton => togglePlayback
  | StopButton => stopAudio
  | DownloadButton => downloadAudio
  end.

#[global] Instance Control_eq_dec : EqDecision Control.
Proof. solve_decision. Defined.

Definition rendered (c : Control) (s : State) : bool :=
  bool_decide (c ∈ controls s).

(** What the event loop can run: each is one task, run to completion. *)
Inductive Event : Type :=
  | ProcessVideo (analyzed : Reply Analysis) (spoken : Reply (option string))
  | Click (c : Control)
  | ClearResults
  | ResetAll
  | Ended (source : nat)
  | Unmount.

Definition handle (e : Event) : M State unit :=
  match e with
  | ProcessVideo analyzed spoken => processVideo analyzed spoken
  | Click c =>
      shown <- gets (rendered c) ;;
      if shown then onClick c else ret tt
  | ClearResults => clearResults
  | ResetAll => resetAll
  | Ended i =>
      run <- platform (takeEnded i) ;;
      if run then onended_handler else ret tt
  | Unmount => unmount
  end.

Definition step (s : State) (e : Event) : State := exec (handle e) s.

Definition run (es : list Event) (s : State) : State := foldl step s es.

Definition idle (s : State) : Prop :=
  activeSourceRef s = None ∧ isPlaying s = false ∧ isPaused s = false.

End Narrator.

(** ** The component of the desktop edition *)

Module Desktop.

Import WebAudio.
Local Open Scope handler_scope.

Record State : Type := {
  status : AppStatus;
  result : option NarrationResult;
  error : option string;
  isPlaying : bool;
  audioContextRef : option nat;
  activeSourceRef : option nat;
  downloads : list (list byte);
  audio : Audio
}.

Definition set_status (v : AppStatus) (s : State) : State :=
  {| status := v; result := result s; error := error s;
     isPlaying := isPlaying s; audioContextRef := audioContextRef s;
     activeSourceRef := activeSourceRef s;
     downloads := downloads s; audio := audio s |}.

Definition set_result (v : option NarrationResult) (s : State) : State :=
  {| status := status s; result := v; error := error s;
     isPlaying := isPlaying s; audioContextRef := audioContextRef s;
     activeSourceRef := activeSourceRef s;
     downloads := downloads s; audio := audio s |}.

Definition set_error (v : option string) (s : State) : State :=
  {| status := status s; result := result s; error := v;
     isPlaying := isPlaying s; audioContextRef := audioContextRef s;
     activeSourceRef := activeSourceRef s;
     downloads := downloads s; audio := audio s |}.

Definition set_isPlaying (v : bool) (s : State) : State :=
  {| status := status s; result := result s; error := error s;
     isPlaying := v; audioContextRef := audioContextRef s;
     activeSourceRef := activeSourceRef s;
     downloads := downloads s; audio := audio s |}.

Definition set_audioContextRef (v : option nat) (s : State) : State :=
  {| status := status s; result := result s; error := error s;
     isPlaying := isPlaying s; audioContextRef := v;
     activeSourceRef := activeSourceRef s;
     downloads := downloads s; audio := audio s |}.

Definition set_activeSourceRef (v : option nat) (s : State) : State :=
  {| status := status s; result := result s; error := error s;
     isPlaying := isPlaying s; audioContextRef := audioContextRef s;
     activeSourceRef := v;
     downloads := downloads s; audio := audio s |}.

Definition add_download (file : list byte) (s : State) : State :=
  {| status := status s; result := result s; error := error s;
     isPlaying := isPlaying s; audioContextRef := audioContextRef s;
     activeSourceRef := activeSourceRef s;
     downloads := downloads s ++ [file]; audio := audio s |}.

Definition set_audio (a : Audio) (s : State) : State :=
  {| status := status s; result := result s; error := error s;
     isPlaying := isPlaying s; audioContextRef := audioContextRef s;
     activeSourceRef := activeSourceRef s;
     downloads := downloads s; audio := a |}.

Definition platform {A} (m : M Audio A) : M State A := zoom audio set_audio m.

Definition setStatus (v : AppStatus) : M State unit := modify (set_status v).
Definition setResult (v : option NarrationResult) : M State unit :=
  modify (set_result v).
Definition setError (v : option string) : M State unit := modify (set_error v).
Definition setIsPlaying (v : bool) : M State unit := modify (set_isPlaying v).

Definition initial (allowed : bool) : State :=
  {| status := IDLE; result := None; error := None; isPlaying := false;
     audioContextRef := None; activeSourceRef := None;
     downloads := []; audio := WebAudio.init allowed |}.

(** Modelled from the spec: [decode] of [./utils/audioUtils] is not among the
    sources. The buttons pass it [result.audioData!], which is [undefined]
    when no audio was produced; that is no valid base64 text, on which
    [decode] "fails with MalformedInputError". *)
Definition decode (base64 : option string) : Result RawByteBuffer :=
  match base64 with
  | Some text => Base64.decode text
  | None => Err MalformedInputError
  end.

(** The handler [playAudio] assigns to [source.onended]. *)
Definition onended_handler : M State unit := setIsPlaying false.

Definition playAudio (base64 : option string) : M State unit :=
  src <- gets activeSourceRef ;;
  match src with
  | Some i => platform (stop i)
  | None => ret tt
  end ;;
  ref <- gets audioContextRef ;;
  ctx <- match ref with
         | Some c => ret c
         | None =>
             c <- platform (newAudioContext 24000) ;;
             modify (set_audioContextRef (Some c)) ;;
             ret c
         end ;;
  bytes <- lift (decode base64) ;;
  audioBuffer <- lift (decodeAudioData bytes ctx 24000 1) ;;
  source <- platform (createBufferSource ctx) ;;
  platform (setBuffer source audioBuffer) ;;
  platform (connect source) ;;
  platform (setOnended source) ;;
  modify (set_activeSourceRef (Some source)) ;;
  platform (start source) ;;
  setIsPlaying true.

Definition resultAudio (s : State) : option string :=
  r ← result s; audioData r.

(** The click handler of the download button. *)
Definition download : M State unit :=
  data <- gets resultAudio ;;
  bytes <- lift (decode data) ;;
  modify (add_download (Wav.createWavBlob bytes 24000)).

Definition processError : string :=
  "Error en el proceso. Revisa tu conexión.".

Definition await {A} (r : Reply A) (k : A → M State unit) : M State unit :=
  match r with
  | Resolved a => k a
  | Rejected _ => setError (Some processError) ;; setStatus ERROR
  end.

(** [processVideo] with the video mounted, given what [analyzeVideo] and
    [generateSpeech] answer; [playAudio] is not awaited. *)
Definition processVideo (analyzed : Reply Analysis)
  (spoken : Reply (option string)) : M State unit :=
  setStatus SAMPLING ;;
  setStatus ANALYZING ;;
  await analyzed (λ a,
    setStatus NARRATING ;;
    await spoken (λ audioBase64,
      setResult (Some {| text := narration a;
                         audioData := audioBase64;
                         thinkingProcess := Some (analysis a);
                         genreDetected := genre a |}) ;;
      setStatus COMPLETED ;;
      if truthy audioBase64 then detach (playAudio audioBase64)
      else ret tt)).

(** [handleFileUpload] with a file chosen. *)
Definition handleFileUpload : M State unit :=
  setResult None ;; setStatus IDLE.

(** The two buttons under the narration text, as rendered. *)
Inductive Control : Type := ReproducirButton | DescargarButton.

Definition controls (s : State) : list Control :=
  match result s with
  | Some _ => [ReproducirButton; DescargarButton]
  | None => []
  end.

Definition onClick (c : Control) : M State unit :=
  match c with
  | ReproducirButton => data <- gets resultAudio ;; playAudio data
  | DescargarButton => download
  end.

#[global] Instance Control_eq_dec : EqDecision Control.
Proof. solve_decision. Defined.

Definition rendered (c : Control) (s : State) : bool :=
  bool_decide (c ∈ controls s).

Inductive Event : Type :=
  | ProcessVideo (analyzed : Reply Analysis) (spoken : Reply (option string))
  | Click (c : Control)
  | FileUpload
  | Ended (source : nat).

Definition handle (e : Event) : M State unit :=
  match e with
  | ProcessVideo analyzed spoken => processVideo analyzed spoken
  | Click c =>
      shown <- gets (rendered c) ;;
      if shown then onClick c else ret tt
  | FileUpload => handleFileUpload
  | Ended i =>
      run <- platform (takeEnded i) ;;
      if run then onended_handler else ret tt
  end.

Definition step (s : State) (e : Event) : State := exec (handle e) s.

Definition run (es : list Event) (s : State) : State := foldl step s es.

End Desktop.

(** ** What the pages show besides the playback bar *)

#[global] Instance AppStatus_eq_dec : EqDecision AppStatus.
Proof. solve_decision. Defined.

Module NarratorView.

Import Narrator.

(** The start button: [disabled={status !== AppStatus.IDLE && status !==
    AppStatus.COMPLETED}]. *)
Definition startDisabled (s : State) : bool :=
  bool_decide (status s ≠ IDLE) && bool_decide (status s ≠ COMPLETED).

(** [{error && (...)}]: the banner with the error message. *)
Definition errorShown (s : State) : bool := truthy (error s).

(** [{result && (...)}]: the panel with the narration, which holds the
    button of [clearResults]. *)
Definition resultShown (s : State) : bool := bool_decide (is_Some (result s)).

End NarratorView.

(** ** [processVideo] call by call *)

Module NarratorAsync.

Import Narrator NarratorView.
Local Open Scope handler_scope.

(** Where a call of [processVideo] waits: for [sampleFrames], for
    [analyzeVideo], or for [generateSpeech] with the analysis in hand. *)
Inductive Await : Type :=
  | AwaitFrames
  | AwaitAnalysis
  | AwaitSpeech (a : Analysis).

(** The component with its video ([videoUrl] set, the video element mounted
    and held by [videoRef]) and the calls of [processVideo] made so far,
    each waiting somewhere or returned. *)
Record Page : Type := {
  app : State;
  videoUrl : bool;
  calls : list (option Await)
}.

Definition initialPage (allowed : bool) : Page :=
  {| app := initial allowed; videoUrl := false; calls := [] |}.

Definition on_app (m : M State unit) (p : Page) : Page :=
  {| app := exec m (app p); videoUrl := videoUrl p; calls := calls p |}.

Definition settle (i : nat) (next : option Await) (p : Page) : Page :=
  {| app := app p; videoUrl := videoUrl p;
     calls := <[i := next]> (calls p) |}.

(** The [catch] block of [processVideo]. *)
Definition catch (message : string) : M State unit :=
  setError (Some (if truthy (Some message) then message else defaultError)) ;;
  setStatus ERROR.

(** [processVideo] from the answer of [generateSpeech] to its end. *)
Definition finish (a : Analysis) (audioBase64 : option string)
  : M State unit :=
  setResult (Some {| text := narration a;
                     audioData := audioBase64;
                     thinkingProcess := Some (analysis a);
                     genreDetected := genre a |}) ;;
  setStatus COMPLETED ;;
  whenTruthy audioBase64 (λ d, detach (startNewAudio d)).

(** [resetAll]: the component's state is reset, the object URL revoked and
    [videoUrl] set to null, which unmounts the video. *)
Definition resetAll (p : Page) : Page :=
  {| app := exec Narrator.resetAll (app p); videoUrl := false;
     calls := calls p |}.

(** [handleFileUpload] with a file chosen: [resetAll], then
    [setVideoUrl(url)]. *)
Definition handleFileUpload (p : Page) : Page :=
  {| app := app (resetAll p); videoUrl := true; calls := calls (resetAll p) |}.

(** What the event loop can run. [FramesSampled], [Analyzed] and [Spoken]
    resume the call [i] of [processVideo] at its [await]; [message] is the
    text of the TypeError of [videoRef.current.duration] when the video is
    gone. [Sync] is an event of the component that runs in one piece. *)
Inductive Event : Type :=
  | FileChosen
  | Start
  | FramesSampled (i : nat) (message : string)
  | Analyzed (i : nat) (r : Reply Analysis)
  | Spoken (i : nat) (r : Reply (option string))
  | Sync (e : Narrator.Event).

Definition step (p : Page) (e : Event) : Page :=
  match e with
  | FileChosen => handleFileUpload p
  | Start =>
      if videoUrl p
      then {| app := exec (setStatus SAMPLING) (app p);
              videoUrl := videoUrl p;
              calls := calls p ++ [Some AwaitFrames] |}
      else p
  | FramesSampled i message =>
      match calls p !! i with
      | Some (Some AwaitFrames) =>
          if videoUrl p
          then settle i (Some AwaitAnalysis) (on_app (setStatus ANALYZING) p)
          else settle i None (on_app (catch message) p)
      | _ => p
      end
  | Analyzed i r =>
      match calls p !! i with
      | Some (Some AwaitAnalysis) =>
          match r with
          | Resolved a =>
              settle i (Some (AwaitSpeech a))
                (on_app (setStatus NARRATING) p)
          | Rejected message => settle i None (on_app (catch message) p)
          end
      | _ => p
      end
  | Spoken i r =>
      match calls p !! i with
      | Some (Some (AwaitSpeech a)) =>
          match r with
          | Resolved audioBase64 =>
              settle i None (on_app (finish a audioBase64) p)
          | Rejected message => settle i None (on_app (catch message) p)
          end
      | _ => p
      end
  | Sync ResetAll => resetAll p
  | Sync (ProcessVideo _ _) => p
  | Sync e => on_app (handle e) p
  end.

Definition run (es : list Event) (p : Page) : Page := foldl step p es.

(** A call of [processVideo] waits. *)
Definition busy (p : Page) : bool :=
  bool_decide (Exists is_Some (calls p)).

(** Whether the page lets the event happen: the file input is there while
    no video is loaded, the start button and the button of [resetAll] while
    one is. *)
Definition offered (e : Event) (p : Page) : bool :=
  match e with
  | FileChosen => negb (videoUrl p)
  | Start => videoUrl p && negb (startDisabled (app p))
  | Sync (ProcessVideo _ _) => false
  | Sync ClearResults => resultShown (app p)
  | Sync ResetAll => videoUrl p
  | _ => true
  end.

(** The user leaves the page alone while a narration is being made: no
    reset, no clearing and no new file then. *)
Definition patient (e : Event) (p : Page) : bool :=
  match e with
  | FileChosen | Sync ClearResults | Sync ResetAll => negb (busy p)
  | _ => true
  end.

Fixpoint feasible (es : list Event) (p : Page) : bool :=
  match es with
  | [] => true
  | e :: es' => offered e p && feasible es' (step p e)
  end.

Fixpoint unhurried (es : list Event) (p : Page) : bool :=
  match es with
  | [] => true
  | e :: es' => patient e p && unhurried es' (step p e)
  end.

End NarratorAsync.

(** ** The component with pause and stop controls, await by await

    [startNewAudio] and [togglePlayback] are [async]: each runs up to its
    first [await] in the task of the event that calls it, and goes on when
    the promise it waits for settles, after whatever other task ran in
    between. [ctx.resume()], [ctx.suspend()] and [ctx.close()] are requests:
    the state of the context changes when their promise settles. The state
    variables are read as last set. *)

Module NarratorTasks.

Import WebAudio Narrator.
Import NarratorAsync (Page, app, videoUrl, calls, Await, AwaitSpeech).
Local Open Scope handler_scope.

(** A promise that is pending: a request to the audio context whose promise
    nobody awaits ([resume()] in [stopAudio], [close()] in the cleanup), or a
    call of [startNewAudio] or [togglePlayback] that waits at an [await].
    [resume()], [suspend()] and [close()] change the state of the context
    when they settle. *)
Inductive Job : Type :=
  | Resume (ctx : nat)
  | Close (ctx : nat)
  | PlayResumed (ctx : nat) (base64 : string)
  | PlayDecoded (ctx : nat) (audioBuffer : Pcm.SampleBuffer)
  | ToggleResumed (ctx : nat)
  | ToggleSuspended (ctx : nat).

(** The page with the promises made so far, each pending or settled. *)
Record Tab : Type := {
  page : Page;
  jobs : list (option Job)
}.

Definition initialTab (allowed : bool) : Tab :=
  {| page := NarratorAsync.initialPage allowed; jobs := [] |}.

Definition set_app (s : State) (t : Tab) : Tab :=
  {| page := {| app := s; videoUrl := videoUrl (page t);
                calls := calls (page t) |};
     jobs := jobs t |}.

Definition set_videoUrl (v : bool) (t : Tab) : Tab :=
  {| page := {| app := app (page t); videoUrl := v;
                calls := calls (page t) |};
     jobs := jobs t |}.

Definition add_job (j : Job) (t : Tab) : Tab :=
  {| page := page t; jobs := jobs t ++ [Some j] |}.

Definition on_page (f : Page → Page) (t : Tab) : Tab :=
  {| page := f (page t); jobs := jobs t |}.

(** A computation on the component's state. *)
Definition component {A} (m : M State A) : M Tab A :=
  zoom (λ t, app (page t)) set_app m.

(** The promise of a request or of an [await], left pending. *)
Definition post (j : Job) : M Tab unit := modify (add_job j).

Definition setVideoUrl (v : bool) : M Tab unit := modify (set_videoUrl v).

Definition stopAudio : M Tab unit :=
  src <- component (gets activeSourceRef) ;;
  match src with
  | Some i =>
      component (try_catch (platform (stop i))) ;;
      component (modify (set_activeSourceRef None))
  | None => ret tt
  end ;;
  ctx <- component (gets audioContextRef) ;;
  match ctx with
  | Some c =>
      st <- component (platform (contextState c)) ;;
      match st with
      | suspended => post (Resume c)
      | _ => ret tt
      end
  | None => ret tt
  end ;;
  component (setIsPlaying false) ;;
  component (setIsPaused false).

(** [startNewAudio] once [decodeAudioData] has answered. *)
Definition playBuffer (ctx : nat) (audioBuffer : Pcm.SampleBuffer)
  : M State unit :=
  source <- platform (createBufferSource ctx) ;;
  platform (setBuffer source audioBuffer) ;;
  platform (connect source) ;;
  platform (setOnended source) ;;
  modify (set_activeSourceRef (Some source)) ;;
  platform (start source) ;;
  setIsPlaying true ;;
  setIsPaused false.

(** [startNewAudio] from [decode] to the [await] of [decodeAudioData]; when
    either throws, the call ends there. *)
Definition decodeBuffer (ctx : nat) (base64 : string) : M Tab unit :=
  bytes <- component (lift (Base64.decode base64)) ;;
  audioBuffer <- component (lift (decodeAudioData bytes ctx 24000 1)) ;;
  post (PlayDecoded ctx audioBuffer).

(** [startNewAudio] up to its first [await]. *)
Definition startNewAudio (base64 : string) : M Tab unit :=
  stopAudio ;;
  ref <- component (gets audioContextRef) ;;
  ctx <- match ref with
         | Some c => ret c
         | None =>
             c <- component (platform (newAudioContext 24000)) ;;
             component (modify (set_audioContextRef (Some c))) ;;
             ret c
         end ;;
  st <- component (platform (contextState ctx)) ;;
  match st with
  | suspended => post (PlayResumed ctx base64)
  | _ => decodeBuffer ctx base64
  end.

(** [if (data) k(data)] *)
Definition whenTruthy (data : option string) (k : string → M Tab unit)
  : M Tab unit :=
  match data with
  | Some d => if truthy data then k d else ret tt
  | None => ret tt
  end.

(** [togglePlayback] up to its [await]. *)
Definition togglePlayback : M Tab unit :=
  ref <- component (gets audioContextRef) ;;
  match ref with
  | None => ret tt
  | Some ctx =>
      paused <- component (gets isPaused) ;;
      playing <- component (gets isPlaying) ;;
      data <- component (gets resultAudio) ;;
      if paused then post (ToggleResumed ctx)
      else if playing then post (ToggleSuspended ctx)
      else whenTruthy data (λ d, detach (startNewAudio d))
  end.

Definition clearResults : M Tab unit :=
  stopAudio ;;
  component (setResult None) ;;
  component (setError None) ;;
  component (setStatus IDLE).

(** [resetAll]; [URL.revokeObjectURL] frees the blob of a URL that the page
    no longer shows once [videoUrl] is null. *)
Definition resetAll : M Tab unit :=
  stopAudio ;;
  component (setResult None) ;;
  component (setError None) ;;
  component (setStatus IDLE) ;;
  setVideoUrl false.

(** [handleFileUpload] with a file chosen. *)
Definition handleFileUpload : M Tab unit :=
  resetAll ;; setVideoUrl true.

(** The cleanup of the component's [useEffect]. *)
Definition unmount : M Tab unit :=
  ref <- component (gets audioContextRef) ;;
  match ref with
  | Some c => post (Close c)
  | None => ret tt
  end.

(** [processVideo] from the answer of [generateSpeech] to its end;
    [startNewAudio] is not awaited. *)
Definition finish (a : Analysis) (audioBase64 : option string)
  : M Tab unit :=
  component (setResult (Some {| text := narration a;
                                audioData := audioBase64;
                                thinkingProcess := Some (analysis a);
                                genreDetected := genre a |})) ;;
  component (setStatus COMPLETED) ;;
  whenTruthy audioBase64 (λ d, detach (startNewAudio d)).

Definition onClick (c : Control) : M Tab unit :=
  match c with
  | PlayPauseButton => togglePlayback
  | StopButton => stopAudio
  | DownloadButton => component downloadAudio
  end.

(** What runs when the promise of a job settles: the request takes effect
    on the context, and the call that awaited it goes on; a rejection (the
    context is closed) ends the call. *)
Definition settled (j : Job) : M Tab unit :=
  match j with
  | Resume c => component (detach (platform (resume c)))
  | Close c => component (platform (close c))
  | PlayResumed c base64 =>
      component (platform (resume c)) ;; decodeBuffer c base64
  | PlayDecoded c audioBuffer => component (playBuffer c audioBuffer)
  | ToggleResumed c =>
      component (platform (resume c) ;; setIsPaused false ;; setIsPlaying true)
  | ToggleSuspended c =>
      component (platform (suspend c) ;; setIsPaused true ;;
                 setIsPlaying false)
  end.

(** What the event loop can run: an event of the page, where a handler runs
    up to its first [await], or the settling of a pending promise. The
    events of the page that start no playback are those of
    [NarratorAsync]. *)
Inductive Event : Type :=
  | OnPage (e : NarratorAsync.Event)
  | Settled (j : nat).

Definition step (t : Tab) (e : Event) : Tab :=
  match e with
  | OnPage NarratorAsync.FileChosen => exec handleFileUpload t
  | OnPage (NarratorAsync.Spoken i (Resolved audioBase64)) =>
      match calls (page t) !! i with
      | Some (Some (AwaitSpeech a)) =>
          exec (finish a audioBase64)
               (on_page (NarratorAsync.settle i None) t)
      | _ => t
      end
  | OnPage (NarratorAsync.Sync (Click c)) =>
      exec (shown <- component (gets (rendered c)) ;;
            if shown then onClick c else ret tt) t
  | OnPage (NarratorAsync.Sync ClearResults) => exec clearResults t
  | OnPage (NarratorAsync.Sync ResetAll) => exec resetAll t
  | OnPage (NarratorAsync.Sync Unmount) => exec unmount t
  | OnPage e => on_page (λ p, NarratorAsync.step p e) t
  | Settled j =>
      match jobs t !! j with
      | Some (Some job) =>
          exec (settled job)
               {| page := page t; jobs := <[j := None]> (jobs t) |}
      | _ => t
      end
  end.

Definition run (es : list Event) (t : Tab) : Tab := foldl step t es.

(** The promises of a handler settle before the next event of the page:
    the pending ones are settled in the order they were made, until none is
    left. A pending promise is settled in one step, or in two when the call
    that awaits it has another [await] to go. *)
Definition weight (j : option Job) : nat :=
  match j with
  | Some (PlayResumed _ _) => 2
  | Some _ => 1
  | None => 0
  end.

Definition firstPending (t : Tab) : option nat :=
  fst <$> list_find is_Some (jobs t).

Fixpoint settleAll (n : nat) (t : Tab) : Tab :=
  match n with
  | O => t
  | S n' =>
      match firstPending t with
      | Some j => settleAll n' (step t (Settled j))
      | None => t
      end
  end.

Definition drain (t : Tab) : Tab :=
  settleAll (sum_list (weight <$> jobs t)) t.

Definition runSettled (es : list NarratorAsync.Event) (t : Tab) : Tab :=
  foldl (λ t e, drain (step t (OnPage e))) t es.

End NarratorTasks.

(** [array.indexOf(x)]: the first position of [x], or -1. *)
Fixpoint indexOf {A} `{EqDecision A} (l : list A) (x : A) : Z :=
  match l with
  | [] => -1
  | y :: l' =>
      if decide (y = x) then 0
      else let i := indexOf l' x in if i <? 0 then -1 else i + 1
  end.

(** The [ProgressBar] of the component with pause and stop controls. *)
Module ProgressBar.

Record Stage : Type := { id : AppStatus; label : string }.

Definition stages : list Stage :=
  [ {| id := SAMPLING; label := "Capturando Vídeo" |};
    {| id := ANALYZING; label := "IA Analizando Acción" |};
    {| id := NARRATING; label := "Locución Profesional" |} ].

Definition stageOrder : list AppStatus :=
  [SAMPLING; ANALYZING; NARRATING; COMPLETED].

Definition getStatusClass (status stageId : AppStatus) : string :=
  let currentIndex := indexOf stageOrder status in
  let stageIndex := indexOf stageOrder stageId in
  if decide (status = ERROR) then "bg-red-500 opacity-50"
  else if stageIndex <? currentIndex
       then "bg-sky-500 shadow-[0_0_10px_#38bdf8]"
  else if stageIndex =? currentIndex then "bg-sky-500 animate-pulse"
  else "bg-slate-700".

(** The colour class of a stage's label. *)
Definition labelClass (status : AppStatus) (stage : Stage) : string :=
  if decide (status = id stage) then "text-sky-400" else "text-slate-500".

(** The segments of the bar and the labels above it, left to right. *)
Definition segments (status : AppStatus) : list string :=
  map (λ stage, getStatusClass status (id stage)) stages.

Definition labels (status : AppStatus) : list string :=
  map (labelClass status) stages.

End ProgressBar.

(** The [ProgressBar] of the desktop edition. *)
Module DesktopProgressBar.

Definition stageOrder : list AppStatus :=
  [SAMPLING; ANALYZING; NARRATING; COMPLETED].

Definition stages : list string :=
  ["Vídeo"%string; "Acción"%string; "Voz"%string].

Definition segmentClass (status : AppStatus) (idx : nat) : string :=
  let currentIndex := indexOf stageOrder status in
  if Z.of_nat idx <? currentIndex then "bg-sky-500"
  else if Z.of_nat idx =? currentIndex then "bg-sky-400 animate-pulse"
  else "bg-slate-700".

Definition labelClass (status : AppStatus) (idx : nat) : string :=
  let currentIndex := indexOf stageOrder status in
  if Z.of_nat idx =? currentIndex then "text-sky-400" else "text-slate-600".

Definition segments (status : AppStatus) : list string :=
  imap (λ idx _, segmentClass status idx) stages.

Definition labels (status : AppStatus) : list string :=
  imap (λ idx _, labelClass status idx) stages.

End DesktopProgressBar.

Module DesktopView.

Import Desktop.

(** The start button: [disabled={status !== AppStatus.IDLE && status !==
    AppStatus.COMPLETED}], and its text. *)
Definition startDisabled (s : State) : bool :=
  bool_decide (status s ≠ IDLE) && bool_decide (status s ≠ COMPLETED).

Definition startLabel (s : State) : string :=
  if bool_decide (status s = IDLE) || bool_decide (status s = COMPLETED)
  then "Iniciar Narrativa" else "Analizando...".

(** [{status !== AppStatus.IDLE && status !== AppStatus.COMPLETED &&
    <ProgressBar status={status} />}]: the segments of the bar, if shown. *)
Definition progressBar (s : State) : option (list string) :=
  if bool_decide (status s ≠ IDLE) && bool_decide (status s ≠ COMPLETED)
  then Some (DesktopProgressBar.segments (status s)) else None.

End DesktopView.

(** ** The requests to the model ([services/geminiService.ts]) *)

(** [s.toLowerCase()], on the letters A to Z: no other letter of a text
    turns into one of the letters that [includes] looks for below. *)
Definition lowerChar (c : ascii) : ascii :=
  let n := nat_of_ascii c in
  if (65 <=? n)%nat && (n <=? 90)%nat then ascii_of_nat (n + 32) else c.

Fixpoint toLowerCase (s : string) : string :=
  match s with
  | EmptyString => EmptyString
  | String c s' => String (lowerChar c) (toLowerCase s')
  end.

(** [s.includes(word)] *)
Fixpoint includes (s word : string) : bool :=
  String.prefix word s
  || match s with
     | EmptyString => false
     | String _ s' => includes s' word
     end.

(** The narration styles of the select. *)
Inductive Mode : Type := AUTO | SPORTS | NEWS.

#[global] Instance Mode_eq_dec : EqDecision Mode.
Proof. solve_decision. Defined.

(** A JavaScript value that is a boolean or [undefined]. *)
Definition JsBool : Type := option bool.

(** [a || b] and [a && b] with a boolean on the left. *)
Definition js_or (a : bool) (b : JsBool) : JsBool :=
  if a then Some true else b.

Definition js_and (a : bool) (b : JsBool) : JsBool :=
  if a then b else Some false.

(** [genreDetected?.toLowerCase().includes('deport')] *)
Definition mentionsSport (genreDetected : option string) : JsBool :=
  (λ g, includes (toLowerCase g) "deport") <$> genreDetected.

Module GeminiService.

(** [VideoFrame] of [types.ts]. *)
Record VideoFrame : Type := { data : string; mimeType : string }.

(** A part of the contents sent to the model. *)
Inductive Part : Type :=
  | InlineData (data mimeType : string)
  | Text (text : string).

(** The [contents.parts] that [analyzeVideo] sends. *)
Definition analyzeParts (frames : list VideoFrame) (prompt : string)
  : list Part :=
  map (λ f, InlineData (data f) (mimeType f)) frames ++ [Text prompt].

Definition sportsStyle : string :=
  "Locuta este guion con la ENERGÍA Y PASIÓN de un narrador deportivo de élite de España (estilo Radio o TV). Ritmo rápido, vibrante y emocionante.".

Definition newsStyle : string :=
  "Locuta este texto con un tono profesional, pausado y claro, típico de un presentador de noticias de España.".

(** The [styleInstruction] of [generateSpeech]; its parameter [isSports]
    defaults to [false] when the caller passes [undefined]. *)
Definition styleInstruction (isSports : JsBool) : string :=
  if default false isSports then sportsStyle else newsStyle.

(** What [generateSpeech] reads of the response. *)
Record Blob : Type := { blobData : option string }.
Record ResponsePart : Type := { inlineData : option Blob }.
Record Content : Type := { parts : option (list ResponsePart) }.
Record Candidate : Type := { content : option Content }.
Record Response : Type := { candidates : option (list Candidate) }.

(** [response.candidates?.[0]?.content?.parts?.[0]?.inlineData?.data] *)
Definition base64Audio (response : Response) : option string :=
  cs ← candidates response;
  c ← cs !! 0%nat;
  ct ← content c;
  ps ← parts ct;
  p ← ps !! 0%nat;
  blob ← inlineData p;
  blobData blob.

End GeminiService.

(** The [isSports] that each [processVideo] passes to [generateSpeech]. *)
Module NarratorRequest.

(** [mode === 'SPORTS' || (mode === 'AUTO' &&
    genreDetected?.toLowerCase().includes('deport'))] *)
Definition isSports (mode : Mode) (genreDetected : option string) : JsBool :=
  js_or (bool_decide (mode = SPORTS))
        (js_and (bool_decide (mode = AUTO)) (mentionsSport genreDetected)).

End NarratorRequest.

Module DesktopRequest.

(** [mode === 'SPORTS' || genreDetected?.toLowerCase().includes('deport')] *)
Definition isSports (mode : Mode) (genreDetected : option string) : JsBool :=
  js_or (bool_decide (mode = SPORTS)) (mentionsSport genreDetected).

End DesktopRequest.

(** ** [processVideo] of the desktop edition, call by call *)

Module DesktopAsync.

Import Desktop DesktopView GeminiService.
Local Open Scope handler_scope.

Definition frameCount : nat := 15.

(** Where a call of [processVideo] waits: for the timer of round [i] of the
    sampling loop, with the frames pushed so far ([ctx] tells whether the
    canvas gave a 2D context); for [analyzeVideo], called with the frames;
    for [generateSpeech], with the analysis in hand. *)
Inductive Await : Type :=
  | AwaitTimer (ctx : bool) (i : nat) (frames : list VideoFrame)
  | AwaitAnalysis (frames : list VideoFrame)
  | AwaitSpeech (a : Analysis).

(** The component with its video ([videoUrl] set, the video element mounted
    and held by [videoRef]) and the calls of [processVideo] made so far,
    each waiting somewhere or returned. *)
Record Page : Type := {
  app : State;
  videoUrl : bool;
  calls : list (option Await)
}.

Definition initialPage (allowed : bool) : Page :=
  {| app := initial allowed; videoUrl := false; calls := [] |}.

Definition on_app (m : M State unit) (p : Page) : Page :=
  {| app := exec m (app p); videoUrl := videoUrl p; calls := calls p |}.

Definition settle (i : nat) (next : option Await) (p : Page) : Page :=
  {| app := app p; videoUrl := videoUrl p;
     calls := <[i := next]> (calls p) |}.

(** The [catch] block of [processVideo]. *)
Definition catch : M State unit :=
  setError (Some processError) ;; setStatus ERROR.

(** [processVideo] from the answer of [generateSpeech] to its end. *)
Definition finish (a : Analysis) (audioBase64 : option string)
  : M State unit :=
  setResult (Some {| text := narration a;
                     audioData := audioBase64;
                     thinkingProcess := Some (analysis a);
                     genreDetected := genre a |}) ;;
  setStatus COMPLETED ;;
  if truthy audioBase64 then detach (playAudio audioBase64) else ret tt.

(** A round of the sampling loop from the timer on: the frame is drawn from
    [videoRef.current] if there is a context, then the next round seeks on
    [videoRef.current], or the loop ends. Both reads throw when the video
    is gone. *)
Definition afterTimer (video ctx : bool) (i : nat)
  (frames : list VideoFrame) (base64 : string) : option Await :=
  if ctx && negb video then None
  else
    let frames' :=
      if ctx then frames ++ [{| data := base64; mimeType := "image/jpeg" |}]
      else frames in
    if (S i <? frameCount)%nat
    then if video then Some (AwaitTimer ctx (S i) frames') else None
    else Some (AwaitAnalysis frames').

(** What the event loop can run. [Start ctx] is a click on the start
    button; [TimerFired], [Analyzed] and [Spoken] resume the call [i] of
    [processVideo] at its [await]; [CloseVideo] is the button on the video;
    [Sync] is an event of the component that runs in one piece. *)
Inductive Event : Type :=
  | FileChosen
  | CloseVideo
  | Start (ctx : bool)
  | TimerFired (i : nat) (base64 : string)
  | Analyzed (i : nat) (r : Reply Analysis)
  | Spoken (i : nat) (r : Reply (option string))
  | Sync (e : Desktop.Event).

Definition step (p : Page) (e : Event) : Page :=
  match e with
  | FileChosen =>
      {| app := exec handleFileUpload (app p); videoUrl := true;
         calls := calls p |}
  | CloseVideo => {| app := app p; videoUrl := false; calls := calls p |}
  | Start ctx =>
      if videoUrl p
      then {| app := exec (setStatus SAMPLING) (app p);
              videoUrl := videoUrl p;
              calls := calls p ++ [Some (AwaitTimer ctx 0 [])] |}
      else p
  | TimerFired i base64 =>
      match calls p !! i with
      | Some (Some (AwaitTimer ctx k frames)) =>
          match afterTimer (videoUrl p) ctx k frames base64 with
          | Some (AwaitAnalysis frames') =>
              settle i (Some (AwaitAnalysis frames'))
                (on_app (setStatus ANALYZING) p)
          | Some next => settle i (Some next) p
          | None => settle i None (on_app catch p)
          end
      | _ => p
      end
  | Analyzed i r =>
      match calls p !! i with
      | Some (Some (AwaitAnalysis _)) =>
          match r with
          | Resolved a =>
              settle i (Some (AwaitSpeech a))
                (on_app (setStatus NARRATING) p)
          | Rejected _ => settle i None (on_app catch p)
          end
      | _ => p
      end
  | Spoken i r =>
      match calls p !! i with
      | Some (Some (AwaitSpeech a)) =>
          match r with
          | Resolved audioBase64 =>
              settle i None (on_app (finish a audioBase64) p)
          | Rejected _ => settle i None (on_app catch p)
          end
      | _ => p
      end
  | Sync (Click c) => on_app (handle (Click c)) p
  | Sync (Ended j) => on_app (handle (Ended j)) p
  | Sync _ => p
  end.

Definition run (es : list Event) (p : Page) : Page := foldl step p es.

(** A call of [processVideo] waits. *)
Definition busy (p : Page) : bool :=
  bool_decide (Exists is_Some (calls p)).

(** Whether the page lets the event happen: the file input is there while
    no video is loaded, the button on the video while one is, the start
    button throughout. *)
Definition offered (e : Event) (p : Page) : bool :=
  match e with
  | FileChosen => negb (videoUrl p)
  | CloseVideo => videoUrl p
  | Start _ => negb (startDisabled (app p))
  | Sync (ProcessVideo _ _) | Sync FileUpload => false
  | _ => true
  end.

Fixpoint feasible (es : list Event) (p : Page) : bool :=
  match es with
  | [] => true
  | e :: es' => offered e p && feasible es' (step p e)
  end.

End DesktopAsync.

(** ** Frame sampling ([sampleFrames] of the component with pause and stop
    controls) *)

Module FrameSampling.

Import GeminiService.

Definition frameCount : nat := 20.

(** An assignment to [video.currentTime]: [0] when sampling begins, [0.05]
    by the timer, [(duration / (frameCount - 1)) * k] by [onSeeked]. *)
Inductive Seek : Type :=
  | Start
  | Nudge
  | Position (k : nat).

Record Sampler : Type := {
  currentFrame : nat;
  frames : list VideoFrame;
  listening : bool;
  resolved : option (list VideoFrame);
  seeks : list Seek
}.

(** [resolve(value)]: a promise keeps the first value it is resolved with. *)
Definition resolve {A} (promise : option A) (value : A) : option A :=
  match promise with
  | None => Some value
  | Some _ => promise
  end.

(** The state when the executor of the promise returns: the first seek is
    requested, [onSeeked] listens, the timer is set. *)
Definition begin : Sampler :=
  {| currentFrame := 0; frames := []; listening := true; resolved := None;
     seeks := [Start] |}.

(** [onSeeked]; [ctx] tells whether the canvas gave a 2D context, [base64]
    is what [canvas.toDataURL('image/jpeg', 0.6).split(',')[1]] yields. *)
Definition onSeeked (ctx : bool) (base64 : string) (v : Sampler) : Sampler :=
  let frames' :=
    if ctx then frames v ++ [{| data := base64; mimeType := "image/jpeg" |}]
    else frames v in
  let currentFrame' := S (currentFrame v) in
  if (currentFrame' <? frameCount)%nat
  then {| currentFrame := currentFrame'; frames := frames';
          listening := listening v; resolved := resolved v;
          seeks := seeks v ++ [Position currentFrame'] |}
  else {| currentFrame := currentFrame'; frames := frames';
          listening := false; resolved := resolve (resolved v) frames';
          seeks := seeks v |}.

(** What the event loop runs next: a [seeked] event of the video, or the
    callback of the timer. *)
Inductive Tick : Type :=
  | Seeked (base64 : string)
  | Timer.

Definition tick (ctx : bool) (v : Sampler) (t : Tick) : Sampler :=
  match t with
  | Seeked base64 => if listening v then onSeeked ctx base64 v else v
  | Timer =>
      {| currentFrame := currentFrame v; frames := frames v;
         listening := listening v; resolved := resolved v;
         seeks := seeks v ++ [Nudge] |}
  end.

Definition sampleFrames (ctx : bool) (ts : list Tick) : Sampler :=
  foldl (tick ctx) begin ts.

End FrameSampling.

(** * Notions the properties are stated with *)

(** A six-bit value, a signed 16-bit value. *)
Definition sextet (v : Z) : Prop := 0 ≤ v < 64.

Definition int16 (v : Z) : Prop := -32768 ≤ v ≤ 32767.

(** A property of the state that a handler keeps, whether it completes or
    throws. *)
Definition preserves {St A} (I : St → Prop) (m : M St A) : Prop :=
  ∀ s, I s → I (exec m s).

(** ** On the platform *)

Section PlatformNotions.

Import WebAudio.

Definition stateOf (c : nat) (a : Audio) : ContextState :=
  from_option state closed (contexts a !! c).

(** What a transition does to a context: nothing once it is closed. *)
Definition moved (st : ContextState) (ctx : AudioContext) : AudioContext :=
  match state ctx with
  | closed => ctx
  | _ => with_state st ctx
  end.

(** What [stop] does to a node: nothing before [start]. *)
Definition halted (n : SourceNode) : SourceNode :=
  match playback n with
  | unscheduled => n
  | _ => with_playback stopped n
  end.

Definition goodContext (ctx : AudioContext) : Prop :=
  ctxSampleRate ctx = 24000.

Definition goodNode (n : SourceNode) : Prop :=
  context n = 0%nat ∧ playback n ≠ unscheduled
  ∧ connected n = true ∧ onended n = true
  ∧ ∃ b, buffer n = Some b
         ∧ Pcm.sampleRate b = 24000 ∧ Pcm.numberOfChannels b = 1.

(** The shared device: no context before the first play, then one, which
    the ref holds. *)
Definition oneContext (ref : option nat) (a : Audio) : Prop :=
  match ref with
  | Some c => c = 0%nat ∧ ∃ ctx, contexts a = [ctx] ∧ goodContext ctx
  | None => contexts a = []
  end.

Definition goodAudio (ref : option nat) (a : Audio) : Prop :=
  oneContext ref a ∧ Forall goodNode (sources a).

Definition allOpen (a : Audio) : Prop :=
  Forall (λ ctx, state ctx ≠ closed) (contexts a).

Definition goodFile (file : list byte) : Prop :=
  Wav.u32_at 24 file = 24000 ∧ Wav.u16_at 22 file = 1.

(** [stop] on the node a ref names, if any. *)
Definition haltRef (src : option nat) (a : Audio) : Audio :=
  match src with
  | Some i => exec (stop i) a
  | None => a
  end.

(** [resume] on the context a ref names, if it is suspended. *)
Definition resumeRef (ref : option nat) (a : Audio) : Audio :=
  match ref with
  | Some c =>
      match stateOf c a with
      | suspended => exec (resume c) a
      | _ => a
      end
  | None => a
  end.

(** The node [startNewAudio] has built when it returns. *)
Definition freshNode (c : nat) (b : Pcm.SampleBuffer) : SourceNode :=
  {| context := c; buffer := Some b; connected := true; onended := true;
     playback := started; endedFired := false |}.

(** The context [startNewAudio] uses: the one held, or a new one. *)
Definition contextOf (ref : option nat) (a : Audio) : nat :=
  match ref with
  | Some c => c
  | None => length (contexts a)
  end.

Definition ensured (ref : option nat) (a : Audio) : Audio :=
  match ref with
  | Some _ => a
  | None => exec (newAudioContext 24000) a
  end.

Definition pcmBuffer (bytes : RawByteBuffer) : Pcm.SampleBuffer :=
  {| Pcm.sampleRate := 24000; Pcm.numberOfChannels := 1;
     Pcm.channelData := [map Pcm.normalize (Pcm.int16_samples bytes)] |}.

(** The [ended] event of node [i] was dispatched. *)
Definition firedAt (i : nat) (a : Audio) : Prop :=
  endedFired <$> sources a !! i = Some true.

End PlatformNotions.

(** ** On the component with pause and stop controls *)

Section NarratorNotions.

Import WebAudio Narrator.

(** The state [stopAudio] leaves. *)
Definition afterStop (s : State) : State :=
  {| status := status s; result := result s; error := error s;
     isPlaying := false; isPaused := false;
     audioContextRef := audioContextRef s;
     activeSourceRef := None;
     downloads := downloads s;
     audio := resumeRef (audioContextRef s)
                (haltRef (activeSourceRef s) (audio s)) |}.

(** The state in which [startNewAudio] decodes its payload. *)
Definition prepared (s : State) : State :=
  let a := audio (afterStop s) in
  let c := contextOf (audioContextRef s) a in
  {| status := status s; result := result s; error := error s;
     isPlaying := false; isPaused := false;
     audioContextRef := Some c;
     activeSourceRef := None;
     downloads := downloads s;
     audio := resumeRef (Some c) (ensured (audioContextRef s) a) |}.

(** The state in which it returns. *)
Definition launched (b : Pcm.SampleBuffer) (s : State) : State :=
  {| status := status s; result := result s; error := error s;
     isPlaying := true; isPaused := false;
     audioContextRef := audioContextRef s;
     activeSourceRef := Some (length (sources (audio s)));
     downloads := downloads s;
     audio :=
       set_sources
         (λ l, l ++ [freshNode (default 0%nat (audioContextRef s)) b])
         (audio s) |}.

(** Every node that renders is the one the controller holds. *)
Definition tracked (s : State) : Prop :=
  ∀ j, isStarted j (audio s) → activeSourceRef s = Some j.

Definition Inv (s : State) : Prop :=
  goodAudio (audioContextRef s) (audio s) ∧ Forall goodFile (downloads s).

Definition Open (s : State) : Prop := allOpen (audio s).

(** The event brings a narration with an audio payload. *)
Definition delivers (e : Event) : bool :=
  match e with
  | ProcessVideo (Resolved _) (Resolved data) => truthy data
  | _ => false
  end.

Definition Silent (s : State) : Prop :=
  audioContextRef s = None ∧ contexts (audio s) = []
  ∧ truthy (resultAudio s) = false.

Definition Fired (i : nat) (s : State) : Prop := firedAt i (audio s).

(** What the controller shows of a playback session. *)
Definition view (s : State) : option nat * bool * bool :=
  (activeSourceRef s, isPlaying s, isPaused s).

End NarratorNotions.

(** ** On the component of the desktop edition *)

Section DesktopNotions.

Import WebAudio Desktop.

(** The error [playAudio] throws at its first line, if any: [stop] on a
    node that was never started. *)
Definition stopFails (src : option nat) (a : Audio) : option Error :=
  match src with
  | Some i =>
      match (stop i a).1 with
      | Done _ => None
      | Threw e => Some e
      end
  | None => None
  end.

(** The state in which [playAudio] decodes its payload. *)
Definition readied (s : State) : State :=
  let a := haltRef (activeSourceRef s) (audio s) in
  {| status := status s; result := result s; error := error s;
     isPlaying := isPlaying s;
     audioContextRef := Some (contextOf (audioContextRef s) a);
     activeSourceRef := activeSourceRef s;
     downloads := downloads s;
     audio := ensured (audioContextRef s) a |}.

(** The state in which it returns. *)
Definition played (b : Pcm.SampleBuffer) (s : State) : State :=
  {| status := status s; result := result s; error := error s;
     isPlaying := true;
     audioContextRef := audioContextRef s;
     activeSourceRef := Some (length (sources (audio s)));
     downloads := downloads s;
     audio :=
       set_sources
         (λ l, l ++ [freshNode (default 0%nat (audioContextRef s)) b])
         (audio s) |}.

(** Every node that renders is the one the controller holds. *)
Definition trackedD (s : State) : Prop :=
  ∀ j, isStarted j (audio s) → activeSourceRef s = Some j.

(** The node the controller holds was started. *)
Definition validRef (s : State) : Prop :=
  ∀ i, activeSourceRef s = Some i →
       ∃ n, sources (audio s) !! i = Some n ∧ playback n ≠ unscheduled.

Definition InvD (s : State) : Prop :=
  goodAudio (audioContextRef s) (audio s) ∧ Forall goodFile (downloads s).

Definition OpenD (s : State) : Prop := allOpen (audio s).

Definition OneD (s : State) : Prop := trackedD s ∧ validRef s.

Definition deliversD (e : Event) : bool :=
  match e with
  | ProcessVideo (Resolved _) (Resolved _) => true
  | _ => false
  end.

Definition SilentD (s : State) : Prop :=
  audioContextRef s = None ∧ contexts (audio s) = [] ∧ result s = None.

Definition FiredD (i : nat) (s : State) : Prop := firedAt i (audio s).

Definition viewD (s : State) : option nat * bool :=
  (activeSourceRef s, isPlaying s).

End DesktopNotions.

(** ** On the playback session and the page *)

Section SessionNotions.

Import WebAudio Narrator NarratorView.

(** The session as the controller holds it: none, one that plays, or one
    that is paused. *)
Definition Session (s : State) : Prop :=
  match activeSourceRef s with
  | None => isPlaying s = false ∧ isPaused s = false
  | Some i =>
      isStarted i (audio s)
      ∧ ∃ c, audioContextRef s = Some c
         ∧ (isPlaying s = true ∧ isPaused s = false
            ∧ stateOf c (audio s) ≠ suspended
            ∨ isPlaying s = false ∧ isPaused s = true
              ∧ stateOf c (audio s) ≠ running)
  end.

(** The state in which [togglePlayback] leaves a playback it pauses. *)
Definition pausedFrom (c : nat) (s : State) : State :=
  {| status := status s; result := result s; error := error s;
     isPlaying := false; isPaused := true;
     audioContextRef := audioContextRef s;
     activeSourceRef := activeSourceRef s;
     downloads := downloads s;
     audio := set_contexts (alter (with_state suspended) c) (audio s) |}.

(** What the page shows of a narration. *)
Definition page (s : State)
  : AppStatus * option NarrationResult * option string :=
  (status s, result s, error s).

(** The status agrees with what the page shows. *)
Definition Display (s : State) : Prop :=
  match status s with
  | IDLE => result s = None ∧ error s = None
  | COMPLETED => is_Some (result s) ∧ error s = None
  | ERROR => errorShown s = true
  | _ => False
  end.

End SessionNotions.

Section AsyncNotions.

Import Narrator NarratorView NarratorAsync.

(** The status a waiting call of [processVideo] has set. *)
Definition statusOf (w : Await) : AppStatus :=
  match w with
  | AwaitFrames => SAMPLING
  | AwaitAnalysis => ANALYZING
  | AwaitSpeech _ => NARRATING
  end.

(** The call [i] is the one call that waits. *)
Definition onlyCall (i : nat) (w : Await) (p : Page) : Prop :=
  calls p !! i = Some (Some w)
  ∧ ∀ j w', calls p !! j = Some (Some w') → j = i.

(** The page of a user who lets a narration finish: either no call waits and
    the status agrees with what is shown, or one call waits, with its
    status, no error and the video in place. *)
Definition DisplayA (p : Page) : Prop :=
  (busy p = false ∧ Display (app p))
  ∨ ∃ i w, onlyCall i w p ∧ status (app p) = statusOf w
           ∧ error (app p) = None ∧ videoUrl p = true.

(** What holds of the component whatever the calls of [processVideo] do. *)
Definition Sound (s : State) : Prop := Inv s ∧ Session s.

End AsyncNotions.

Section QuietNotions.

Import Narrator NarratorAsync.

(** The event starts or resumes a call of [processVideo] and brings no
    payload to play. *)
Definition quiet (e : Event) : bool :=
  match e with
  | Start | FramesSampled _ _ | Analyzed _ _ => true
  | Spoken _ (Resolved audioBase64) => negb (truthy audioBase64)
  | Spoken _ (Rejected _) => true
  | _ => false
  end.

(** The event makes the call [i] of [processVideo] throw [message]. *)
Definition fails (p : Page) (e : Event) (i : nat) (message : string) : Prop :=
  match e with
  | FramesSampled j m =>
      j = i ∧ m = message ∧ calls p !! i = Some (Some AwaitFrames)
      ∧ videoUrl p = false
  | Analyzed j (Rejected m) =>
      j = i ∧ m = message ∧ calls p !! i = Some (Some AwaitAnalysis)
  | Spoken j (Rejected m) =>
      j = i ∧ m = message ∧ ∃ a, calls p !! i = Some (Some (AwaitSpeech a))
  | _ => False
  end.

End QuietNotions.

Section TasksNotions.

Import WebAudio Narrator NarratorTasks.
Local Open Scope handler_scope.

(** No promise is pending. *)
Definition quiescent (l : list (option Job)) : Prop := Forall (λ j, j = None) l.

(** What a pending job does to the component once it has settled, together
    with the later [await] of the call that waits for it. *)
Definition flush (j : Job) : M State unit :=
  match j with
  | Resume c => detach (platform (resume c))
  | Close c => platform (close c)
  | PlayResumed c base64 =>
      platform (resume c) ;;
      bytes <- lift (Base64.decode base64) ;;
      audioBuffer <- lift (decodeAudioData bytes c 24000 1) ;;
      playBuffer c audioBuffer
  | PlayDecoded c audioBuffer => playBuffer c audioBuffer
  | ToggleResumed c =>
      platform (resume c) ;; setIsPaused false ;; setIsPlaying true
  | ToggleSuspended c =>
      platform (suspend c) ;; setIsPaused true ;; setIsPlaying false
  end.

Definition flushAll (js : list Job) (s : State) : State :=
  foldl (λ s j, exec (flush j) s) s js.

(** A job that settles in one step. *)
Definition simple (j : Job) : Prop :=
  match j with
  | PlayResumed _ _ => False
  | _ => True
  end.

(** The jobs a handler leaves: only the last one can have a second
    [await]. *)
Fixpoint inOrder (js : list Job) : Prop :=
  match js with
  | [] => True
  | j :: js' => (simple j ∨ js' = []) ∧ inOrder js'
  end.

Definition with_app (s : State) (p : NarratorAsync.Page)
  : NarratorAsync.Page :=
  {| NarratorAsync.app := s;
     NarratorAsync.videoUrl := NarratorAsync.videoUrl p;
     NarratorAsync.calls := NarratorAsync.calls p |}.

(** The state [stopAudio] leaves when it returns: the request to resume
    the context is pending. *)
Definition stoppedNow (s : State) : State :=
  {| status := status s; result := result s; error := error s;
     isPlaying := false; isPaused := false;
     audioContextRef := audioContextRef s;
     activeSourceRef := None;
     downloads := downloads s;
     audio := haltRef (activeSourceRef s) (audio s) |}.

(** The request [stopAudio] makes. *)
Definition resumeAsked (s : State) : list Job :=
  match audioContextRef s with
  | Some c =>
      match stateOf c (audio s) with
      | suspended => [Resume c]
      | _ => []
      end
  | None => []
  end.

(** The state in which [startNewAudio] reads the state of the context. *)
Definition ensuredNow (s : State) : State :=
  let a := haltRef (activeSourceRef s) (audio s) in
  {| status := status s; result := result s; error := error s;
     isPlaying := false; isPaused := false;
     audioContextRef := Some (contextOf (audioContextRef s) a);
     activeSourceRef := None;
     downloads := downloads s;
     audio := ensured (audioContextRef s) a |}.

(** The promise [startNewAudio] waits for at its first [await], if the call
    gets that far. *)
Definition decodeAsked (c : nat) (base64 : string) : list Job :=
  match Base64.decode base64 with
  | Ok bytes =>
      match decodeAudioData bytes c 24000 1 with
      | Ok b => [PlayDecoded c b]
      | Err _ => []
      end
  | Err _ => []
  end.

Definition playAsked (base64 : string) (s : State) : list Job :=
  let c := contextOf (audioContextRef s)
                     (haltRef (activeSourceRef s) (audio s)) in
  resumeAsked s
  ++ match stateOf c (audio (ensuredNow s)) with
     | suspended => [PlayResumed c base64]
     | _ => decodeAsked c base64
     end.

Definition add_jobs (js : list Job) (t : Tab) : Tab :=
  {| page := page t; jobs := jobs t ++ (Some <$> js) |}.

(** The state in which [startNewAudio] returns, its node created on the
    context [c]. *)
Definition launchedOn (c : nat) (b : Pcm.SampleBuffer) (s : State) : State :=
  {| status := status s; result := result s; error := error s;
     isPlaying := true; isPaused := false;
     audioContextRef := audioContextRef s;
     activeSourceRef := Some (length (sources (audio s)));
     downloads := downloads s;
     audio := set_sources (λ l, l ++ [freshNode c b]) (audio s) |}.

(** The state variables [clearResults] and [resetAll] set anew. *)
Definition reset (s : State) : State :=
  set_status IDLE (set_error None (set_result None s)).

(** The shared device of the component, however its promises settle. *)
Definition Device (s : State) : Prop :=
  oneContext (audioContextRef s) (audio s).

(** No request to close the context is pending, and no context is
    closed. *)
Definition unclosing (j : option Job) : Prop := ∀ c, j ≠ Some (Close c).

Definition StillOpen (t : Tab) : Prop :=
  Forall unclosing (jobs t) ∧ Open (NarratorAsync.app (page t)).

(** What the controller keeps however its promises settle: the two flags
    are never both set, and a source it holds was started and not stopped,
    with one of the flags set. Every node has its [onended] handler. *)
Definition Held (s : State) : Prop :=
  (isPlaying s = true → isPaused s = false)
  ∧ (∀ i, activeSourceRef s = Some i →
          isStarted i (audio s)
          ∧ (isPlaying s = true ∨ isPaused s = true))
  ∧ Forall (λ n, onended n = true) (sources (audio s)).

End TasksNotions.

Section SteadyNotions.

Import WebAudio.

(** No context has left the state in which the platform created it. *)
Definition Steady (allowed : bool) (a : Audio) : Prop :=
  allowedToStart a = allowed
  ∧ Forall (λ ctx, state ctx = if allowed then running else suspended)
           (contexts a).

End SteadyNotions.

Section DesktopAsyncNotions.

Import Desktop DesktopAsync GeminiService.


(** What holds of the desktop component whatever the calls of
    [processVideo] do. *)
Definition SoundD (allowed : bool) (s : State) : Prop :=
  OneD s ∧ Steady allowed (audio s).

End DesktopAsyncNotions.

(** ** On the progress bars *)

Section ProgressNotions.

(** The classes of a segment that is done, of the one in progress, of one
    to come and of one after a failure; of a label that is lit and of one
    that is not. *)
Definition doneClass : string := "bg-sky-500 shadow-[0_0_10px_#38bdf8]".
Definition currentClass : string := "bg-sky-500 animate-pulse".
Definition pendingClass : string := "bg-slate-700".
Definition failedClass : string := "bg-red-500 opacity-50".
Definition litClass : string := "text-sky-400".
Definition dimClass : string := "text-slate-500".

(** A bar of three with [d] segments done and, if [c], one in progress. *)
Definition bar {A} (done current pending : A) (d : nat) (c : bool) : list A :=
  replicate d done ++ (if c then [current] else [])
  ++ replicate (3 - d - (if c then 1 else 0)) pending.

End ProgressNotions.

(** ** On frame sampling *)

Section SamplingNotions.

Import GeminiService FrameSampling.

(** The pictures the [seeked] events of a run showed, in order. *)
Definition shots (ts : list Tick) : list string :=
  omap (λ t, match t with Seeked b => Some b | Timer => None end) ts.

Definition jpeg (base64 : string) : VideoFrame :=
  {| data := base64; mimeType := "image/jpeg" |}.

(** The positions [onSeeked] asked for: [k] stands for
    [(duration / (frameCount - 1)) * k]. *)
Definition positions (l : list Seek) : list nat :=
  omap (λ s, match s with Position k => Some k | _ => None end) l.

Definition Sampled (ctx : bool) (ts : list Tick) (v : Sampler) : Prop :=
  let n := length (shots ts) in
  currentFrame v = (n `min` 20)%nat
  ∧ listening v = bool_decide (n < 20)%nat
  ∧ frames v = (if ctx then map jpeg (take 20 (shots ts)) else [])
  ∧ resolved v = (if bool_decide (n < 20)%nat then None else Some (frames v))
  ∧ positions (seeks v) = seq 1 (n `min` 19).

End SamplingNotions.

(** ** Sample inputs *)

(** Two payloads of one sample each: [0x00, 0x80] and [0xFF, 0x7F]. *)
Definition payloadA : string := "AIA=".

Definition payloadB : string := "/38=".

Definition narrated (audio : option string) : Reply Analysis * Reply (option string) :=
  (Resolved {| narration := "n"; analysis := "a"; genre := None |},
   Resolved audio).


(** The first payload plays. *)
Definition playingA : Narrator.State :=
  Narrator.run
    [Narrator.ProcessVideo (narrated (Some payloadA)).1
                           (narrated (Some payloadA)).2]
    (Narrator.initial true).

(** A narration of the first payload, call by call, and the same paused. *)
Definition narrateA : list NarratorAsync.Event :=
  [NarratorAsync.FileChosen; NarratorAsync.Start;
   NarratorAsync.FramesSampled 0 EmptyString;
   NarratorAsync.Analyzed 0 (narrated (Some payloadA)).1;
   NarratorAsync.Spoken 0 (narrated (Some payloadA)).2].

Definition pauseA : list NarratorAsync.Event :=
  narrateA ++ [NarratorAsync.Sync (Narrator.Click Narrator.PlayPauseButton)].

(** While the first payload plays, a second narration gets as far as
    [generateSpeech]. *)
Definition secondA : list NarratorAsync.Event :=
  narrateA
  ++ [NarratorAsync.Start; NarratorAsync.FramesSampled 1 EmptyString;
      NarratorAsync.Analyzed 1 (narrated None).1].

(** The first narration fails at the analysis. *)
Definition failA : list NarratorAsync.Event :=
  [NarratorAsync.FileChosen; NarratorAsync.Start;
   NarratorAsync.FramesSampled 0 EmptyString;
   NarratorAsync.Analyzed 0 (Rejected "quota")].

(** The first narration of the desktop edition fails at the analysis, with
    no context for the canvas. *)
Definition failD : list DesktopAsync.Event :=
  DesktopAsync.FileChosen :: DesktopAsync.Start false
  :: map (λ _, DesktopAsync.TimerFired 0 EmptyString) (seq 0 15)
  ++ [DesktopAsync.Analyzed 0 (Rejected "quota")].

(** The desktop edition samples a video, with a context for the canvas. *)
Definition sampleD : list DesktopAsync.Event :=
  DesktopAsync.FileChosen :: DesktopAsync.Start true
  :: map (λ _, DesktopAsync.TimerFired 0 "f") (seq 0 15).

(** The desktop edition plays the first payload where the platform starts
    contexts suspended. *)
Definition narrateD : list DesktopAsync.Event :=
  sampleD
  ++ [DesktopAsync.Analyzed 0 (narrated (Some payloadA)).1;
      DesktopAsync.Spoken 0 (narrated (Some payloadA)).2].

(** The speech model answers with the first payload in the first part of
    its first candidate, and with the second payload in a second part. *)
Definition spokenA : GeminiService.Response :=
  {| GeminiService.candidates :=
       Some [{| GeminiService.content :=
                  Some {| GeminiService.parts :=
                            Some [{| GeminiService.inlineData :=
                                       Some {| GeminiService.blobData :=
                                                 Some payloadA |} |};
                                  {| GeminiService.inlineData :=
                                       Some {| GeminiService.blobData :=
                                                 Some payloadB |} |}] |} |}]
  |}.

(** Twenty-one [seeked] events, the timer firing after the first. *)
Definition twentyOne : list FrameSampling.Tick :=
  FrameSampling.Seeked "f0" :: FrameSampling.Timer
  :: map (λ _, FrameSampling.Seeked "f") (seq 0 20).


(** A pause is clicked while the first payload plays, and the stop button
    before [suspend()] has settled. The first payload takes one promise to
    play where contexts start running, and two where they start
    suspended. *)
Definition pauseThenStop : list NarratorTasks.Event :=
  map NarratorTasks.OnPage narrateA
  ++ [NarratorTasks.Settled 0; NarratorTasks.Settled 1;
      NarratorTasks.OnPage
        (NarratorAsync.Sync (Narrator.Click Narrator.PlayPauseButton));
      NarratorTasks.OnPage
        (NarratorAsync.Sync (Narrator.Click Narrator.StopButton));
      NarratorTasks.Settled 1; NarratorTasks.Settled 2].

(** The first payload plays, its promises settled. *)
Definition playingT : NarratorTasks.Tab :=
  NarratorTasks.runSettled narrateA (NarratorTasks.initialTab true).

(** The first payload is paused, its promises settled. *)
Definition pausedT : NarratorTasks.Tab :=
  NarratorTasks.runSettled pauseA (NarratorTasks.initialTab true).



(** The play button of a paused playback is clicked, and the stop button
    before [resume()] has settled; then the promises settle in the order
    they were made. *)
Definition resumeThenStop : list NarratorTasks.Event :=
  [NarratorTasks.OnPage
     (NarratorAsync.Sync (Narrator.Click Narrator.PlayPauseButton));
   NarratorTasks.OnPage
     (NarratorAsync.Sync (Narrator.Click Narrator.StopButton))].

Definition stoppedT : NarratorTasks.Tab :=
  NarratorTasks.drain (NarratorTasks.run resumeThenStop pausedT).

(** * Facts *)

(** ** Bytes *)

Lemma byteZ_range (b : byte) : 0 ≤ byteZ b < 256.
Proof.
  unfold byteZ. pose proof (Byte.to_N_bounded b). lia.
Qed.

Lemma byte_of_Z_byteZ (b : byte) : byte_of_Z (byteZ b) = b.
Proof.
  unfold byte_of_Z. pose proof (byteZ_range b) as Hb.
  rewrite Z.mod_small by lia. unfold byteZ.
  by rewrite N2Z.id, Byte.of_to_N.
Qed.

Lemma byteZ_byte_of_Z (z : Z) : byteZ (byte_of_Z z) = z mod 256.
Proof.
  unfold byte_of_Z, byteZ.
  pose proof (Z.mod_pos_bound z 256 ltac:(lia)) as Hz.
  destruct (Byte.of_N (Z.to_N (z mod 256))) as [b|] eqn:Hb.
  - apply Byte.to_of_N in Hb. rewrite Hb. lia.
  - apply Byte.of_N_None_iff in Hb. lia.
Qed.

Lemma byte_of_Z_small (z : Z) (b : byte) : z = byteZ b → byte_of_Z z = b.
Proof. intros ->. apply byte_of_Z_byteZ. Qed.

(** ** Base64 *)

Section Base64Facts.

Import Base64.

Lemma index_of_Some c l n :
  index_of c l = Some n → (n < length l)%nat ∧ ∀ d, nth n l d = c.
Proof.
  revert n. induction l as [|x l IH]; intros n; simpl; [done|].
  destruct (Ascii.eqb c x) eqn:E.
  - intros [= <-]. apply Ascii.eqb_eq in E. split; [lia | done].
  - destruct (index_of c l) as [m|]; simpl; [|done].
    intros [= <-]. destruct (IH m eq_refl) as [? ?]. split; [lia | done].
Qed.

Lemma sextet_of_char_Some c v :
  sextet_of_char c = Some v → sextet v ∧ char_of_sextet v = c.
Proof.
  unfold sextet_of_char, char_of_sextet, sextet.
  destruct (index_of c alphabet) as [n|] eqn:E; simpl; [|done].
  intros [= <-]. apply index_of_Some in E as [Hn Hc].
  change (length alphabet) with 64%nat in Hn.
  rewrite Nat2Z.id. split; [lia | apply Hc].
Qed.

Lemma sextet_of_char_of_sextet v :
  sextet v → sextet_of_char (char_of_sextet v) = Some v.
Proof.
  intros [H0 H64].
  assert (∃ n, (n < 64)%nat ∧ v = Z.of_nat n) as (n & Hn & ->)
    by (exists (Z.to_nat v); lia).
  clear H0 H64.
  do 64 (destruct n as [|n]; [reflexivity|]). lia.
Qed.

Lemma char_of_sextet_not_pad v : is_pad (char_of_sextet v) = false.
Proof.
  unfold char_of_sextet.
  assert (Forall (λ c, is_pad c = false) alphabet) as Hall
    by (repeat constructor).
  destruct (nth_in_or_default (Z.to_nat v) alphabet "A"%char) as [Hin | ->];
    [|reflexivity].
  rewrite Forall_forall in Hall. apply Hall. by apply list_elem_of_In.
Qed.

Lemma strip_padding_pads n : strip_padding (repeat pad_char n) = ([], n).
Proof. induction n as [|n IH]; simpl; [done|]. by rewrite IH. Qed.

Lemma strip_padding_app body n :
  Forall (λ c, is_pad c = false) body →
  strip_padding (body ++ repeat pad_char n) = (body, n).
Proof.
  induction 1 as [|c body Hc _ IH]; simpl; [apply strip_padding_pads|].
  rewrite IH. destruct body; [by rewrite Hc | done].
Qed.

Lemma strip_padding_inv cs body n :
  strip_padding cs = (body, n) → cs = body ++ repeat pad_char n.
Proof.
  revert body n. induction cs as [|c cs IH]; intros body n; simpl.
  - by intros [= <- <-].
  - destruct (strip_padding cs) as [[|b bs] m] eqn:E.
    + specialize (IH _ _ eq_refl). simpl in IH. subst cs.
      destruct (is_pad c) eqn:Hc.
      * intros [= <- <-]. apply Ascii.eqb_eq in Hc. by subst c.
      * by intros [= <- <-].
    + intros [= <- <-]. by rewrite (IH _ _ eq_refl).
Qed.

(** Induction three bytes, or four sextets, at a time. *)
Lemma list_ind3 {A} (P : list A → Prop) :
  P [] → (∀ a, P [a]) → (∀ a b, P [a; b]) →
  (∀ a b c l, P l → P (a :: b :: c :: l)) →
  ∀ l, P l.
Proof.
  intros H0 H1 H2 H3 l.
  assert (P l ∧ (∀ a, P (a :: l)) ∧ (∀ a b, P (a :: b :: l))) as [? _];
    [|done].
  induction l as [|x l (IH0 & IH1 & IH2)]; [by auto|].
  split; [exact (IH1 x)|]. split; [intros a; exact (IH2 a x)|].
  intros a b. by apply H3.
Qed.

Lemma list_ind4 {A} (P : list A → Prop) :
  P [] → (∀ a, P [a]) → (∀ a b, P [a; b]) → (∀ a b c, P [a; b; c]) →
  (∀ a b c d l, P l → P (a :: b :: c :: d :: l)) →
  ∀ l, P l.
Proof.
  intros H0 H1 H2 H3 H4 l.
  assert (P l ∧ (∀ a, P (a :: l)) ∧ (∀ a b, P (a :: b :: l))
          ∧ (∀ a b c, P (a :: b :: c :: l))) as [? _]; [|done].
  induction l as [|x l (IH0 & IH1 & IH2 & IH3)]; [by auto|].
  split; [exact (IH1 x)|]. split; [intros a; exact (IH2 a x)|].
  split; [intros a b; exact (IH3 a b x)|].
  intros a b c. by apply H4.
Qed.

Ltac byte_bounds :=
  repeat match goal with
         | |- context [byteZ ?b] =>
             lazymatch goal with
             | _ : 0 ≤ byteZ b < 256 |- _ => fail
             | _ => pose proof (byteZ_range b)
             end
         end.

Lemma encode_sextets_range bs : Forall sextet (encode_sextets bs).
Proof.
  induction bs as [|a|a b|a b c l IH] using list_ind3; simpl;
    repeat (apply Forall_cons; split); try apply Forall_nil; try done;
    unfold sextet; byte_bounds; Z.div_mod_to_equations; lia.
Qed.

Lemma decode_encode_sextets bs : decode_sextets (encode_sextets bs) = Some bs.
Proof.
  induction bs as [|a|a b|a b c l IH] using list_ind3.
  - done.
  - simpl. byte_bounds.
    replace ((byteZ a mod 4 * 16) mod 16 =? 0) with true
      by (symmetry; apply Z.eqb_eq; Z.div_mod_to_equations; lia).
    f_equal. f_equal. apply byte_of_Z_small. Z.div_mod_to_equations; lia.
  - simpl. byte_bounds.
    replace ((byteZ b mod 16 * 4) mod 4 =? 0) with true
      by (symmetry; apply Z.eqb_eq; Z.div_mod_to_equations; lia).
    f_equal. f_equal; [|f_equal];
      apply byte_of_Z_small; Z.div_mod_to_equations; lia.
  - change (encode_sextets (a :: b :: c :: l)) with
      (byteZ a / 4 :: byteZ a mod 4 * 16 + byteZ b / 16
       :: byteZ b mod 16 * 4 + byteZ c / 64 :: byteZ c mod 64
       :: encode_sextets l).
    change (decode_sextets (?s1 :: ?s2 :: ?s3 :: ?s4 :: ?r)) with
      (bs ← decode_sextets r;
       Some (byte_of_Z (s1 * 4 + s2 / 16)
             :: byte_of_Z (s2 mod 16 * 16 + s3 / 4)
             :: byte_of_Z (s3 mod 4 * 64 + s4) :: bs)).
    rewrite IH. simpl. byte_bounds.
    f_equal. f_equal; [|f_equal; [|f_equal]];
      apply byte_of_Z_small; Z.div_mod_to_equations; lia.
Qed.

Lemma encode_decode_sextets l bs :
  Forall sextet l → decode_sextets l = Some bs → encode_sextets bs = l.
Proof.
  revert bs.
  induction l as [|s1|s1 s2|s1 s2 s3|s1 s2 s3 s4 l IH] using list_ind4;
    intros bs Hl.
  - by intros [= <-].
  - done.
  - apply Forall_cons in Hl as [H1 [H2 _]%Forall_cons]. simpl.
    destruct (s2 mod 16 =? 0) eqn:E; [|done]. intros [= <-].
    apply Z.eqb_eq in E. unfold sextet in *. simpl.
    rewrite byteZ_byte_of_Z.
    f_equal; [|f_equal]; Z.div_mod_to_equations; lia.
  - apply Forall_cons in Hl as [H1 [H2 [H3 _]%Forall_cons]%Forall_cons].
    simpl. destruct (s3 mod 4 =? 0) eqn:E; [|done]. intros [= <-].
    apply Z.eqb_eq in E. unfold sextet in *. simpl.
    rewrite !byteZ_byte_of_Z.
    f_equal; [|f_equal; [|f_equal]]; Z.div_mod_to_equations; lia.
  - apply Forall_cons in Hl as
        [H1 [H2 [H3 [H4 Hl]%Forall_cons]%Forall_cons]%Forall_cons].
    change (decode_sextets (s1 :: s2 :: s3 :: s4 :: l)) with
      (bs ← decode_sextets l;
       Some (byte_of_Z (s1 * 4 + s2 / 16)
             :: byte_of_Z (s2 mod 16 * 16 + s3 / 4)
             :: byte_of_Z (s3 mod 4 * 64 + s4) :: bs)).
    destruct (decode_sextets l) as [bs'|]; simpl; [|done].
    intros [= <-].
    change (encode_sextets (?a :: ?b :: ?c :: ?r)) with
      (byteZ a / 4 :: byteZ a mod 4 * 16 + byteZ b / 16
       :: byteZ b mod 16 * 4 + byteZ c / 64 :: byteZ c mod 64
       :: encode_sextets r).
    rewrite (IH bs' Hl eq_refl), !byteZ_byte_of_Z. unfold sextet in *.
    f_equal; [|f_equal; [|f_equal; [|f_equal]]];
      Z.div_mod_to_equations; lia.
Qed.

Lemma mapM_sextet_of_char l :
  Forall sextet l → mapM sextet_of_char (map char_of_sextet l) = Some l.
Proof.
  intros Hl. apply mapM_Some. apply Forall2_fmap_l.
  apply Forall_Forall2_diag. eapply Forall_impl; [done|].
  apply sextet_of_char_of_sextet.
Qed.

Lemma mapM_sextet_of_char_inv body l :
  mapM sextet_of_char body = Some l →
  Forall sextet l ∧ body = map char_of_sextet l.
Proof.
  intros H%mapM_Some. induction H as [|c v body l Hc _ [IH1 IH2]];
    [done|].
  apply sextet_of_char_Some in Hc as [Hv <-]. split; [by constructor|].
  simpl. by f_equal.
Qed.

Lemma encode_chars_not_pad bs :
  Forall (λ c, is_pad c = false) (encode_chars bs).
Proof.
  unfold encode_chars. apply Forall_fmap, Forall_true. intros v.
  apply char_of_sextet_not_pad.
Qed.

Lemma decode_chars_padded bs n :
  padding_ok (length (encode_chars bs)) n = true →
  decode (string_of_list_ascii (encode_chars bs ++ repeat pad_char n))
  = Ok bs.
Proof.
  intros Hpad. unfold decode.
  rewrite list_ascii_of_string_of_list_ascii.
  rewrite strip_padding_app by apply encode_chars_not_pad.
  unfold encode_chars at 1.
  rewrite mapM_sextet_of_char by apply encode_sextets_range.
  by rewrite Hpad, decode_encode_sextets.
Qed.

Lemma decode_encode bs : decode (encode bs) = Ok bs.
Proof.
  apply decode_chars_padded. unfold padding_ok.
  by rewrite Nat.eqb_refl, orb_true_r.
Qed.

Lemma decode_encode_unpadded bs : decode (encode_unpadded bs) = Ok bs.
Proof.
  unfold encode_unpadded.
  rewrite <- (app_nil_r (encode_chars bs)).
  by apply (decode_chars_padded bs 0).
Qed.

Lemma decode_Ok_valid s bs : decode s = Ok bs → valid s.
Proof.
  unfold decode.
  destruct (strip_padding (list_ascii_of_string s)) as [body n] eqn:Hs.
  destruct (mapM sextet_of_char body) as [l|] eqn:Hm; [|done].
  destruct (padding_ok (length body) n) eqn:Hp; [|done].
  destruct (decode_sextets l) as [bs'|] eqn:Hd; [|done].
  intros [= ->].
  apply mapM_sextet_of_char_inv in Hm as [Hl ->].
  apply encode_decode_sextets in Hd; [|done]. subst l.
  apply strip_padding_inv in Hs.
  apply (f_equal string_of_list_ascii) in Hs.
  rewrite string_of_list_ascii_of_string in Hs.
  exists bs. unfold padding_ok in Hp.
  apply orb_true_iff in Hp as [Hp%Nat.eqb_eq | Hp%Nat.eqb_eq]; subst n.
  - right. unfold encode_unpadded, encode_chars.
    by rewrite Hs, app_nil_r.
  - left. by rewrite Hs.
Qed.

Lemma decode_error s e : decode s = Err e → e = MalformedInputError.
Proof.
  unfold decode.
  destruct (strip_padding (list_ascii_of_string s)) as [body n].
  destruct (mapM sextet_of_char body); [|by intros [= <-]].
  destruct (padding_ok (length body) n); [|by intros [= <-]].
  destruct (decode_sextets l); [done | by intros [= <-]].
Qed.

Lemma canonical_encode bs : canonical (encode bs) = encode bs.
Proof.
  unfold canonical, encode at 1.
  rewrite list_ascii_of_string_of_list_ascii. unfold with_padding at 2.
  by rewrite strip_padding_app by apply encode_chars_not_pad.
Qed.

Lemma canonical_encode_unpadded bs :
  canonical (encode_unpadded bs) = encode bs.
Proof.
  unfold canonical, encode_unpadded.
  rewrite list_ascii_of_string_of_list_ascii.
  rewrite <- (app_nil_r (encode_chars bs)) at 1.
  by rewrite (strip_padding_app _ 0) by apply encode_chars_not_pad.
Qed.

End Base64Facts.

(** C7. The base64 codec round-trips: decoding an encoded buffer gives the
    buffer back; decoding a valid text and encoding the result gives the text
    back with its padding made canonical; and a text that is not valid is
    refused with MalformedInputError. *)
Theorem base64_round_trip :
  (∀ b, Base64.decode (Base64.encode b) = Ok b)
  ∧ (∀ s, Base64.valid s →
       ∃ b, Base64.decode s = Ok b ∧ Base64.encode b = Base64.canonical s)
  ∧ (∀ s, ¬ Base64.valid s → Base64.decode s = Err MalformedInputError).
Proof.
  split; [apply decode_encode|]. split.
  - intros s [b [-> | ->]]; exists b.
    + by rewrite decode_encode, canonical_encode.
    + by rewrite decode_encode_unpadded, canonical_encode_unpadded.
  - intros s Hs. destruct (Base64.decode s) as [b|e] eqn:E.
    + destruct Hs. by eapply decode_Ok_valid.
    + by rewrite (decode_error _ _ E).
Qed.

Example encode_Man : Base64.encode [x4d; x61; x6e] = "TWFu"%string.
Proof. reflexivity. Qed.

Example encode_Ma : Base64.encode [x4d; x61] = "TWE="%string.
Proof. reflexivity. Qed.

Example decode_unpadded : Base64.decode "TQ" = Ok [x4d].
Proof. reflexivity. Qed.

Example decode_stray_bits : Base64.decode "TR==" = Err MalformedInputError.
Proof. reflexivity. Qed.

Example decode_short_padding : Base64.decode "TQ=" = Err MalformedInputError.
Proof. reflexivity. Qed.

Example decode_foreign_char : Base64.decode "T!==" = Err MalformedInputError.
Proof. reflexivity. Qed.

Example decode_inner_padding : Base64.decode "T=Q=" = Err MalformedInputError.
Proof. reflexivity. Qed.

(** ** PCM decoder *)

Section PcmFacts.

Import Pcm.

Lemma int16_le_range lo hi : int16 (int16_le lo hi).
Proof.
  unfold int16, int16_le.
  pose proof (byteZ_range lo). pose proof (byteZ_range hi).
  destruct (Z.ltb_spec (byteZ lo + 256 * byteZ hi) 32768); lia.
Qed.

Lemma list_ind2 {A} (P : list A → Prop) :
  P [] → (∀ a, P [a]) → (∀ a b l, P l → P (a :: b :: l)) → ∀ l, P l.
Proof.
  intros H0 H1 H2 l.
  assert (P l ∧ ∀ a, P (a :: l)) as [? _]; [|done].
  induction l as [|x l [IH0 IH1]]; [by auto|].
  split; [exact (IH1 x)|]. intros a. by apply H2.
Qed.

Lemma int16_samples_range bs : Forall int16 (int16_samples bs).
Proof.
  induction bs as [|a|a b l IH] using list_ind2; simpl; try done.
  constructor; [apply int16_le_range | done].
Qed.

Lemma int16_samples_length bs :
  length (int16_samples bs) = (length bs / 2)%nat.
Proof.
  induction bs as [|a|a b l IH] using list_ind2; simpl length; try done.
  rewrite IH. change (S (S (length l))) with (1 * 2 + length l)%nat.
  by rewrite Nat.div_add_l.
Qed.

Lemma int16_samples_take k bs :
  int16_samples (take (2 * k) bs) = take k (int16_samples bs).
Proof.
  revert k. induction bs as [|a|a b l IH] using list_ind2; intros k.
  - simpl. by rewrite !take_nil.
  - destruct k as [|k]; [done|].
    replace (2 * S k)%nat with (S (S (2 * k))) by lia. simpl.
    by rewrite ?take_nil.
  - destruct k as [|k]; [done|].
    replace (2 * S k)%nat with (S (S (2 * k))) by lia.
    rewrite !firstn_cons. cbn [int16_samples]. rewrite firstn_cons.
    by rewrite IH.
Qed.

Lemma nth_int16 i bs : int16 (nth i (int16_samples bs) 0).
Proof.
  destruct (nth_in_or_default i (int16_samples bs) 0) as [Hin | ->];
    [|unfold int16; lia].
  pose proof (int16_samples_range bs) as Hall.
  rewrite Forall_forall in Hall. apply Hall. by apply list_elem_of_In.
Qed.

Lemma normalize_in_range v : int16 v → in_range (normalize v).
Proof.
  unfold int16, in_range, normalize, Qle, Qlt. simpl. lia.
Qed.

Lemma map_nth_seq {A B} (f : A → B) (l : list A) (d : A) :
  map (λ i, f (nth i l d)) (seq 0 (length l)) = map f l.
Proof.
  induction l as [|x l IH]; [done|]. simpl. f_equal.
  rewrite <- seq_shift, map_map. apply IH.
Qed.

Lemma channel_mono ints :
  channel ints 1 (length ints / 1) 0 = map normalize ints.
Proof.
  unfold channel. rewrite Nat.div_1_r.
  rewrite <- (map_nth_seq normalize ints 0).
  apply map_ext. intros i. do 2 f_equal. lia.
Qed.

Lemma channel_length ints n frames c : length (channel ints n frames c) = frames.
Proof. unfold channel. by rewrite length_map, length_seq. Qed.

Lemma channel_in_range bs n frames c :
  Forall in_range (channel (int16_samples bs) n frames c).
Proof.
  unfold channel. apply Forall_fmap, Forall_true. intros i. simpl.
  apply normalize_in_range, nth_int16.
Qed.

(** A channel only reads the complete frames. *)
Lemma channel_take ints n frames c :
  (c < n)%nat → (n * frames ≤ length ints)%nat →
  channel (take (n * frames) ints) n frames c = channel ints n frames c.
Proof.
  intros Hc Hlen. unfold channel. apply map_ext_in. intros i Hi.
  apply in_seq in Hi. f_equal.
  assert (i * n + c < n * frames)%nat as Hlt by nia.
  rewrite <- (firstn_skipn (n * frames) ints) at 2.
  rewrite app_nth1; [done|]. rewrite length_take. lia.
Qed.

Lemma decodePcm_Ok bytes sr ch :
  0 < sr → 0 < ch →
  decodePcm bytes sr ch =
  Ok {| sampleRate := sr; numberOfChannels := ch;
        channelData :=
          map (channel (int16_samples bytes) (Z.to_nat ch)
                       (length (int16_samples bytes) / Z.to_nat ch))
              (seq 0 (Z.to_nat ch)) |}.
Proof.
  intros Hsr Hch. unfold decodePcm.
  by rewrite (proj2 (Z.leb_gt sr 0)), (proj2 (Z.leb_gt ch 0)) by lia.
Qed.

End PcmFacts.

(** C6. Decoded as mono, a buffer of [L] bytes gives exactly [L / 2] samples,
    each one a little-endian signed 16-bit integer divided by 32768 and so in
    [-1, 1). For any positive channel count no error is raised, each channel
    holds [L / (2 * channelCount)] samples in that range, and the bytes after
    the last complete frame do not count: decoding the buffer cut at the last
    complete frame gives the same result. *)
Theorem decodePcm_samples (bytes : RawByteBuffer) (sampleRate : Z) :
  0 < sampleRate →
  (∃ samples,
     Pcm.decodePcm bytes sampleRate 1
     = Ok {| Pcm.sampleRate := sampleRate; Pcm.numberOfChannels := 1;
             Pcm.channelData := [samples] |}
     ∧ samples = map Pcm.normalize (Pcm.int16_samples bytes)
     ∧ length samples = (length bytes / 2)%nat
     ∧ Forall Pcm.in_range samples)
  ∧ (∀ channelCount, 0 < channelCount →
       let n := Z.to_nat channelCount in
       let frames := (length bytes / (2 * n))%nat in
       ∃ buf,
         Pcm.decodePcm bytes sampleRate channelCount = Ok buf
         ∧ Pcm.sampleRate buf = sampleRate
         ∧ Pcm.numberOfChannels buf = channelCount
         ∧ length (Pcm.channelData buf) = n
         ∧ Forall (λ samples, length samples = frames
                              ∧ Forall Pcm.in_range samples)
                  (Pcm.channelData buf)
         ∧ Pcm.decodePcm (take (2 * (n * frames)) bytes) sampleRate channelCount
           = Ok buf).
Proof.
  intros Hsr. split.
  - eexists. rewrite decodePcm_Ok by lia.
    change (Z.to_nat 1) with 1%nat. simpl map. rewrite channel_mono.
    split; [done|]. split; [done|].
    rewrite length_map, int16_samples_length. split; [done|].
    apply Forall_fmap. eapply Forall_impl; [apply int16_samples_range|].
    apply normalize_in_range.
  - intros ch Hch n frames. eexists. rewrite decodePcm_Ok by lia.
    assert (n ≠ 0)%nat as Hn by (subst n; lia).
    assert (length (Pcm.int16_samples bytes) / n = frames)%nat as Hframes.
    { subst frames. by rewrite int16_samples_length, Nat.Div0.div_div. }
    fold n. rewrite Hframes. split; [done|].
    cbn [Pcm.sampleRate Pcm.numberOfChannels Pcm.channelData].
    split; [done|]. split; [done|].
    split; [by rewrite length_map, length_seq|]. split.
    + apply Forall_fmap, Forall_true. intros c. simpl.
      split; [apply channel_length | apply channel_in_range].
    + rewrite decodePcm_Ok by lia. fold n.
      assert (n * frames ≤ length (Pcm.int16_samples bytes))%nat as Hle.
      { rewrite <- Hframes. apply Nat.Div0.mul_div_le. }
      rewrite int16_samples_take, length_take, Nat.min_l by done.
      rewrite (Nat.mul_comm n frames), Nat.div_mul by done.
      rewrite (Nat.mul_comm frames n).
      do 2 f_equal. apply map_ext_in. intros c Hc. apply in_seq in Hc.
      apply channel_take; [lia | done].
Qed.

(** Its use on a five-byte buffer: two samples, the odd byte dropped. *)
Lemma decodePcm_samples_witness :
  0 < 24000
  ∧ ∃ samples,
      Pcm.decodePcm [x00; x80; xff; x7f; x01] 24000 1
      = Ok {| Pcm.sampleRate := 24000; Pcm.numberOfChannels := 1;
              Pcm.channelData := [samples] |}
      ∧ samples = map Pcm.normalize
                      (Pcm.int16_samples [x00; x80; xff; x7f; x01])
      ∧ length samples = (length [x00; x80; xff; x7f; x01] / 2)%nat
      ∧ Forall Pcm.in_range samples.
Proof.
  split; [lia|].
  exact (proj1 (decodePcm_samples [x00; x80; xff; x7f; x01] 24000
                  ltac:(lia))).
Defined.

(** The scenario of the spec: [0x00, 0x80, 0xFF, 0x7F] at 24000 Hz, mono. *)
Example decodePcm_scenario :
  Pcm.decodePcm [x00; x80; xff; x7f] 24000 1
  = Ok {| Pcm.sampleRate := 24000; Pcm.numberOfChannels := 1;
          Pcm.channelData := [[(-32768 # 32768)%Q; (32767 # 32768)%Q]] |}.
Proof. reflexivity. Qed.

(** ** WAV encoder *)

Section WavFacts.

Import Wav.

Lemma header_length ch sr n : length (header ch sr n) = 44%nat.
Proof. reflexivity. Qed.

Lemma u16_le16 v : byteZ (byte_of_Z v) + 256 * byteZ (byte_of_Z (v / 256))
                   = v mod 65536.
Proof. rewrite !byteZ_byte_of_Z. Z.div_mod_to_equations; lia. Qed.

Lemma u32_le32 v :
  byteZ (byte_of_Z v) + 256 * byteZ (byte_of_Z (v / 256))
  + 65536 * (byteZ (byte_of_Z (v / 65536))
             + 256 * byteZ (byte_of_Z (v / 16777216)))
  = v mod 4294967296.
Proof. rewrite !byteZ_byte_of_Z. Z.div_mod_to_equations; lia. Qed.

Lemma pcm_bytes_length round samples :
  length (pcm_bytes round samples) = (2 * length samples)%nat.
Proof.
  induction samples as [|x l IH]; [done|].
  unfold pcm_bytes in *. simpl. rewrite IH. lia.
Qed.

Lemma encodeWav_length ch sr data :
  length (encodeWav ch sr data) = (44 + length data)%nat.
Proof. unfold encodeWav. by rewrite length_app, header_length. Qed.

End WavFacts.

(** C5. The file the WAV encoder builds is 44 bytes longer than its data; it
    starts with "RIFF", has "WAVE" at bytes 8-11, and its fmt sub-chunk
    carries audio format 1 and 16 bits per sample, the byte rate
    sampleRate * channelCount * 2 and the block align channelCount * 2
    (whenever these fit their 32-bit and 16-bit fields); the data follows
    the header unchanged. For a float sample buffer the data are two bytes
    per sample, whatever the rounding. The encoder is a function of its
    arguments alone. *)
Theorem encodeWav_layout (channelCount sampleRate : Z) (data : RawByteBuffer) :
  let file := Wav.encodeWav channelCount sampleRate data in
  length file = (44 + length data)%nat
  ∧ Wav.slice 0 4 file = Wav.tag "RIFF"
  ∧ Wav.slice 8 4 file = Wav.tag "WAVE"
  ∧ Wav.slice 12 4 file = Wav.tag "fmt "
  ∧ Wav.u16_at 20 file = 1
  ∧ Wav.u16_at 34 file = 16
  ∧ (0 ≤ sampleRate * channelCount * 2 < 2 ^ 32 →
     Wav.u32_at 28 file = sampleRate * channelCount * 2)
  ∧ (0 ≤ channelCount * 2 < 2 ^ 16 →
     Wav.u16_at 32 file = channelCount * 2)
  ∧ drop 44 file = data
  ∧ Wav.createWavBlob data sampleRate = Wav.encodeWav 1 sampleRate data
  ∧ ∀ round buf,
      length (Wav.encodeWavSamples round buf)
      = (44 + 2 * length (Wav.interleave (Pcm.channelData buf)))%nat.
Proof.
  intros file. subst file.
  split; [apply encodeWav_length|].
  repeat (split; [reflexivity|]).
  split.
  { intros Hfit. unfold Wav.encodeWav, Wav.header, Wav.u32_at, Wav.u16_at,
      Wav.u8_at. cbn [app nth Nat.add Wav.tag Wav.le32 Wav.le16 map
                      list_ascii_of_string].
    rewrite u32_le32. change 4294967296 with (2 ^ 32).
    apply Z.mod_small. lia. }
  split.
  { intros Hfit. unfold Wav.encodeWav, Wav.header, Wav.u32_at, Wav.u16_at,
      Wav.u8_at. cbn [app nth Nat.add Wav.tag Wav.le32 Wav.le16 map
                      list_ascii_of_string].
    rewrite u16_le16. change 65536 with (2 ^ 16).
    apply Z.mod_small. lia. }
  split; [reflexivity|]. split; [reflexivity|].
  intros round buf. unfold Wav.encodeWavSamples.
  by rewrite encodeWav_length, pcm_bytes_length.
Qed.

(** Its use on the export of a two-sample payload at 24000 Hz, mono. *)
Lemma encodeWav_layout_witness :
  length (Wav.encodeWav 1 24000 [x00; x80; xff; x7f]) = 48%nat
  ∧ Wav.u32_at 28 (Wav.encodeWav 1 24000 [x00; x80; xff; x7f]) = 48000
  ∧ Wav.u16_at 32 (Wav.encodeWav 1 24000 [x00; x80; xff; x7f]) = 2.
Proof.
  destruct (encodeWav_layout 1 24000 [x00; x80; xff; x7f])
    as (Hlen & _ & _ & _ & _ & _ & Hrate & Halign & _).
  split; [exact Hlen|].
  split; [apply Hrate; lia | apply Halign; lia].
Defined.

(** The scenario of the spec: two samples, mono, at 24000 Hz give a 48-byte
    file whose data chunk size field is 4. *)
Example encodeWav_scenario (round : Q → Z) :
  let file := Wav.encodeWavSamples round
                {| Pcm.sampleRate := 24000; Pcm.numberOfChannels := 1;
                   Pcm.channelData := [[0%Q; (1 # 2)%Q]] |} in
  length file = 48%nat ∧ Wav.u32_at 40 file = 4.
Proof. split; reflexivity. Qed.

(** ** Handlers *)

Lemma bind_Done {St A B} (m : M St A) (k : A → M St B) s a s' :
  m s = (Done a, s') → bind m k s = k a s'.
Proof. unfold bind. by intros ->. Qed.

Lemma bind_Threw {St A B} (m : M St A) (k : A → M St B) s e s' :
  m s = (Threw e, s') → bind m k s = (Threw e, s').
Proof. unfold bind. by intros ->. Qed.

Lemma bind_ret {St A B} (a : A) (k : A → M St B) s : bind (ret a) k s = k a s.
Proof. reflexivity. Qed.

Lemma bind_gets {St A B} (f : St → A) (k : A → M St B) s :
  bind (gets f) k s = k (f s) s.
Proof. reflexivity. Qed.

Lemma bind_modify {St B} (f : St → St) (k : unit → M St B) s :
  bind (modify f) k s = k tt (f s).
Proof. reflexivity. Qed.

Lemma bind_throw {St A B} (e : Error) (k : A → M St B) s :
  bind (throw e) k s = (Threw e, s).
Proof. reflexivity. Qed.

Lemma bind_bind {St A B C} (m : M St A) (f : A → M St B) (g : B → M St C) s :
  bind (bind m f) g s = bind m (λ a, bind (f a) g) s.
Proof. unfold bind. by destruct (m s) as [[a|e] s']. Qed.

Lemma bind_zoom {St T A B} (get : St → T) (set : T → St → St) (m : M T A)
  (k : A → M St B) s :
  bind (zoom get set m) k s =
  match (m (get s)).1 with
  | Done a => k a (set (m (get s)).2 s)
  | Threw e => (Threw e, set (m (get s)).2 s)
  end.
Proof. unfold bind, zoom. by destruct (m (get s)) as [[a|e] t]. Qed.

Lemma zoom_eq {St T A} (get : St → T) (set : T → St → St) (m : M T A) s :
  zoom get set m s = ((m (get s)).1, set (m (get s)).2 s).
Proof. unfold zoom. by destruct (m (get s)). Qed.

Lemma preserves_ret {St A} (I : St → Prop) (a : A) : preserves I (ret a).
Proof. by intros s. Qed.

Lemma preserves_throw {St A} (I : St → Prop) (e : Error) :
  preserves I (@throw St A e).
Proof. by intros s. Qed.

Lemma preserves_gets {St A} (I : St → Prop) (f : St → A) : preserves I (gets f).
Proof. by intros s. Qed.

Lemma preserves_lift {St A} (I : St → Prop) (r : Result A) :
  preserves I (@lift St A r).
Proof. destruct r; by intros s. Qed.

Lemma preserves_modify {St} (I : St → Prop) (f : St → St) :
  (∀ s, I s → I (f s)) → preserves I (modify f).
Proof. intros Hf s. apply Hf. Qed.

Lemma preserves_bind {St A B} (I : St → Prop) (m : M St A) (k : A → M St B) :
  preserves I m → (∀ a, preserves I (k a)) → preserves I (bind m k).
Proof.
  intros Hm Hk s Hs. specialize (Hm s Hs). unfold exec, bind in *.
  destruct (m s) as [[a|e] s']; [by apply Hk | done].
Qed.

Lemma preserves_try_catch {St} (I : St → Prop) (m : M St unit) :
  preserves I m → preserves I (try_catch m).
Proof. intros Hm s. apply Hm. Qed.

Lemma preserves_detach {St} (I : St → Prop) (m : M St unit) :
  preserves I m → preserves I (detach m).
Proof. intros Hm s. apply Hm. Qed.

Lemma preserves_zoom {St T A} (I : St → Prop) (J : T → Prop)
  (get : St → T) (set : T → St → St) (m : M T A) :
  preserves J m → (∀ s, I s → J (get s)) →
  (∀ s t, I s → J t → I (set t s)) →
  preserves I (zoom get set m).
Proof.
  intros Hm Hget Hset s Hs. unfold exec. rewrite zoom_eq. cbn [snd].
  apply Hset; [done|]. apply Hm. by apply Hget.
Qed.

(** ** Lists updated in place *)

Lemma alter_agree {A} (f g : A → A) (i : nat) (l : list A) :
  (∀ x, l !! i = Some x → f x = g x) → alter f i l = alter g i l.
Proof.
  intros Hfg. apply list_eq. intros j. destruct (decide (i = j)) as [->|Hj].
  - rewrite !list_lookup_alter_eq. destruct (l !! j) as [x|] eqn:Hx; [|done].
    simpl. f_equal. by apply Hfg.
  - by rewrite !list_lookup_alter_ne.
Qed.

Lemma alter_fixed {A} (f : A → A) (i : nat) (l : list A) :
  (∀ x, l !! i = Some x → f x = x) → alter f i l = l.
Proof.
  intros Hf. apply list_eq. intros j. destruct (decide (i = j)) as [->|Hj].
  - rewrite list_lookup_alter_eq. destruct (l !! j) as [x|] eqn:Hx; [|done].
    simpl. f_equal. by apply Hf.
  - by rewrite list_lookup_alter_ne.
Qed.

Lemma alter_last {A} (f : A → A) (l : list A) (x : A) :
  alter f (length l) (l ++ [x]) = l ++ [f x].
Proof.
  rewrite <- (Nat.add_0_r (length l)). by rewrite alter_app_r.
Qed.

(** ** The platform *)

Section WebAudioFacts.

Import WebAudio.

Lemma contextState_eq c a : contextState c a = (Done (stateOf c a), a).
Proof. reflexivity. Qed.

Lemma stateOf_suspended c a :
  stateOf c a = suspended →
  ∃ ctx, contexts a !! c = Some ctx ∧ state ctx = suspended.
Proof.
  unfold stateOf. destruct (contexts a !! c) as [ctx|]; [|done].
  intros H. by exists ctx.
Qed.

Lemma transition_open st c a ctx :
  contexts a !! c = Some ctx → state ctx ≠ closed →
  transition st c a = (Done tt, set_contexts (alter (with_state st) c) a).
Proof.
  intros Hc Hopen. unfold transition. rewrite Hc.
  by destruct (state ctx).
Qed.

Lemma resume_suspended c a :
  stateOf c a = suspended →
  resume c a = (Done tt, set_contexts (alter (with_state running) c) a).
Proof.
  intros (ctx & Hc & Hs)%stateOf_suspended.
  eapply transition_open; [done|]. by rewrite Hs.
Qed.

Lemma transition_sources st c a :
  sources (exec (transition st c) a) = sources a.
Proof.
  unfold exec, transition. destruct (contexts a !! c) as [ctx|]; [|done].
  by destruct (state ctx).
Qed.

Lemma transition_allowed st c a :
  allowedToStart (exec (transition st c) a) = allowedToStart a.
Proof.
  unfold exec, transition. destruct (contexts a !! c) as [ctx|]; [|done].
  by destruct (state ctx).
Qed.

Lemma transition_contexts st c a :
  contexts (exec (transition st c) a) = alter (moved st) c (contexts a).
Proof.
  unfold exec, transition.
  destruct (contexts a !! c) as [ctx|] eqn:Hc.
  - destruct (state ctx) eqn:Hs; simpl.
    + apply alter_agree. intros x Hx. unfold moved.
      assert (x = ctx) as -> by congruence. by rewrite Hs.
    + apply alter_agree. intros x Hx. unfold moved.
      assert (x = ctx) as -> by congruence. by rewrite Hs.
    + symmetry. apply alter_fixed. intros x Hx. unfold moved.
      assert (x = ctx) as -> by congruence. by rewrite Hs.
  - simpl. symmetry. apply alter_fixed. congruence.
Qed.

Lemma update_eq f i a : update f i a = (Done tt, set_sources (alter f i) a).
Proof. reflexivity. Qed.

Lemma start_unscheduled i a n :
  sources a !! i = Some n → playback n = unscheduled →
  start i a = (Done tt, set_sources (alter (with_playback started) i) a).
Proof. intros Hn Hp. unfold start. by rewrite Hn; simpl; rewrite Hp. Qed.

Lemma lookup_last {A} (l : list A) (x : A) : (l ++ [x]) !! length l = Some x.
Proof. by apply list_lookup_middle. Qed.

Lemma stop_contexts i a : contexts (exec (stop i) a) = contexts a.
Proof.
  unfold exec, stop. destruct (sources a !! i) as [n|]; [|done]. simpl.
  by destruct (playback n).
Qed.

Lemma stop_allowed i a : allowedToStart (exec (stop i) a) = allowedToStart a.
Proof.
  unfold exec, stop. destruct (sources a !! i) as [n|]; [|done]. simpl.
  by destruct (playback n).
Qed.

Lemma stop_sources i a :
  sources (exec (stop i) a) = alter halted i (sources a).
Proof.
  unfold exec, stop. destruct (sources a !! i) as [n|] eqn:Hn; simpl.
  - destruct (playback n) eqn:Hp; simpl.
    + symmetry. apply alter_fixed. intros x Hx. unfold halted.
      assert (x = n) as -> by congruence. by rewrite Hp.
    + apply alter_agree. intros x Hx. unfold halted.
      assert (x = n) as -> by congruence. by rewrite Hp.
    + apply alter_agree. intros x Hx. unfold halted.
      assert (x = n) as -> by congruence. by rewrite Hp.
  - symmetry. apply alter_fixed. congruence.
Qed.

(** *** What every state of the platform keeps *)

Lemma oneContext_alter ref f c a a' :
  contexts a' = alter f c (contexts a) →
  (∀ ctx, ctxSampleRate (f ctx) = ctxSampleRate ctx) →
  oneContext ref a → oneContext ref a'.
Proof.
  intros Hc Hf. unfold oneContext. rewrite Hc.
  destruct ref as [r|]; [|by intros ->].
  intros [-> (ctx & -> & Hctx)]. split; [done|].
  destruct c as [|c]; simpl.
  - exists (f ctx). split; [done|]. unfold goodContext. by rewrite Hf.
  - by exists ctx.
Qed.

Lemma moved_sampleRate st ctx : ctxSampleRate (moved st ctx) = ctxSampleRate ctx.
Proof. unfold moved. by destruct (state ctx). Qed.

Lemma moved_open st ctx : st ≠ closed → state ctx ≠ closed → state (moved st ctx) ≠ closed.
Proof. unfold moved. by destruct (state ctx). Qed.

Lemma transition_good ref st c : preserves (goodAudio ref) (transition st c).
Proof.
  intros a [H1 H2]. split.
  - eapply oneContext_alter; [apply transition_contexts| |done].
    apply moved_sampleRate.
  - by rewrite transition_sources.
Qed.

Lemma transition_allOpen st c :
  st ≠ closed → preserves allOpen (transition st c).
Proof.
  intros Hst a Ha. unfold allOpen. rewrite transition_contexts.
  apply Forall_alter; [done|]. intros ctx _. by apply moved_open.
Qed.

Lemma close_good ref c : preserves (goodAudio ref) (close c).
Proof.
  intros a [H1 H2]. split; [|done].
  by eapply oneContext_alter; [reflexivity| |done].
Qed.

Lemma halted_good n : goodNode n → goodNode (halted n).
Proof.
  unfold halted. destruct (playback n) eqn:E; [done| |];
    intros (? & ? & ? & ? & ?); by repeat split.
Qed.

Lemma stop_good ref i : preserves (goodAudio ref) (stop i).
Proof.
  intros a [H1 H2]. split.
  - unfold oneContext. by rewrite stop_contexts.
  - rewrite stop_sources. apply Forall_alter; [done|].
    intros n _. apply halted_good.
Qed.

Lemma stop_allOpen i : preserves allOpen (stop i).
Proof. intros a. unfold allOpen. by rewrite stop_contexts. Qed.

Lemma takeEnded_good ref i : preserves (goodAudio ref) (takeEnded i).
Proof.
  intros a [H1 H2]. unfold exec, takeEnded.
  destruct (endedPending i a); [|done]. split; [done|].
  cbn [snd sources set_sources]. apply Forall_alter; [done|].
  intros n _ (? & ? & ? & ? & ?). by repeat split.
Qed.

Lemma takeEnded_contexts i a : contexts (exec (takeEnded i) a) = contexts a.
Proof. unfold exec, takeEnded. by destruct (endedPending i a). Qed.

Lemma newAudioContext_good a :
  contexts a = [] → Forall goodNode (sources a) →
  goodAudio (Some 0%nat) (exec (newAudioContext 24000) a).
Proof.
  intros Hc Hn. split; [|done]. split; [done|].
  cbn. rewrite Hc. by eexists.
Qed.

End WebAudioFacts.

(** ** The component with pause and stop controls *)

Section NarratorFacts.

Import WebAudio Narrator.

Lemma stopAudio_eq s : stopAudio s = (Done tt, afterStop s).
Proof.
  destruct s as [st res err pl pa cref src dl au].
  unfold stopAudio, afterStop, bind, gets, try_catch, detach, setIsPlaying,
    setIsPaused, modify, platform, ret.
  destruct src as [i|], cref as [c|];
    repeat (rewrite ?zoom_eq, ?contextState_eq;
            cbn -[stop resume contextState stateOf]);
    try done.
  - unfold exec.
    destruct (stateOf c (stop i au).2); rewrite ?zoom_eq; reflexivity.
  - unfold exec. destruct (stateOf c au); rewrite ?zoom_eq; reflexivity.
Qed.

Ltac norm :=
  cbv [set_audio set_sources set_contexts set_activeSourceRef
       set_audioContextRef];
  cbn [status result error isPlaying isPaused audioContextRef
       activeSourceRef downloads audio sources contexts allowedToStart
       fst snd].

Ltac launch_tail base64 c :=
  destruct (Base64.decode base64) as [?bytes|?e]; cbn [lift];
    [rewrite bind_ret | by rewrite bind_throw];
  match goal with
  | |- context [decodeAudioData ?bytes c 24000 1] =>
      destruct (decodeAudioData bytes c 24000 1) as [?b|?e]; cbn [lift];
      [rewrite bind_ret | by rewrite bind_throw]
  end;
  rewrite bind_zoom; unfold setBuffer, connect, setOnended;
  cbv [createBufferSource]; norm;
  rewrite ?alter_last;
  do 3 (rewrite bind_zoom, update_eq; norm; rewrite !alter_last);
  rewrite bind_modify, bind_zoom; norm;
  erewrite start_unscheduled; [|apply lookup_last|reflexivity];
  norm; rewrite alter_last;
  reflexivity.

Lemma startNewAudio_eq base64 s :
  startNewAudio base64 s =
  match Base64.decode base64 with
  | Ok bytes =>
      match decodeAudioData bytes
              (contextOf (audioContextRef s) (audio (afterStop s))) 24000 1
      with
      | Ok b => (Done tt, launched b (prepared s))
      | Err e => (Threw e, prepared s)
      end
  | Err e => (Threw e, prepared s)
  end.
Proof.
  unfold startNewAudio. rewrite (bind_Done _ _ _ _ _ (stopAudio_eq s)).
  unfold prepared. destruct s as [st res err pl pa cref src dl au].
  unfold afterStop. norm.
  generalize (resumeRef cref (haltRef src au)). intros [al cs ns].
  rewrite bind_gets. unfold platform. norm.
  destruct cref as [c|]; cbn [contextOf ensured].
  - rewrite bind_ret, bind_zoom, contextState_eq. norm.
    unfold resumeRef, exec.
    destruct (stateOf c _) eqn:E;
      [rewrite bind_ret
      |rewrite bind_zoom; norm; rewrite (resume_suspended _ _ E); norm
      |rewrite bind_ret];
      launch_tail base64 c.
  - rewrite bind_bind, bind_zoom. cbv [newAudioContext]. norm.
    rewrite bind_bind, bind_modify, bind_ret, bind_zoom, contextState_eq.
    norm. unfold resumeRef, exec. norm.
    destruct (stateOf (length cs) _) eqn:E;
      [rewrite bind_ret
      |rewrite bind_zoom; norm; rewrite (resume_suspended _ _ E); norm
      |rewrite bind_ret];
      launch_tail base64 (length cs).
Qed.

Lemma stateOf_resumed c a :
  stateOf c a = suspended → stateOf c (exec (resume c) a) = running.
Proof.
  intros E. unfold exec. rewrite (resume_suspended _ _ E).
  apply stateOf_suspended in E as (ctx & Hc & _).
  unfold stateOf. cbn [snd contexts set_contexts].
  by rewrite list_lookup_alter_eq, Hc.
Qed.

Lemma resumeRef_not_suspended c a : stateOf c (resumeRef (Some c) a) ≠ suspended.
Proof.
  unfold resumeRef. destruct (stateOf c a) eqn:E; rewrite ?E; try done.
  by rewrite stateOf_resumed.
Qed.

Lemma resumeRef_idem ref a : resumeRef ref (resumeRef ref a) = resumeRef ref a.
Proof.
  destruct ref as [c|]; [|done].
  pose proof (resumeRef_not_suspended c a) as H.
  unfold resumeRef at 1. by destruct (stateOf c (resumeRef (Some c) a)).
Qed.

Lemma afterStop_idem s : afterStop (afterStop s) = afterStop s.
Proof.
  unfold afterStop. cbn [status result error isPlaying isPaused
    audioContextRef activeSourceRef downloads audio haltRef].
  by rewrite resumeRef_idem.
Qed.

(** *** Nodes and contexts after [stopAudio] and [startNewAudio] *)

Lemma resumeRef_sources ref a : sources (resumeRef ref a) = sources a.
Proof.
  destruct ref as [c|]; [|done]. unfold resumeRef.
  destruct (stateOf c a); try done. apply transition_sources.
Qed.

Lemma haltRef_sources src a :
  sources (haltRef src a) = from_option (alter halted) id src (sources a).
Proof. destruct src as [i|]; [apply stop_sources | done]. Qed.

Lemma haltRef_contexts src a : contexts (haltRef src a) = contexts a.
Proof. destruct src as [i|]; [apply stop_contexts | done]. Qed.

Lemma stateOf_haltRef src c a : stateOf c (haltRef src a) = stateOf c a.
Proof. unfold stateOf. by rewrite haltRef_contexts. Qed.


Lemma afterStop_sources s :
  sources (audio (afterStop s))
  = from_option (alter halted) id (activeSourceRef s) (sources (audio s)).
Proof.
  unfold afterStop. cbn [audio].
  by rewrite resumeRef_sources, haltRef_sources.
Qed.

Lemma prepared_sources s :
  sources (audio (prepared s)) = sources (audio (afterStop s)).
Proof.
  unfold prepared. cbn [audio]. rewrite resumeRef_sources.
  by destruct (audioContextRef s).
Qed.

Lemma launched_sources b s :
  sources (audio (launched b s))
  = sources (audio s) ++ [freshNode (default 0%nat (audioContextRef s)) b].
Proof. reflexivity. Qed.

Lemma started_halted (l : list SourceNode) (i j : nat) :
  playback <$> alter halted i l !! j = Some started
  ↔ j ≠ i ∧ playback <$> l !! j = Some started.
Proof.
  destruct (decide (i = j)) as [->|Hij].
  - rewrite list_lookup_alter_eq. split; [|intros [Hne _]; done].
    destruct (l !! j) as [n|]; [|done]. simpl. unfold halted.
    by destruct (playback n) eqn:E; simpl; rewrite ?E.
  - rewrite list_lookup_alter_ne by done.
    split; [intros ?; split; congruence | by intros [_ ?]].
Qed.


Lemma pcm_24000_mono bytes c :
  decodeAudioData bytes c 24000 1
  = Ok {| Pcm.sampleRate := 24000; Pcm.numberOfChannels := 1;
          Pcm.channelData :=
            [map Pcm.normalize (Pcm.int16_samples bytes)] |}.
Proof.
  unfold decodeAudioData. rewrite decodePcm_Ok by lia.
  change (Z.to_nat 1) with 1%nat. simpl map. by rewrite channel_mono.
Qed.

Lemma startNewAudio_Ok base64 bytes s :
  Base64.decode base64 = Ok bytes →
  startNewAudio base64 s = (Done tt, launched (pcmBuffer bytes) (prepared s)).
Proof.
  intros H. by rewrite startNewAudio_eq, H, pcm_24000_mono.
Qed.

Lemma startNewAudio_Err base64 e s :
  Base64.decode base64 = Err e →
  startNewAudio base64 s = (Threw e, prepared s).
Proof. intros H. by rewrite startNewAudio_eq, H. Qed.

Lemma launched_started b s j :
  isStarted j (audio (launched b s))
  ↔ isStarted j (audio s) ∨ j = length (sources (audio s)).
Proof.
  unfold isStarted. rewrite launched_sources.
  destruct (decide (j < length (sources (audio s)))%nat) as [Hlt|Hge].
  - rewrite lookup_app_l by done. split; [by left|].
    intros [? | ->]; [done | lia].
  - destruct (decide (j = length (sources (audio s)))) as [->|Hne].
    + rewrite lookup_last. simpl. split; [by right | done].
    + rewrite lookup_app_r by lia.
      rewrite (lookup_ge_None_2 (sources (audio s))) by lia.
      destruct (j - length (sources (audio s)))%nat as [|k] eqn:Hk; [lia|].
      simpl. split; [done | intros [? | ?]; [done | lia]].
Qed.


(** *** Properties kept by every event *)

Section Kept.

Variable I : State → Prop.

Hypothesis I_status : ∀ v s, I s → I (set_status v s).
Hypothesis I_result : ∀ v s, I s → I (set_result v s).
Hypothesis I_error : ∀ v s, I s → I (set_error v s).
Hypothesis I_isPlaying : ∀ v s, I s → I (set_isPlaying v s).
Hypothesis I_isPaused : ∀ v s, I s → I (set_isPaused v s).
Hypothesis I_activeSourceRef : ∀ v s, I s → I (set_activeSourceRef v s).
Hypothesis I_download :
  ∀ bytes s, I s → I (add_download (Wav.createWavBlob bytes 24000) s).
Hypothesis I_stopAudio : preserves I stopAudio.
Hypothesis I_startNewAudio : ∀ d, preserves I (startNewAudio d).
Hypothesis I_transition : ∀ st c,
  st ≠ closed → preserves I (platform (transition st c)).
Hypothesis I_takeEnded : ∀ i, preserves I (platform (takeEnded i)).

Ltac kept :=
  repeat match goal with
    | |- preserves _ (ret _) => apply preserves_ret
    | |- preserves _ (gets _) => apply preserves_gets
    | |- preserves _ (lift _) => apply preserves_lift
    | |- preserves _ (detach _) => apply preserves_detach
    | |- preserves _ (modify _) => apply preserves_modify; auto
    | |- preserves _ stopAudio => apply I_stopAudio
    | |- preserves _ (startNewAudio _) => apply I_startNewAudio
    | |- preserves _ (platform (transition _ _)) =>
        apply I_transition; done
    | |- preserves _ (platform (takeEnded _)) => apply I_takeEnded
    | |- preserves _ (bind _ (λ x, _)) =>
        let x' := fresh x in apply preserves_bind; [|intros x']
    end.

Lemma whenTruthy_kept data k :
  (∀ d, preserves I (k d)) → preserves I (whenTruthy data k).
Proof.
  intros Hk. unfold whenTruthy. destruct data as [d|]; [|kept].
  destruct (truthy (Some d)); [apply Hk | kept].
Qed.

Lemma togglePlayback_kept : preserves I togglePlayback.
Proof.
  unfold togglePlayback. kept. destruct ref as [ctx|]; kept.
  destruct paused; [unfold resume, setIsPaused, setIsPlaying; kept|].
  destruct playing; [unfold suspend, setIsPaused, setIsPlaying; kept|].
  apply whenTruthy_kept. intros d. kept.
Qed.

Lemma downloadAudio_kept : preserves I downloadAudio.
Proof.
  unfold downloadAudio. kept. apply whenTruthy_kept. intros d. kept.
Qed.

Lemma clearResults_kept : preserves I clearResults.
Proof. unfold clearResults, setResult, setError, setStatus. kept. Qed.

Lemma await_kept {A} (r : Reply A) k :
  (∀ a, preserves I (k a)) → preserves I (await r k).
Proof.
  intros Hk. destruct r as [a|msg]; [apply Hk|].
  unfold await, setError, setStatus. kept.
Qed.

Lemma processVideo_kept analyzed spoken :
  preserves I (processVideo analyzed spoken).
Proof.
  unfold processVideo, setStatus. kept.
  apply await_kept. intros a'. kept.
  apply await_kept. intros audioBase64. unfold setResult. kept.
  apply whenTruthy_kept. intros d. kept.
Qed.

Lemma handle_kept e : e ≠ Unmount → preserves I (handle e).
Proof.
  intros He. destruct e as [analyzed spoken|c| | |i|]; simpl.
  - apply processVideo_kept.
  - kept. destruct shown; [|kept].
    destruct c; cbn [onClick];
      [apply togglePlayback_kept | kept | apply downloadAudio_kept].
  - apply clearResults_kept.
  - apply clearResults_kept.
  - kept. destruct run0; [|kept]. unfold onended_handler, setIsPlaying,
      setIsPaused. kept.
  - done.
Qed.

End Kept.

(** *** One context, nodes in the fixed format *)

Lemma platform_Inv {A} (m : M Audio A) :
  (∀ ref, preserves (goodAudio ref) m) → preserves Inv (platform m).
Proof.
  intros Hm s [Ha Hd]. unfold exec, platform. rewrite zoom_eq.
  split; [|done]. by apply Hm.
Qed.

Lemma haltRef_good ref src a : goodAudio ref a → goodAudio ref (haltRef src a).
Proof. destruct src as [i|]; [apply stop_good | done]. Qed.

Lemma resumeRef_good ref ref' a :
  goodAudio ref a → goodAudio ref (resumeRef ref' a).
Proof.
  destruct ref' as [c|]; [|done]. unfold resumeRef.
  destruct (stateOf c a); try done. apply transition_good.
Qed.

Lemma afterStop_Inv s : Inv s → Inv (afterStop s).
Proof.
  intros [Ha Hd]. split; [|done]. cbn [afterStop audioContextRef audio].
  by apply resumeRef_good, haltRef_good.
Qed.

Lemma prepared_Inv s :
  Inv s → Inv (prepared s) ∧ audioContextRef (prepared s) = Some 0%nat.
Proof.
  intros [[Hc Hn] Hd]%afterStop_Inv.
  change (audioContextRef (afterStop s)) with (audioContextRef s) in Hc.
  unfold Inv, prepared. cbn [audioContextRef audio downloads].
  destruct (audioContextRef s) as [c|]; cbn [contextOf ensured].
  - assert (c = 0%nat) as -> by apply Hc.
    split; [|done]. split; [|done]. apply resumeRef_good. by split.
  - hnf in Hc. rewrite Hc. split; [|done]. split; [|done].
    by apply resumeRef_good, newAudioContext_good.
Qed.

Lemma launched_Inv bytes s :
  Inv s → audioContextRef s = Some 0%nat → Inv (launched (pcmBuffer bytes) s).
Proof.
  intros [[Hc Hn] Hd] Href. split; [|done]. split; [done|].
  cbn. apply Forall_app. split; [done|]. apply Forall_singleton.
  rewrite Href. repeat split; try done. by eexists.
Qed.

Lemma startNewAudio_Inv d : preserves Inv (startNewAudio d).
Proof.
  intros s [Hp Href]%prepared_Inv. unfold exec.
  rewrite startNewAudio_eq.
  destruct (Base64.decode d) as [bytes|e]; [|done].
  rewrite pcm_24000_mono. by apply launched_Inv.
Qed.

Lemma createWavBlob_good bytes : goodFile (Wav.createWavBlob bytes 24000).
Proof. split; reflexivity. Qed.

Lemma Unmount_or_not e : e = Unmount ∨ e ≠ Unmount.
Proof. destruct e; (by left) || by right. Qed.

Lemma handle_Inv e : preserves Inv (handle e).
Proof.
  destruct (Unmount_or_not e) as [->|He].
  - unfold handle, unmount. apply preserves_bind; [apply preserves_gets|].
    intros [c|]; [|apply preserves_ret].
    apply platform_Inv. intros ref. apply close_good.
  - apply handle_kept; try done.
    + intros bytes s [Ha Hd]. split; [done|]. cbn.
      apply Forall_app. split; [done|]. apply Forall_singleton.
      apply createWavBlob_good.
    + intros s. unfold exec. rewrite stopAudio_eq. apply afterStop_Inv.
    + apply startNewAudio_Inv.
    + intros st c _. apply platform_Inv. intros ref. apply transition_good.
    + intros i. apply platform_Inv. intros ref. apply takeEnded_good.
Qed.

Lemma run_Inv es s : Inv s → Inv (run es s).
Proof.
  revert s. induction es as [|e es IH]; intros s Hs; [done|].
  apply IH. by apply handle_Inv.
Qed.

Lemma initial_Inv allowed : Inv (initial allowed).
Proof. repeat split; constructor. Qed.

(** *** No context is closed before the component unmounts *)

Lemma platform_Open {A} (m : M Audio A) :
  preserves allOpen m → preserves Open (platform m).
Proof.
  intros Hm s Hs. unfold exec, platform. rewrite zoom_eq. by apply Hm.
Qed.

Lemma resumeRef_allOpen ref a : allOpen a → allOpen (resumeRef ref a).
Proof.
  destruct ref as [c|]; [|done]. unfold resumeRef.
  destruct (stateOf c a); try done. by apply transition_allOpen.
Qed.

Lemma haltRef_allOpen src a : allOpen a → allOpen (haltRef src a).
Proof. destruct src as [i|]; [apply stop_allOpen | done]. Qed.

Lemma afterStop_Open s : Open s → Open (afterStop s).
Proof. intros Hs. by apply resumeRef_allOpen, haltRef_allOpen. Qed.

Lemma prepared_Open s : Open s → Open (prepared s).
Proof.
  intros Hs%afterStop_Open. unfold Open, prepared. cbn [audio].
  apply resumeRef_allOpen. destruct (audioContextRef s); [done|].
  cbn. apply Forall_app. split; [done|]. apply Forall_singleton.
  cbn. by destruct (allowedToStart _).
Qed.

Lemma startNewAudio_Open d : preserves Open (startNewAudio d).
Proof.
  intros s Hs%prepared_Open. unfold exec. rewrite startNewAudio_eq.
  destruct (Base64.decode d) as [bytes|e]; [|done].
  by rewrite pcm_24000_mono.
Qed.

Lemma handle_Open e : e ≠ Unmount → preserves Open (handle e).
Proof.
  intros He. apply handle_kept; try done.
  - intros s. unfold exec. rewrite stopAudio_eq. apply afterStop_Open.
  - apply startNewAudio_Open.
  - intros st c Hst. by apply platform_Open, transition_allOpen.
  - intros i. apply platform_Open. intros a. unfold allOpen.
    by rewrite takeEnded_contexts.
Qed.

Lemma run_Open es s : Unmount ∉ es → Open s → Open (run es s).
Proof.
  revert s. induction es as [|e es IH]; intros s Hes Hs; [done|].
  apply not_elem_of_cons in Hes as [He Hes].
  apply IH; [done|]. by apply handle_Open.
Qed.

(** *** No context before a narration with audio arrives *)

Lemma controls_truthy s :
  controls s = if truthy (resultAudio s)
               then [PlayPauseButton; StopButton; DownloadButton] else [].
Proof. unfold controls, resultAudio. by destruct (result s). Qed.

Lemma afterStop_Silent s : Silent s → Silent (afterStop s).
Proof.
  intros (Href & Hc & Hr). unfold Silent, afterStop.
  cbn [audioContextRef audio]. rewrite Href. cbn [resumeRef].
  by rewrite haltRef_contexts.
Qed.

Lemma step_Silent e s : delivers e = false → Silent s → Silent (step s e).
Proof.
  intros He Hs. unfold step, exec.
  destruct e as [analyzed spoken|c| | |i|]; cbn [handle].
  - destruct analyzed as [a|msg]; [|done].
    destruct spoken as [data|msg]; [|done].
    simpl in He. destruct Hs as (Href & Hc & Hr).
    destruct data as [[|ch d]|]; try done.
  - rewrite bind_gets. unfold rendered.
    rewrite controls_truthy, (proj2 (proj2 Hs)).
    by rewrite bool_decide_eq_false_2 by apply not_elem_of_nil.
  - unfold clearResults. rewrite (bind_Done _ _ _ _ _ (stopAudio_eq s)).
    by apply afterStop_Silent in Hs as (? & ? & ?).
  - unfold resetAll, clearResults.
    rewrite (bind_Done _ _ _ _ _ (stopAudio_eq s)).
    by apply afterStop_Silent in Hs as (? & ? & ?).
  - unfold platform. rewrite bind_zoom.
    destruct Hs as (Href & Hc & Hr).
    assert (contexts (takeEnded i (audio s)).2 = []) as Hc'
      by (rewrite <- Hc; apply takeEnded_contexts).
    destruct (takeEnded i (audio s)) as [[[|]|err] a']; by repeat split.
  - unfold unmount. rewrite bind_gets. by rewrite (proj1 Hs).
Qed.

Lemma run_Silent es s :
  Forall (λ e, delivers e = false) es → Silent s → Silent (run es s).
Proof.
  revert s. induction es as [|e es IH]; intros s Hes Hs; [done|].
  apply Forall_cons in Hes as [He Hes].
  apply IH; [done|]. by apply step_Silent.
Qed.

End NarratorFacts.

(** ** The component of the desktop edition *)

Section DesktopFacts.

Import WebAudio Desktop.

Lemma stop_Threw i a e : (stop i a).1 = Threw e → (stop i a).2 = a.
Proof.
  unfold stop. destruct (playback <$> sources a !! i) as [[]|]; done.
Qed.

Ltac normD :=
  cbv [set_audio set_sources set_contexts set_activeSourceRef
       set_audioContextRef];
  cbn [status result error isPlaying audioContextRef
       activeSourceRef downloads audio sources contexts allowedToStart
       fst snd].

Ltac play_tail base64 c :=
  destruct (decode base64) as [?bytes|?e]; cbn [lift];
    [rewrite bind_ret | by rewrite bind_throw];
  match goal with
  | |- context [decodeAudioData ?bytes c 24000 1] =>
      destruct (decodeAudioData bytes c 24000 1) as [?b|?e]; cbn [lift];
      [rewrite bind_ret | by rewrite bind_throw]
  end;
  rewrite bind_zoom; unfold setBuffer, connect, setOnended;
  cbv [createBufferSource]; normD;
  rewrite ?alter_last;
  do 3 (rewrite bind_zoom, update_eq; normD; rewrite !alter_last);
  rewrite bind_modify, bind_zoom; normD;
  erewrite start_unscheduled; [|apply lookup_last|reflexivity];
  normD; rewrite alter_last;
  reflexivity.

Ltac play_rest base64 cref cs :=
  rewrite bind_gets; normD;
  destruct cref as [?c|]; cbn [contextOf ensured];
  [ rewrite bind_ret;
    match goal with c : nat |- _ => play_tail base64 c end
  | rewrite bind_bind, bind_zoom; cbv [newAudioContext]; normD;
    rewrite bind_bind, bind_modify, bind_ret; unfold exec; normD;
    play_tail base64 (length cs) ].

Lemma playAudio_eq base64 s :
  playAudio base64 s =
  match stopFails (activeSourceRef s) (audio s) with
  | Some e => (Threw e, s)
  | None =>
      match decode base64 with
      | Ok bytes =>
          match decodeAudioData bytes
                  (contextOf (audioContextRef s)
                             (haltRef (activeSourceRef s) (audio s)))
                  24000 1
          with
          | Ok b => (Done tt, played b (readied s))
          | Err e => (Threw e, readied s)
          end
      | Err e => (Threw e, readied s)
      end
  end.
Proof.
  unfold playAudio, readied, stopFails, haltRef, exec.
  destruct s as [st res err pl cref src dl au].
  rewrite bind_gets. unfold platform. normD.
  destruct src as [i|].
  - rewrite bind_zoom. normD.
    pose proof (stop_Threw i au) as Hthrew.
    destruct (stop i au) as [[[]|e] [al cs ns]]; normD;
      [|by rewrite <- (Hthrew e eq_refl)].
    play_rest base64 cref cs.
  - rewrite bind_ret. destruct au as [al cs ns].
    play_rest base64 cref cs.
Qed.

Lemma playAudio_Ok text bytes s :
  stopFails (activeSourceRef s) (audio s) = None →
  Base64.decode text = Ok bytes →
  playAudio (Some text) s = (Done tt, played (pcmBuffer bytes) (readied s)).
Proof.
  intros Hs Hd. rewrite playAudio_eq, Hs. cbn [decode].
  by rewrite Hd, pcm_24000_mono.
Qed.

Lemma validRef_stop s : validRef s → stopFails (activeSourceRef s) (audio s) = None.
Proof.
  intros Hv. unfold stopFails.
  destruct (activeSourceRef s) as [i|] eqn:Hi; [|done].
  destruct (Hv i Hi) as (n & Hn & Hp). unfold stop. rewrite Hn. simpl.
  by destruct (playback n).
Qed.

Lemma readied_sources s :
  sources (audio (readied s))
  = from_option (alter halted) id (activeSourceRef s) (sources (audio s)).
Proof.
  unfold readied. cbn [audio]. rewrite <- haltRef_sources.
  by destruct (audioContextRef s).
Qed.

Lemma readied_silent s : trackedD s → ∀ j, ¬ isStarted j (audio (readied s)).
Proof.
  intros Ht j. unfold isStarted. rewrite readied_sources.
  destruct (activeSourceRef s) as [i|] eqn:Hi; simpl.
  - rewrite started_halted. intros [Hne Hj]. apply Ht in Hj. congruence.
  - intros Hj. apply Ht in Hj. congruence.
Qed.

Lemma played_started b s j :
  isStarted j (audio (played b s))
  ↔ isStarted j (audio s) ∨ j = length (sources (audio s)).
Proof.
  unfold isStarted. change (sources (audio (played b s))) with
    (sources (audio s) ++ [freshNode (default 0%nat (audioContextRef s)) b]).
  destruct (decide (j < length (sources (audio s)))%nat) as [Hlt|Hge].
  - rewrite lookup_app_l by done. split; [by left|].
    intros [? | ->]; [done | lia].
  - destruct (decide (j = length (sources (audio s)))) as [->|Hne].
    + rewrite lookup_last. simpl. split; [by right | done].
    + rewrite lookup_app_r by lia.
      rewrite (lookup_ge_None_2 (sources (audio s))) by lia.
      destruct (j - length (sources (audio s)))%nat as [|k] eqn:Hk; [lia|].
      simpl. split; [done | intros [? | ?]; [done | lia]].
Qed.


(** *** Properties kept by every event *)

Section KeptD.

Variable I : State → Prop.

Hypothesis I_status : ∀ v s, I s → I (set_status v s).
Hypothesis I_result : ∀ v s, I s → I (set_result v s).
Hypothesis I_error : ∀ v s, I s → I (set_error v s).
Hypothesis I_isPlaying : ∀ v s, I s → I (set_isPlaying v s).
Hypothesis I_download :
  ∀ bytes s, I s → I (add_download (Wav.createWavBlob bytes 24000) s).
Hypothesis I_playAudio : ∀ d, preserves I (playAudio d).
Hypothesis I_takeEnded : ∀ i, preserves I (platform (takeEnded i)).

Ltac keptD :=
  repeat match goal with
    | |- preserves _ (ret _) => apply preserves_ret
    | |- preserves _ (gets _) => apply preserves_gets
    | |- preserves _ (lift _) => apply preserves_lift
    | |- preserves _ (detach _) => apply preserves_detach
    | |- preserves _ (modify _) => apply preserves_modify; auto
    | |- preserves _ (playAudio _) => apply I_playAudio
    | |- preserves _ (platform (takeEnded _)) => apply I_takeEnded
    | |- preserves _ (bind _ (λ x, _)) =>
        let x' := fresh x in apply preserves_bind; [|intros x']
    end.

Lemma awaitD_kept {A} (r : Reply A) k :
  (∀ a, preserves I (k a)) → preserves I (await r k).
Proof.
  intros Hk. destruct r as [a|msg]; [apply Hk|].
  unfold await, setError, setStatus. keptD.
Qed.

Lemma processVideoD_kept analyzed spoken :
  preserves I (processVideo analyzed spoken).
Proof.
  unfold processVideo, setStatus. keptD.
  apply awaitD_kept. intros a'. keptD.
  apply awaitD_kept. intros audioBase64. unfold setResult. keptD.
  destruct (truthy audioBase64); keptD.
Qed.

Lemma handleD_kept e : preserves I (handle e).
Proof.
  destruct e as [analyzed spoken|c| |i]; simpl.
  - apply processVideoD_kept.
  - keptD. destruct shown; [|keptD].
    destruct c; cbn [onClick]; unfold download; keptD.
  - unfold handleFileUpload, setResult, setStatus. keptD.
  - keptD. destruct run0; [|keptD]. unfold onended_handler, setIsPlaying.
    keptD.
Qed.

Lemma runD_kept es s : I s → I (run es s).
Proof.
  revert s. induction es as [|e es IH]; intros s Hs; [done|].
  apply IH. by apply handleD_kept.
Qed.

End KeptD.

(** *** One context, nodes in the fixed format *)

Lemma platform_InvD {A} (m : M Audio A) :
  (∀ ref, preserves (goodAudio ref) m) → preserves InvD (platform m).
Proof.
  intros Hm s [Ha Hd]. unfold exec, platform. rewrite zoom_eq.
  split; [|done]. by apply Hm.
Qed.

Lemma readied_InvD s :
  InvD s → InvD (readied s) ∧ audioContextRef (readied s) = Some 0%nat.
Proof.
  intros [[Hc Hn]%(haltRef_good _ (activeSourceRef s)) Hd].
  unfold InvD, readied. cbn [audioContextRef audio downloads].
  destruct (audioContextRef s) as [c|]; cbn [contextOf ensured].
  - assert (c = 0%nat) as -> by apply Hc.
    split; [|done]. split; [|done]. by split.
  - hnf in Hc. rewrite Hc. split; [|done]. split; [|done].
    by apply newAudioContext_good.
Qed.

Lemma played_InvD bytes s :
  InvD s → audioContextRef s = Some 0%nat → InvD (played (pcmBuffer bytes) s).
Proof.
  intros [[Hc Hn] Hd] Href. split; [|done]. split; [done|].
  cbn. apply Forall_app. split; [done|]. apply Forall_singleton.
  rewrite Href. repeat split; try done. by eexists.
Qed.

Lemma playAudio_InvD d : preserves InvD (playAudio d).
Proof.
  intros s Hs. unfold exec. rewrite playAudio_eq.
  destruct (stopFails _ _); [done|].
  apply readied_InvD in Hs as [Hs Href].
  destruct (decode d) as [bytes|e]; [|done].
  rewrite pcm_24000_mono. by apply played_InvD.
Qed.

Lemma run_InvD es s : InvD s → InvD (run es s).
Proof.
  apply runD_kept; try done.
  - intros bytes s' [Ha Hd]. split; [done|]. cbn.
    apply Forall_app. split; [done|]. apply Forall_singleton.
    apply createWavBlob_good.
  - apply playAudio_InvD.
  - intros i. apply platform_InvD. intros ref. apply takeEnded_good.
Qed.

Lemma initial_InvD allowed : InvD (initial allowed).
Proof. repeat split; constructor. Qed.

(** *** No context is ever closed *)

Lemma playAudio_OpenD d : preserves OpenD (playAudio d).
Proof.
  intros s Hs. unfold exec. rewrite playAudio_eq.
  destruct (stopFails _ _); [done|].
  assert (OpenD (readied s)) as Hr.
  { unfold OpenD, readied. cbn [audio].
    apply (haltRef_allOpen (activeSourceRef s)) in Hs.
    destruct (audioContextRef s); [done|].
    cbn. apply Forall_app. split; [done|]. apply Forall_singleton.
    cbn. by destruct (allowedToStart _). }
  destruct (decode d) as [bytes|e]; [|done].
  by rewrite pcm_24000_mono.
Qed.

Lemma run_OpenD es s : OpenD s → OpenD (run es s).
Proof.
  apply runD_kept; try done.
  - apply playAudio_OpenD.
  - intros i s' Hs. unfold exec, platform. rewrite zoom_eq.
    unfold OpenD, allOpen. cbn [snd audio set_audio].
    change ((takeEnded i (audio s')).2) with (exec (takeEnded i) (audio s')).
    by rewrite takeEnded_contexts.
Qed.

(** *** At most one node renders, in every reachable state *)

Lemma playAudio_OneD d : preserves OneD (playAudio d).
Proof.
  intros s [Ht Hv]. unfold exec. rewrite playAudio_eq.
  rewrite (validRef_stop _ Hv).
  assert (OneD (readied s)) as Hr.
  { split.
    - intros j Hj. by apply readied_silent in Hj.
    - intros i Hi. cbn in Hi. destruct (Hv i Hi) as (n & Hn & Hp).
      rewrite readied_sources, Hi. simpl. rewrite list_lookup_alter_eq, Hn.
      eexists. split; [done|]. unfold halted.
      by destruct (playback n) eqn:E; simpl; rewrite ?E. }
  destruct (decode d) as [bytes|e]; [|done].
  rewrite pcm_24000_mono. cbn [snd]. split.
  - intros j [Hj | ->]%played_started; [|done].
    by apply readied_silent in Hj.
  - intros i [= <-].
    change (sources (audio (played _ (readied s)))) with
      (sources (audio (readied s))
       ++ [freshNode (default 0%nat (audioContextRef (readied s)))
             {| Pcm.sampleRate := 24000; Pcm.numberOfChannels := 1;
                Pcm.channelData :=
                  [map Pcm.normalize (Pcm.int16_samples bytes)] |}]).
    rewrite lookup_last. by eexists.
Qed.

Lemma takeEnded_OneD i : preserves OneD (platform (takeEnded i)).
Proof.
  intros s [Ht Hv]. unfold exec, platform. rewrite zoom_eq. cbn [snd].
  unfold takeEnded. destruct (endedPending i (audio s)); [|by split].
  split.
  - intros j. unfold isStarted. cbn. intros Hj. apply Ht. unfold isStarted.
    destruct (decide (i = j)) as [->|Hij].
    + rewrite list_lookup_alter_eq in Hj.
      by destruct (sources (audio s) !! j).
    + by rewrite list_lookup_alter_ne in Hj.
  - intros r Hr. cbn in Hr. destruct (Hv r Hr) as (n & Hn & Hp). cbn.
    destruct (decide (i = r)) as [->|Hir].
    + rewrite list_lookup_alter_eq, Hn. by eexists.
    + rewrite list_lookup_alter_ne by done. by eexists.
Qed.

Lemma run_OneD es s : OneD s → OneD (run es s).
Proof.
  apply runD_kept; try done.
  - apply playAudio_OneD.
  - apply takeEnded_OneD.
Qed.

Lemma initial_OneD allowed : OneD (initial allowed).
Proof. split; [by intros j | by intros i]. Qed.

(** *** No context before a narration arrives *)

Lemma step_SilentD e s : deliversD e = false → SilentD s → SilentD (step s e).
Proof.
  intros He Hs. unfold step, exec.
  destruct e as [analyzed spoken|c| |i]; cbn [handle].
  - destruct analyzed as [a|msg]; [|done].
    by destruct spoken as [data|msg].
  - rewrite bind_gets. unfold rendered, controls.
    rewrite (proj2 (proj2 Hs)).
    by rewrite bool_decide_eq_false_2 by apply not_elem_of_nil.
  - by destruct Hs as (? & ? & ?).
  - unfold platform. rewrite bind_zoom.
    destruct Hs as (Href & Hc & Hr).
    assert (contexts (takeEnded i (audio s)).2 = []) as Hc'
      by (rewrite <- Hc; apply takeEnded_contexts).
    destruct (takeEnded i (audio s)) as [[[|]|err] a']; by repeat split.
Qed.

Lemma run_SilentD es s :
  Forall (λ e, deliversD e = false) es → SilentD s → SilentD (run es s).
Proof.
  revert s. induction es as [|e es IH]; intros s Hes Hs; [done|].
  apply Forall_cons in Hes as [He Hes].
  apply IH; [done|]. by apply step_SilentD.
Qed.

End DesktopFacts.

(** ** The [ended] event *)

Section EndedFacts.

Import WebAudio.

Lemma firedAt_not_pending i a : firedAt i a → endedPending i a = false.
Proof.
  unfold firedAt, endedPending. destruct (sources a !! i) as [n|]; [|done].
  simpl. intros [= ->]. by destruct (playback n).
Qed.

Lemma takeEnded_fires i a :
  endedPending i a = true → firedAt i (exec (takeEnded i) a).
Proof.
  intros Hp. unfold exec, takeEnded, firedAt. rewrite Hp. cbn.
  rewrite list_lookup_alter_eq. unfold endedPending in Hp.
  by destruct (sources a !! i).
Qed.

Lemma firedAt_alter (f : SourceNode → SourceNode) i j (l : list SourceNode) :
  (∀ n, endedFired n = true → endedFired (f n) = true) →
  endedFired <$> l !! i = Some true →
  endedFired <$> alter f j l !! i = Some true.
Proof.
  intros Hf Hi. destruct (decide (j = i)) as [->|Hne].
  - rewrite list_lookup_alter_eq. destruct (l !! i) as [n|]; [|done].
    simpl in *. injection Hi as Hi. by rewrite Hf.
  - by rewrite list_lookup_alter_ne.
Qed.

Lemma firedAt_app i (l l' : list SourceNode) :
  endedFired <$> l !! i = Some true →
  endedFired <$> (l ++ l') !! i = Some true.
Proof.
  intros Hi. rewrite lookup_app_l; [done|]. apply lookup_lt_is_Some.
  destruct (l !! i); [by eexists | done].
Qed.

Lemma halted_fired n : endedFired n = true → endedFired (halted n) = true.
Proof. unfold halted. by destruct (playback n). Qed.

Lemma stop_firedAt i j : preserves (firedAt i) (stop j).
Proof.
  intros a Ha. unfold firedAt. rewrite stop_sources.
  apply firedAt_alter; [apply halted_fired | done].
Qed.

Lemma transition_firedAt i st c : preserves (firedAt i) (transition st c).
Proof. intros a Ha. unfold firedAt. by rewrite transition_sources. Qed.

Lemma takeEnded_firedAt i j : preserves (firedAt i) (takeEnded j).
Proof.
  intros a Ha. unfold exec, takeEnded. destruct (endedPending j a); [|done].
  unfold firedAt. cbn. by apply firedAt_alter.
Qed.

Lemma haltRef_firedAt i src a : firedAt i a → firedAt i (haltRef src a).
Proof. destruct src as [j|]; [apply stop_firedAt | done]. Qed.

Lemma resumeRef_firedAt i ref a : firedAt i a → firedAt i (resumeRef ref a).
Proof. unfold firedAt. by rewrite resumeRef_sources. Qed.

Lemma ensured_sources ref a : sources (ensured ref a) = sources a.
Proof. by destruct ref. Qed.

End EndedFacts.

Section NarratorEnded.

Import WebAudio Narrator.

Lemma platform_Fired {A} i (m : M Audio A) :
  preserves (firedAt i) m → preserves (Fired i) (platform m).
Proof.
  intros Hm s Hs. unfold exec, platform. rewrite zoom_eq. by apply Hm.
Qed.

Lemma run_Fired i es s : Fired i s → Fired i (run es s).
Proof.
  revert s. induction es as [|e es IH]; intros s Hs; [done|].
  apply IH. revert s Hs. change (preserves (Fired i) (handle e)).
  destruct (Unmount_or_not e) as [->|He].
  - intros s Hs. unfold exec, handle, unmount. rewrite bind_gets.
    destruct (audioContextRef s); [|done].
    unfold platform. by rewrite zoom_eq.
  - apply handle_kept; try done.
    + intros s'. unfold exec. rewrite stopAudio_eq. intros Hs'.
      by apply resumeRef_firedAt, haltRef_firedAt.
    + intros d s' Hs'. unfold exec. rewrite startNewAudio_eq.
      assert (Fired i (prepared s')) as Hp.
      { unfold Fired, firedAt. rewrite prepared_sources.
        by apply resumeRef_firedAt, haltRef_firedAt. }
      destruct (Base64.decode d) as [bytes|e']; [|done].
      rewrite pcm_24000_mono. by apply firedAt_app.
    + intros st c _. apply platform_Fired, transition_firedAt.
    + intros j. apply platform_Fired, takeEnded_firedAt.
Qed.

Lemma ended_once i es s :
  endedPending i (audio s) = true →
  endedPending i (audio (run es (step s (Ended i)))) = false.
Proof.
  intros Hp. apply firedAt_not_pending, (run_Fired i es).
  unfold step, exec, handle, platform. rewrite bind_zoom.
  pose proof (takeEnded_fires i _ Hp) as Hf. unfold exec in Hf.
  unfold Fired.
  by destruct (takeEnded i (audio s)) as [[[|]|e] a'].
Qed.

Lemma onended_handler_eq s :
  onended_handler s
  = (Done tt, set_activeSourceRef None
                (set_isPaused false (set_isPlaying false s))).
Proof. reflexivity. Qed.

Lemma onended_handler_idle s : exec onended_handler s = s ↔ idle s.
Proof.
  unfold exec. rewrite onended_handler_eq. cbn [snd]. unfold idle. split.
  - intros <-. by repeat split.
  - destruct s. cbn. by intros (-> & -> & ->).
Qed.

Lemma step_Ended_view s i :
  view (step s (Ended i)) = view s
  ∨ view (step s (Ended i)) = (None, false, false).
Proof.
  unfold step, exec, handle, platform. rewrite bind_zoom.
  destruct (takeEnded i (audio s)) as [[[|]|e] a']; cbn; auto.
Qed.

Lemma afterStop_Ended_view s i :
  view (step (afterStop s) (Ended i)) = view (afterStop s).
Proof.
  destruct (step_Ended_view (afterStop s) i) as [H|H]; by rewrite H.
Qed.

End NarratorEnded.

(** * The properties of the specification

    Numbered as in the list of properties (C1 to C10); X2 is a further
    property of the controller. C8 is stated further down, with the
    component await by await. *)

Import WebAudio.

Section PlayTwice.



End PlayTwice.


Section DesktopEnded.

Import Desktop.

Lemma run_FiredD i es s : FiredD i s → FiredD i (run es s).
Proof.
  apply runD_kept; try done.
  - intros d s' Hs'. unfold exec. rewrite playAudio_eq.
    destruct (stopFails _ _); [done|].
    assert (FiredD i (readied s')) as Hp.
    { unfold FiredD, firedAt. rewrite readied_sources, <- haltRef_sources.
      by apply haltRef_firedAt. }
    destruct (decode d) as [bytes|e']; [|done].
    rewrite pcm_24000_mono. by apply firedAt_app.
  - intros j s' Hs'. unfold exec, platform. rewrite zoom_eq.
    by apply takeEnded_firedAt.
Qed.

Lemma ended_onceD i es s :
  endedPending i (audio s) = true →
  endedPending i (audio (run es (step s (Ended i)))) = false.
Proof.
  intros Hp. apply firedAt_not_pending, (run_FiredD i es).
  unfold step, exec, handle, platform. rewrite bind_zoom.
  pose proof (takeEnded_fires i _ Hp) as Hf. unfold exec in Hf.
  unfold FiredD.
  by destruct (takeEnded i (audio s)) as [[[|]|e] a'].
Qed.

Lemma onended_handlerD_idle s :
  exec onended_handler s = s ↔ isPlaying s = false.
Proof.
  unfold exec, onended_handler, setIsPlaying, modify. cbn [snd]. split.
  - by intros <-.
  - destruct s. cbn. by intros ->.
Qed.

Lemma step_EndedD_view s i :
  viewD (step s (Ended i)) = viewD s
  ∨ viewD (step s (Ended i)) = (activeSourceRef s, false).
Proof.
  unfold step, exec, handle, platform. rewrite bind_zoom.
  destruct (takeEnded i (audio s)) as [[[|]|e] a']; cbn; auto.
Qed.

End DesktopEnded.

(** C2 fails in both components: neither [onended] handler checks that the
    node that ended is the one the controller holds. With a first payload
    playing, a second narration arrives; [startNewAudio] stops node 0 and
    starts node 1. The [ended] event of node 0, which that stop causes, then
    runs the handler, which clears [isPlaying] and the controller's handle
    (in the desktop edition, [isPlaying]) although node 0 is no longer the
    active node and node 1 still renders. *)
Lemma ended_handler_alters_active_session :
  ¬ (∀ allowed es i,
       let s := Narrator.run es (Narrator.initial allowed) in
       Narrator.activeSourceRef s ≠ Some i →
       view (Narrator.step s (Narrator.Ended i)) = view s)
  ∧ ¬ (∀ allowed es i,
         let s := Desktop.run es (Desktop.initial allowed) in
         Desktop.activeSourceRef s ≠ Some i →
         viewD (Desktop.step s (Desktop.Ended i)) = viewD s).
Proof.
  split.
  - intros H.
    specialize (H true
      [Narrator.ProcessVideo (narrated (Some payloadA)).1
                             (narrated (Some payloadA)).2;
       Narrator.ProcessVideo (narrated (Some payloadB)).1
                             (narrated (Some payloadB)).2] 0%nat).
    vm_compute in H. by specialize (H ltac:(discriminate)).
  - intros H.
    specialize (H true
      [Desktop.ProcessVideo (narrated (Some payloadA)).1
                            (narrated (Some payloadA)).2;
       Desktop.ProcessVideo (narrated (Some payloadB)).1
                            (narrated (Some payloadB)).2] 0%nat).
    vm_compute in H. by specialize (H ltac:(discriminate)).
Qed.

(** C1 fails in the component with pause and stop controls. A second
    narration arrives while the first plays: [startNewAudio] stops node 0 and
    starts node 1. The [ended] event of node 0 then clears the controller's
    handle, although node 1 renders. From there the stop button does not
    reach node 1, and a click on play calls [startNewAudio], which starts
    node 2 without stopping node 1: two nodes render at once. *)
Theorem play_overlaps_after_stale_ended :
  let s3 := Narrator.run
              [Narrator.ProcessVideo (narrated (Some payloadA)).1
                                     (narrated (Some payloadA)).2;
               Narrator.ProcessVideo (narrated (Some payloadB)).1
                                     (narrated (Some payloadB)).2;
               Narrator.Ended 0]
              (Narrator.initial true) in
  let s4 := Narrator.step s3 (Narrator.Click Narrator.StopButton) in
  let s5 := Narrator.step s4 (Narrator.Click Narrator.PlayPauseButton) in
  isStarted 1 (Narrator.audio s3)
  ∧ Narrator.activeSourceRef s3 = None
  ∧ Narrator.isPlaying s3 = false
  ∧ isStarted 1 (Narrator.audio s4)
  ∧ isStarted 1 (Narrator.audio s5)
  ∧ isStarted 2 (Narrator.audio s5)
  ∧ Narrator.activeSourceRef s5 = Some 2%nat.
Proof. vm_compute. done. Qed.


(** C3. [stopAudio] never throws and is idempotent: from any state it
    completes, leaving no active source and [isPlaying], [isPaused] false, and
    a second call right after completes too and changes nothing. *)
Theorem stopAudio_idempotent (s : Narrator.State) :
  ∃ s', Narrator.stopAudio s = (Done tt, s')
        ∧ Narrator.activeSourceRef s' = None
        ∧ Narrator.isPlaying s' = false
        ∧ Narrator.isPaused s' = false
        ∧ Narrator.stopAudio s' = (Done tt, s').
Proof.
  exists (afterStop s). rewrite !stopAudio_eq, afterStop_idem. done.
Qed.

(** C4, in the component with pause and stop controls: a narration without
    audio completes without an error state, starts no playback, and the
    playback bar shows no button; [togglePlayback] and [downloadAudio] would
    do nothing on the result anyway. *)
Lemma narrator_without_audio (s : Narrator.State) (a : Analysis) :
  let s' := Narrator.step s (Narrator.ProcessVideo (Resolved a) (Resolved None)) in
  Narrator.status s' = COMPLETED
  ∧ Narrator.error s' = Narrator.error s
  ∧ Narrator.audio s' = Narrator.audio s
  ∧ Narrator.controls s' = []
  ∧ (∀ c, Narrator.step s' (Narrator.Click c) = s')
  ∧ Narrator.downloadAudio s' = (Done tt, s').
Proof. repeat split. Qed.

(** C4, in the desktop edition: after a narration without audio the two
    buttons are rendered all the same; a click on either throws
    MalformedInputError out of [decode], the play button after it created
    the audio context. *)
Theorem desktop_controls_without_audio (allowed : bool) (a : Analysis) :
  let s := Desktop.step (Desktop.initial allowed)
             (Desktop.ProcessVideo (Resolved a) (Resolved None)) in
  Desktop.status s = COMPLETED
  ∧ Desktop.error s = None
  ∧ Desktop.controls s = [Desktop.ReproducirButton; Desktop.DescargarButton]
  ∧ (Desktop.handle (Desktop.Click Desktop.ReproducirButton) s).1
    = Threw MalformedInputError
  ∧ length (contexts (Desktop.audio
              (Desktop.step s (Desktop.Click Desktop.ReproducirButton))))
    = 1%nat
  ∧ (Desktop.handle (Desktop.Click Desktop.DescargarButton) s).1
    = Threw MalformedInputError.
Proof. repeat split. Qed.

Section StopThenPlay.

Import Narrator.

Lemma stateOf_running c a :
  stateOf c a = running →
  ∃ ctx, contexts a !! c = Some ctx ∧ state ctx = running.
Proof.
  unfold stateOf. destruct (contexts a !! c) as [ctx|]; [|done].
  intros H. by exists ctx.
Qed.






End StopThenPlay.



Section OneDevice.

Lemma goodAudio_device ref a :
  goodAudio ref a →
  (length (contexts a) ≤ 1)%nat
  ∧ (ref = None ∧ contexts a = []
     ∨ ref = Some 0%nat ∧ ∃ ctx, contexts a = [ctx])
  ∧ Forall (λ n, context n = 0%nat) (sources a).
Proof.
  intros [Hc Hn]. split; [|split].
  - destruct ref as [c|]; hnf in Hc.
    + destruct Hc as [_ (ctx & -> & _)]. simpl. lia.
    + rewrite Hc. simpl. lia.
  - destruct ref as [c|]; hnf in Hc.
    + destruct Hc as [-> (ctx & -> & _)]. right. split; [done|]. by eexists.
    + by left.
  - eapply Forall_impl; [done|]. by intros n [? _].
Qed.

Lemma goodAudio_format ref a :
  goodAudio ref a →
  Forall (λ ctx, ctxSampleRate ctx = 24000) (contexts a)
  ∧ Forall (λ n, ∃ b, buffer n = Some b ∧ Pcm.sampleRate b = 24000
                      ∧ Pcm.numberOfChannels b = 1) (sources a).
Proof.
  intros [Hc Hn]. split.
  - destruct ref as [c|]; hnf in Hc.
    + destruct Hc as [_ (ctx & -> & Hctx)]. by apply Forall_singleton.
    + rewrite Hc. constructor.
  - eapply Forall_impl; [done|]. by intros n (_ & _ & _ & _ & ?).
Qed.

End OneDevice.

Section OneDeviceMore.

Lemma startNewAudio_creates d s :
  Inv s →
  let s' := exec (Narrator.startNewAudio d) s in
  Narrator.audioContextRef s' = Some 0%nat
  ∧ ∃ ctx, contexts (Narrator.audio s') = [ctx] ∧ ctxSampleRate ctx = 24000.
Proof.
  intros Hs s'. subst s'.
  destruct (prepared_Inv s Hs) as [[[Hc _] _] Href].
  rewrite Href in Hc. destruct Hc as [_ (ctx & Hctx & Hgood)].
  unfold exec. rewrite startNewAudio_eq.
  destruct (Base64.decode d) as [bytes|e]; [|by eauto].
  rewrite pcm_24000_mono. cbn [snd launched Narrator.audioContextRef
    Narrator.audio]. split; [done|]. exists ctx. by split.
Qed.

Lemma unmount_closes s :
  Inv s →
  Forall (λ ctx, state ctx = closed)
         (contexts (Narrator.audio (Narrator.step s Narrator.Unmount))).
Proof.
  intros [[Hc _] _]. unfold Narrator.step, exec, Narrator.handle,
    Narrator.unmount. rewrite bind_gets.
  destruct (Narrator.audioContextRef s) as [c|]; hnf in Hc.
  - destruct Hc as [-> (ctx & Hctx & _)].
    unfold Narrator.platform. rewrite zoom_eq. cbn. rewrite Hctx.
    by apply Forall_singleton.
  - cbn. rewrite Hc. constructor.
Qed.

Lemma playAudio_creates base64 s :
  InvD s → validRef s →
  let s' := exec (Desktop.playAudio base64) s in
  Desktop.audioContextRef s' = Some 0%nat
  ∧ ∃ ctx, contexts (Desktop.audio s') = [ctx] ∧ ctxSampleRate ctx = 24000.
Proof.
  intros Hs Hv s'. subst s'.
  destruct (readied_InvD s Hs) as [[[Hc _] _] Href].
  rewrite Href in Hc. destruct Hc as [_ (ctx & Hctx & Hgood)].
  unfold exec. rewrite playAudio_eq, (validRef_stop _ Hv).
  destruct (Desktop.decode base64) as [bytes|e]; [|by eauto].
  rewrite pcm_24000_mono. cbn [snd played Desktop.audioContextRef
    Desktop.audio]. split; [done|]. exists ctx. by split.
Qed.

End OneDeviceMore.

(** C9. The payload is always taken as 24000 Hz mono PCM: [startNewAudio] and
    [playAudio] hand the decoded bytes to [decodeAudioData] with 24000 and 1,
    and the download hands them to [createWavBlob] with 24000. So in every
    reachable state the context runs at 24000 Hz, every node's buffer is
    tagged 24000 Hz and one channel, and every file downloaded carries 24000
    and one channel in its header. *)
Theorem fixed_pcm_format (allowed : bool) :
  (∀ s text bytes,
     Base64.decode text = Ok bytes →
     ∃ b, Pcm.decodePcm bytes 24000 1 = Ok b
          ∧ (buffer <$> last (sources
               (Narrator.audio (exec (Narrator.startNewAudio text) s))))
            = Some (Some b))
  ∧ (∀ s text bytes,
       validRef s → Base64.decode text = Ok bytes →
       ∃ b, Pcm.decodePcm bytes 24000 1 = Ok b
            ∧ (buffer <$> last (sources
                 (Desktop.audio (exec (Desktop.playAudio (Some text)) s))))
              = Some (Some b))
  ∧ (∀ es, let s := Narrator.run es (Narrator.initial allowed) in
       Forall (λ ctx, ctxSampleRate ctx = 24000) (contexts (Narrator.audio s))
       ∧ Forall (λ n, ∃ b, buffer n = Some b ∧ Pcm.sampleRate b = 24000
                           ∧ Pcm.numberOfChannels b = 1)
                (sources (Narrator.audio s))
       ∧ Forall (λ file, Wav.u32_at 24 file = 24000 ∧ Wav.u16_at 22 file = 1)
                (Narrator.downloads s))
  ∧ (∀ es, let s := Desktop.run es (Desktop.initial allowed) in
       Forall (λ ctx, ctxSampleRate ctx = 24000) (contexts (Desktop.audio s))
       ∧ Forall (λ n, ∃ b, buffer n = Some b ∧ Pcm.sampleRate b = 24000
                           ∧ Pcm.numberOfChannels b = 1)
                (sources (Desktop.audio s))
       ∧ Forall (λ file, Wav.u32_at 24 file = 24000 ∧ Wav.u16_at 22 file = 1)
                (Desktop.downloads s)).
Proof.
  split; [|split; [|split]].
  - intros s text bytes Hd. exists (pcmBuffer bytes).
    split; [exact (pcm_24000_mono bytes 0%nat)|].
    unfold exec. rewrite (startNewAudio_Ok _ _ _ Hd). cbn [snd].
    by rewrite launched_sources, last_snoc.
  - intros s text bytes Hv Hd. exists (pcmBuffer bytes).
    split; [exact (pcm_24000_mono bytes 0%nat)|].
    unfold exec. rewrite (playAudio_Ok _ _ _ (validRef_stop _ Hv) Hd).
    cbn [snd].
    change (sources (Desktop.audio (played (pcmBuffer bytes) (readied s))))
      with (sources (Desktop.audio (readied s))
            ++ [freshNode
                  (default 0%nat (Desktop.audioContextRef (readied s)))
                  (pcmBuffer bytes)]).
    by rewrite last_snoc.
  - intros es s.
    destruct (run_Inv es _ (initial_Inv allowed)) as [Ha Hd]. fold s in Ha, Hd.
    destruct (goodAudio_format _ _ Ha) as [H1 H2]. by repeat split.
  - intros es s.
    destruct (run_InvD es _ (initial_InvD allowed)) as [Ha Hd].
    fold s in Ha, Hd.
    destruct (goodAudio_format _ _ Ha) as [H1 H2]. by repeat split.
Qed.

(** * Further properties of the components *)

(** ** The playback session of the component with pause and stop controls *)

Section SessionFacts.

Import Narrator.

Lemma Session_same s s' :
  view s' = view s → audioContextRef s' = audioContextRef s →
  audio s' = audio s → Session s → Session s'.
Proof.
  unfold view, Session. intros [= -> -> ->] -> ->. done.
Qed.

Lemma afterStop_Session s : Session (afterStop s).
Proof. by split. Qed.

Lemma prepared_Session s : Session (prepared s).
Proof. by split. Qed.

Lemma launched_Session b s : Session (launched b (prepared s)).
Proof.
  unfold Session. cbn [launched activeSourceRef audio isPlaying isPaused
    audioContextRef]. split.
  - unfold isStarted. cbn [set_sources sources]. by rewrite lookup_last.
  - eexists. split; [reflexivity|]. left. split; [done|]. split; [done|].
    cbn [prepared audioContextRef audio].
    apply resumeRef_not_suspended.
Qed.

Lemma startNewAudio_Session d s : Session (exec (startNewAudio d) s).
Proof.
  unfold exec. rewrite startNewAudio_eq.
  destruct (Base64.decode d) as [bytes|e]; [|apply prepared_Session].
  destruct (decodeAudioData _ _ _ _) as [b|e];
    [apply launched_Session | apply prepared_Session].
Qed.

Lemma stateOf_transition st c a :
  stateOf c a ≠ closed → stateOf c (exec (transition st c) a) = st.
Proof.
  unfold stateOf at 1. destruct (contexts a !! c) as [ctx|] eqn:Hc; [|done].
  simpl. intros Hs. unfold exec. rewrite (transition_open _ _ _ _ Hc Hs).
  unfold stateOf. cbn [snd contexts set_contexts].
  by rewrite list_lookup_alter_eq, Hc.
Qed.

Lemma transition_closed st c a :
  stateOf c a = closed → transition st c a = (Threw InvalidStateError, a).
Proof.
  unfold stateOf, transition. destruct (contexts a !! c) as [ctx|]; [|done].
  simpl. by intros ->.
Qed.

Lemma transition_Done st c a :
  stateOf c a ≠ closed →
  transition st c a = (Done tt, exec (transition st c) a).
Proof.
  unfold stateOf. destruct (contexts a !! c) as [ctx|] eqn:Hc; [|done].
  simpl. intros Hs. unfold exec. by rewrite (transition_open _ _ _ _ Hc Hs).
Qed.

Lemma transition_cases st c a :
  stateOf c a = closed ∧ transition st c a = (Threw InvalidStateError, a)
  ∨ stateOf c a ≠ closed
    ∧ transition st c a = (Done tt, exec (transition st c) a).
Proof.
  destruct (stateOf c a) eqn:E.
  - right. split; [done|]. apply transition_Done. by rewrite E.
  - right. split; [done|]. apply transition_Done. by rewrite E.
  - left. split; [done|]. by apply transition_closed.
Qed.

Lemma isStarted_transition st c i a :
  isStarted i (exec (transition st c) a) ↔ isStarted i a.
Proof. unfold isStarted. by rewrite transition_sources. Qed.

Ltac flags :=
  unfold setIsPaused, setIsPlaying; rewrite ?bind_modify; unfold modify;
  cbn [fst snd];
  cbv [set_isPaused set_isPlaying set_audio set_activeSourceRef];
  unfold Session;
  cbn [status result error isPlaying isPaused audioContextRef
       activeSourceRef downloads audio].

Lemma togglePlayback_Session : preserves Session togglePlayback.
Proof.
  intros s Hs. unfold exec, togglePlayback. rewrite bind_gets.
  destruct (audioContextRef s) as [ctx|] eqn:Href; [|done].
  rewrite !bind_gets.
  destruct (isPaused s) eqn:Hpa; [|destruct (isPlaying s) eqn:Hpl].
  - unfold platform. rewrite bind_zoom. unfold resume.
    destruct (transition_cases running ctx (audio s)) as [[Hc ->]|[Hc ->]].
    { cbn [fst snd]. by destruct s. }
    flags. unfold Session in Hs. rewrite Href, Hpa in Hs.
    destruct (activeSourceRef s) as [i|]; [|by destruct Hs].
    destruct Hs as [Hi _]. split; [by apply isStarted_transition|].
    exists ctx. split; [done|]. left. split; [done|]. split; [done|].
    by rewrite stateOf_transition.
  - unfold platform. rewrite bind_zoom. unfold suspend.
    destruct (transition_cases suspended ctx (audio s)) as [[Hc ->]|[Hc ->]].
    { cbn [fst snd]. by destruct s. }
    flags. unfold Session in Hs. rewrite Href, Hpa, Hpl in Hs.
    destruct (activeSourceRef s) as [i|]; [|by destruct Hs].
    destruct Hs as [Hi _]. split; [by apply isStarted_transition|].
    exists ctx. split; [done|]. right. split; [done|]. split; [done|].
    by rewrite stateOf_transition.
  - unfold whenTruthy. destruct (resultAudio s) as [d|]; [|done].
    destruct (truthy (Some d)); [|done].
    apply (startNewAudio_Session d s).
Qed.

Lemma takeEnded_fst i a :
  (takeEnded i a).1 = Done (endedPending i a
                            && from_option onended false (sources a !! i)).
Proof. unfold takeEnded. by destruct (endedPending i a). Qed.

Lemma endedPending_onended i a :
  Forall goodNode (sources a) → endedPending i a = true →
  from_option onended false (sources a !! i) = true.
Proof.
  intros Hn. unfold endedPending.
  destruct (sources a !! i) as [n|] eqn:Hi; [|done]. intros _. simpl.
  eapply Forall_lookup_1 in Hn; [|done]. apply Hn.
Qed.

Lemma Ended_Session i s : Inv s → Session s → Session (step s (Ended i)).
Proof.
  intros [[_ Hn] _] Hs. unfold step, exec, handle, platform.
  rewrite bind_zoom, takeEnded_fst.
  destruct (endedPending i (audio s)) eqn:E; cbn [andb].
  - rewrite (endedPending_onended _ _ Hn E). by split.
  - unfold takeEnded. rewrite E. cbn [fst snd]. by destruct s.
Qed.

Lemma Unmount_Session s : Session s → Session (step s Unmount).
Proof.
  intros Hs. unfold step, exec, handle, unmount. rewrite bind_gets.
  destruct (audioContextRef s) as [c|] eqn:Href; [|done].
  unfold platform. rewrite zoom_eq. cbn [snd]. unfold Session in *.
  cbv [set_audio].
  cbn [status result error isPlaying isPaused audioContextRef
       activeSourceRef downloads audio].
  destruct (activeSourceRef s) as [i|]; [|done].
  destruct Hs as [Hi (c' & Hc' & Hm)]. rewrite Href in Hc'.
  injection Hc' as <-.
  split; [done|]. exists c. split; [done|].
  assert (stateOf c (close c (audio s)).2 = closed) as ->.
  { unfold stateOf, close, modify. cbn [snd contexts set_contexts].
    rewrite list_lookup_alter_eq. by destruct (contexts (audio s) !! c). }
  destruct Hm as [(? & ? & _)|(? & ? & _)]; [by left | by right].
Qed.

Lemma step_Session e s : Inv s → Session s → Session (step s e).
Proof.
  intros Hi Hs. destruct e as [analyzed spoken|c| | |i|].
  - clear Hi. revert s Hs. apply processVideo_kept.
    + intros v s. by apply Session_same.
    + intros v s. by apply Session_same.
    + intros v s. by apply Session_same.
    + intros d s _. apply startNewAudio_Session.
  - unfold step, exec, handle. rewrite bind_gets.
    destruct (rendered c s); [|done].
    destruct c; cbn [onClick].
    + by apply togglePlayback_Session.
    + rewrite stopAudio_eq. apply afterStop_Session.
    + clear Hi. revert s Hs. apply downloadAudio_kept.
      intros bytes s. by apply Session_same.
  - clear Hi. revert s Hs. apply clearResults_kept.
    + intros v s. by apply Session_same.
    + intros v s. by apply Session_same.
    + intros v s. by apply Session_same.
    + intros s _. unfold exec. rewrite stopAudio_eq. apply afterStop_Session.
  - clear Hi. revert s Hs. apply clearResults_kept.
    + intros v s. by apply Session_same.
    + intros v s. by apply Session_same.
    + intros v s. by apply Session_same.
    + intros s _. unfold exec. rewrite stopAudio_eq. apply afterStop_Session.
  - by apply Ended_Session.
  - by apply Unmount_Session.
Qed.

Lemma initial_Session allowed : Session (initial allowed).
Proof. by split. Qed.

Lemma paused_not_running s :
  Session s → isPaused s = true →
  ∃ c, audioContextRef s = Some c ∧ stateOf c (audio s) ≠ running.
Proof.
  unfold Session. intros Hs Hp.
  destruct (activeSourceRef s) as [i|]; [|destruct Hs; congruence].
  destruct Hs as [_ (c & Hc & [(_ & ? & _)|(_ & _ & Hst)])]; [congruence|].
  by exists c.
Qed.

Lemma suspended_silent s c :
  Inv s → audioContextRef s = Some c → stateOf c (audio s) ≠ running →
  ∀ j, ¬ audible j (audio s).
Proof.
  intros [[Hc Hn] _] Href Hst j (n & ctx & Hj & _ & _ & Hctx & Hrun).
  rewrite Href in Hc. destruct Hc as [-> (ctx0 & Hcs & _)].
  eapply Forall_lookup_1 in Hn; [|done]. destruct Hn as [Hn _].
  rewrite Hn in Hctx. apply Hst. unfold stateOf. by rewrite Hctx.
Qed.

(** *** Pause and resume *)

Lemma with_state_undo st ctx :
  with_state (state ctx) (with_state st ctx) = ctx.
Proof. by destruct ctx. Qed.

Lemma alter_undo {A} (f g : A → A) (i : nat) (l : list A) :
  (∀ x, l !! i = Some x → f (g x) = x) → alter f i (alter g i l) = l.
Proof.
  intros H. rewrite list_alter_alter_eq. by apply alter_fixed.
Qed.

Lemma togglePlayback_pauses s c :
  audioContextRef s = Some c → stateOf c (audio s) = running →
  isPlaying s = true → isPaused s = false →
  togglePlayback s = (Done tt, pausedFrom c s).
Proof.
  intros Href Hst Hpl Hpa. unfold togglePlayback.
  rewrite bind_gets, Href, !bind_gets, Hpa, Hpl.
  unfold platform. rewrite bind_zoom. unfold suspend.
  unfold stateOf in Hst.
  destruct (contexts (audio s) !! c) as [ctx|] eqn:Hc; [|done].
  simpl in Hst.
  rewrite (transition_open suspended c (audio s) ctx Hc)
    by (rewrite Hst; discriminate).
  cbn [fst snd]. reflexivity.
Qed.

Lemma togglePlayback_resumes s c :
  audioContextRef s = Some c → stateOf c (audio s) = running →
  togglePlayback (pausedFrom c s)
  = (Done tt,
     {| status := status s; result := result s; error := error s;
        isPlaying := true; isPaused := false;
        audioContextRef := audioContextRef s;
        activeSourceRef := activeSourceRef s;
        downloads := downloads s;
        audio := audio s |}).
Proof.
  intros Href Hst. unfold togglePlayback.
  rewrite bind_gets. cbn [pausedFrom audioContextRef]. rewrite Href.
  rewrite !bind_gets. cbn [pausedFrom isPaused].
  unfold platform. rewrite bind_zoom. unfold resume.
  unfold stateOf in Hst.
  destruct (contexts (audio s) !! c) as [ctx|] eqn:Hc; [|done].
  simpl in Hst. cbn [audio].
  erewrite (transition_open running c _ (with_state suspended ctx)); cycle 1.
  { unfold pausedFrom, set_contexts. cbn [audio contexts].
    by rewrite list_lookup_alter_eq, Hc. }
  { done. }
  cbn [fst snd]. unfold setIsPaused, setIsPlaying.
  rewrite bind_modify. unfold modify.
  cbv [set_isPaused set_isPlaying set_audio set_contexts pausedFrom].
  cbn [status result error isPlaying isPaused audioContextRef
       activeSourceRef downloads audio contexts sources allowedToStart].
  rewrite alter_undo.
  - rewrite Href. by destruct s as [? ? ? ? ? ? ? ? []].
  - intros x Hx. assert (x = ctx) as -> by congruence.
    rewrite <- Hst. apply with_state_undo.
Qed.

(** *** What the page shows *)

Lemma page_eq s st r e :
  page s = (st, r, e) → status s = st ∧ result s = r ∧ error s = e.
Proof.
  intros H. split; [exact (f_equal (λ p, p.1.1) H)|].
  split; [exact (f_equal (λ p, p.1.2) H) | exact (f_equal snd H)].
Qed.

Lemma page_same s s' :
  page s' = page s →
  status s' = status s ∧ result s' = result s ∧ error s' = error s.
Proof. apply page_eq. Qed.

Lemma startNewAudio_page d s : page (exec (startNewAudio d) s) = page s.
Proof.
  unfold exec. rewrite startNewAudio_eq.
  destruct (Base64.decode d) as [bytes|e]; [|done].
  by destruct (decodeAudioData _ _ _ _).
Qed.

Lemma platform_page {A} (m : M Audio A) s :
  page (exec (platform m) s) = page s.
Proof. unfold exec, platform. by rewrite zoom_eq. Qed.

Lemma audio_event_page e s :
  (∀ analyzed spoken, e ≠ ProcessVideo analyzed spoken) →
  e ≠ ClearResults → e ≠ ResetAll →
  page (step s e) = page s.
Proof.
  intros Hp Hc Hr.
  destruct e as [analyzed spoken|c| | |i|]; try done.
  - by destruct (Hp analyzed spoken).
  - unfold step, exec, handle. rewrite bind_gets.
    destruct (rendered c s); [|done].
    destruct c; cbn [onClick].
    + apply (togglePlayback_kept (λ s', page s' = page s)); try done.
      * intros d s' <-. apply startNewAudio_page.
      * intros st c _ s' <-. apply platform_page.
    + by rewrite stopAudio_eq.
    + apply (downloadAudio_kept (λ s', page s' = page s)); done.
  - unfold step, exec, handle, platform. rewrite bind_zoom.
    destruct (takeEnded i (audio s)) as [[[|]|err] a']; done.
  - unfold step, exec, handle, unmount. rewrite bind_gets.
    destruct (audioContextRef s); [|done]. apply platform_page.
Qed.

Lemma clearResults_page s : page (exec clearResults s) = (IDLE, None, None).
Proof.
  unfold exec, clearResults. by rewrite (bind_Done _ _ _ _ _ (stopAudio_eq s)).
Qed.

Lemma processVideo_page analyzed spoken s :
  page (exec (processVideo analyzed spoken) s) =
  match analyzed, spoken with
  | Resolved a, Resolved data =>
      (COMPLETED,
       Some {| text := narration a; audioData := data;
               thinkingProcess := Some (analysis a);
               genreDetected := genre a |},
       error s)
  | Resolved _, Rejected message | Rejected message, _ =>
      (ERROR, result s,
       Some (if truthy (Some message) then message else defaultError))
  end.
Proof.
  destruct analyzed as [a|msg]; [|done].
  destruct spoken as [data|msg]; [|done].
  unfold exec, processVideo, setStatus, setResult.
  cbv [bind modify await whenTruthy].
  destruct data as [d|]; [|done].
  destruct (truthy (Some d)); [|done].
  unfold detach. cbn [snd].
  match goal with
  | |- page (startNewAudio d ?s').2 = _ => exact (startNewAudio_page d s')
  end.
Qed.

End SessionFacts.

(** ** [processVideo] call by call *)

Section AsyncFacts.

Import Narrator NarratorView NarratorAsync.

Lemma finish_atomic a audioBase64 s :
  exec (finish a audioBase64) s
  = Narrator.step s (ProcessVideo (Resolved a) (Resolved audioBase64)).
Proof. by destruct audioBase64 as [[|ch d]|]. Qed.

Lemma catch_atomic {A} message (spoken : Reply A) s :
  exec (catch message) s
  = set_status ERROR
      (set_error (Some (if truthy (Some message) then message
                        else defaultError)) s).
Proof. reflexivity. Qed.

(** The component after an event: as before, or with another status or
    error, or after an event of the component run in one piece. *)
Lemma step_app p e :
  app (step p e) = app p
  ∨ (∃ v, app (step p e) = set_status v (app p))
  ∨ (∃ v m, app (step p e) = set_status v (set_error m (app p)))
  ∨ (∃ e', app (step p e) = Narrator.step (app p) e'
           ∧ (e' = Unmount → e = Sync Unmount)).
Proof.
  destruct e as [| |i m|i r|i r|e]; cbn [step].
  - right; right; right. by exists ResetAll.
  - destruct (videoUrl p); [|by left]. right; left. by exists SAMPLING.
  - destruct (calls p !! i) as [[[| |a]|]|]; try by left.
    destruct (videoUrl p).
    + right; left. by exists ANALYZING.
    + right; right; left. by eexists _, _.
  - destruct (calls p !! i) as [[[| |a]|]|]; try by left.
    destruct r as [a|msg].
    + right; left. by exists NARRATING.
    + right; right; left. by eexists _, _.
  - destruct (calls p !! i) as [[[| |a]|]|]; try by left.
    destruct r as [d|msg].
    + right; right; right.
      exists (ProcessVideo (Resolved a) (Resolved d)). cbn [settle on_app app].
      split; [apply finish_atomic | done].
    + right; right; left. by eexists _, _.
  - destruct e as [analyzed spoken|c| | |j|]; try by left.
    + right; right; right. by exists (Click c).
    + right; right; right. by exists ClearResults.
    + right; right; right. by exists ResetAll.
    + right; right; right. by exists (Ended j).
    + right; right; right. by exists Unmount.
Qed.

Lemma step_Sound p e : Sound (app p) → Sound (app (step p e)).
Proof.
  intros [Hi Hs].
  destruct (step_app p e) as [->|[[v ->]|[(v & m & ->)|(e' & -> & _)]]];
    try done.
  split; [by apply handle_Inv | by apply step_Session].
Qed.

Lemma run_Sound es p : Sound (app p) → Sound (app (run es p)).
Proof.
  revert p. induction es as [|e es IH]; intros p Hp; [done|].
  apply IH. by apply step_Sound.
Qed.

Lemma step_OpenA p e : e ≠ Sync Unmount → Open (app p) → Open (app (step p e)).
Proof.
  intros He Ho.
  destruct (step_app p e) as [->|[[v ->]|[(v & m & ->)|(e' & -> & Hu)]]];
    try done.
  apply handle_Open; [|done]. intros ->. by apply He, Hu.
Qed.

Lemma run_OpenA es p :
  Sync Unmount ∉ es → Open (app p) → Open (app (run es p)).
Proof.
  revert p. induction es as [|e es IH]; intros p Hes Hp; [done|].
  apply not_elem_of_cons in Hes as [He Hes].
  apply IH; [done|]. apply step_OpenA; [congruence | done].
Qed.

(** *** The calls that wait *)

Lemma busy_false p :
  busy p = false ↔ ∀ j w, calls p !! j = Some (Some w) → False.
Proof.
  unfold busy. rewrite bool_decide_eq_false, Exists_exists. split.
  - intros H j w Hj. apply H. exists (Some w). split; [|by eexists].
    by eapply list_elem_of_lookup_2.
  - intros H (x & Hx & w & ->).
    apply list_elem_of_lookup_1 in Hx as [j Hj]. by eapply H.
Qed.

Lemma busy_true p i w : calls p !! i = Some (Some w) → busy p = true.
Proof.
  intros Hi. destruct (busy p) eqn:E; [done|].
  exfalso. by eapply (proj1 (busy_false p)).
Qed.

Lemma onlyCall_settle i w w' p m :
  onlyCall i w p → onlyCall i w' (settle i (Some w') (on_app m p)).
Proof.
  intros [Hi Hu]. unfold onlyCall. cbn [settle on_app calls].
  assert (i < length (calls p))%nat as Hlt
    by (apply lookup_lt_is_Some; by eexists).
  split; [by apply list_lookup_insert_eq|].
  intros j w'' Hj. destruct (decide (j = i)) as [|Hne]; [done|].
  rewrite list_lookup_insert_ne in Hj by done. by eapply Hu.
Qed.

Lemma onlyCall_returned i w p m :
  onlyCall i w p → busy (settle i None (on_app m p)) = false.
Proof.
  intros [Hi Hu]. apply busy_false. cbn [settle on_app calls].
  intros j w' Hj. destruct (decide (j = i)) as [->|Hne].
  - assert (i < length (calls p))%nat as Hlt
      by (apply lookup_lt_is_Some; by eexists).
    by rewrite list_lookup_insert_eq in Hj.
  - rewrite list_lookup_insert_ne in Hj by done.
    apply Hne. by eapply Hu.
Qed.

Lemma catch_Display message s : Display (exec (catch message) s).
Proof. unfold Display, errorShown. cbn. by destruct message. Qed.

Lemma idle_page_Display p : page (app p) = (IDLE, None, None) → Display (app p).
Proof. intros H. apply page_eq in H as (H1 & H2 & H3). unfold Display. by rewrite H1. Qed.

Lemma DisplayA_same p p' :
  calls p' = calls p → videoUrl p' = videoUrl p →
  page (app p') = page (app p) → DisplayA p → DisplayA p'.
Proof.
  intros Hc Hv Hp. apply page_same in Hp as (H1 & H2 & H3).
  unfold DisplayA, onlyCall, busy, Display, errorShown.
  by rewrite Hc, Hv, H1, H2, H3.
Qed.

Lemma DisplayA_reset p p' :
  calls p' = calls p → page (app p') = (IDLE, None, None) →
  busy p = false → DisplayA p'.
Proof.
  intros Hc Hp Hb. left. split; [unfold busy in *; by rewrite Hc|].
  by apply idle_page_Display.
Qed.

Lemma DisplayA_waiting p i w :
  DisplayA p → calls p !! i = Some (Some w) →
  onlyCall i w p ∧ status (app p) = statusOf w ∧ error (app p) = None
  ∧ videoUrl p = true.
Proof.
  intros [[Hb _]|(i' & w' & Ho & Hst & He & Hv)] Hi.
  - by rewrite (busy_true p i w Hi) in Hb.
  - destruct Ho as [Hi' Hu]. assert (i = i') as -> by by eapply Hu.
    assert (w' = w) as -> by congruence. done.
Qed.

Lemma step_DisplayA e p :
  offered e p = true → patient e p = true → DisplayA p → DisplayA (step p e).
Proof.
  intros He Hpat Hp.
  destruct e as [| |i m|i r|i r|e]; cbn [step].
  - apply (DisplayA_reset p); [done| |by apply negb_true_iff in Hpat].
    apply clearResults_page.
  - cbn [offered] in He. apply andb_prop in He as [Hv Hen]. rewrite Hv.
    apply negb_true_iff in Hen. unfold startDisabled in Hen.
    destruct Hp as [[Hb Hd]|(i & w & _ & Hst & _)];
      [|rewrite Hst in Hen; by destruct w].
    right. exists (length (calls p)), AwaitFrames. split_and!; try done.
    + split; [by apply lookup_last|]. cbn [calls].
      intros j w' Hj.
      destruct (decide (j < length (calls p))%nat) as [Hlt|Hge].
      * rewrite lookup_app_l in Hj by done.
        by destruct (proj1 (busy_false p) Hb j w').
      * apply lookup_lt_Some in Hj. rewrite length_app in Hj. cbn in Hj. lia.
    + unfold Display in Hd. cbn. destruct (status (app p)); try done;
        by destruct Hd.
  - destruct (calls p !! i) as [[[| |a]|]|] eqn:Hi; try done.
    destruct (DisplayA_waiting p i _ Hp Hi) as (Ho & Hst & Herr & Hv).
    rewrite Hv. right. exists i, AwaitAnalysis.
    split; [exact (onlyCall_settle _ _ _ _ _ Ho)|]. done.
  - destruct (calls p !! i) as [[[| |a]|]|] eqn:Hi; try done.
    destruct (DisplayA_waiting p i _ Hp Hi) as (Ho & Hst & Herr & Hv).
    destruct r as [a|msg].
    + right. exists i, (AwaitSpeech a).
      split; [exact (onlyCall_settle _ _ _ _ _ Ho)|]. done.
    + left. split; [exact (onlyCall_returned _ _ _ _ Ho)|]. apply catch_Display.
  - destruct (calls p !! i) as [[[| |a]|]|] eqn:Hi; try done.
    destruct (DisplayA_waiting p i _ Hp Hi) as (Ho & Hst & Herr & Hv).
    destruct r as [d|msg].
    + left. split; [exact (onlyCall_returned _ _ _ _ Ho)|].
      cbn [settle on_app app]. rewrite finish_atomic.
      pose proof (processVideo_page (Resolved a) (Resolved d) (app p)) as H.
      apply page_eq in H as (H1 & H2 & H3).
      unfold Display, Narrator.step. cbn [handle].
      by rewrite H1, H2, H3, Herr.
    + left. split; [exact (onlyCall_returned _ _ _ _ Ho)|]. apply catch_Display.
  - destruct e as [analyzed spoken|c| | |j|]; try done.
    + apply (DisplayA_same p); try done.
      by apply (audio_event_page (Click c)).
    + apply (DisplayA_reset p); [done| |by apply negb_true_iff in Hpat].
      apply clearResults_page.
    + apply (DisplayA_reset p); [done| |by apply negb_true_iff in Hpat].
      apply clearResults_page.
    + apply (DisplayA_same p); try done.
      by apply (audio_event_page (Ended j)).
    + apply (DisplayA_same p); try done.
      by apply (audio_event_page Unmount).
Qed.

Lemma run_DisplayA es p :
  feasible es p = true → unhurried es p = true →
  DisplayA p → DisplayA (run es p).
Proof.
  revert p. induction es as [|e es IH]; intros p Hf Hu Hp; [done|].
  cbn [feasible] in Hf. apply andb_prop in Hf as [He Hf].
  cbn [unhurried] in Hu. apply andb_prop in Hu as [Hpat Hu].
  apply IH; [done|done|]. by apply step_DisplayA.
Qed.

(** The state a failure with no result leaves. *)
Lemma stuck_stepA e p :
  status (app p) = ERROR → result (app p) = None → busy p = false →
  videoUrl p = true → offered e p = true → e ≠ Sync ResetAll →
  page (app (step p e)) = page (app p) ∧ calls (step p e) = calls p
  ∧ videoUrl (step p e) = true.
Proof.
  intros Hst Hres Hb Hv He Hne.
  pose proof (proj1 (busy_false p) Hb) as Hnone.
  destruct e as [| |i m|i r|i r|e]; cbn [step].
  - cbn [offered] in He. by rewrite Hv in He.
  - cbn [offered] in He. unfold startDisabled in He.
    rewrite Hst, Hv in He. done.
  - destruct (calls p !! i) as [[w|]|] eqn:Hi; try done.
    by destruct (Hnone i w).
  - destruct (calls p !! i) as [[w|]|] eqn:Hi; try done.
    by destruct (Hnone i w).
  - destruct (calls p !! i) as [[w|]|] eqn:Hi; try done.
    by destruct (Hnone i w).
  - destruct e as [analyzed spoken|c| | |j|]; try done.
    + split; [|done]. by apply (audio_event_page (Click c)).
    + cbn [offered] in He. unfold resultShown in He. rewrite Hres in He.
      rewrite bool_decide_eq_false_2 in He; [done|]. by intros [? ?].
    + split; [|done]. by apply (audio_event_page (Ended j)).
    + split; [|done]. by apply (audio_event_page Unmount).
Qed.

Lemma stuck_runA es p :
  status (app p) = ERROR → result (app p) = None → busy p = false →
  videoUrl p = true → feasible es p = true → Sync ResetAll ∉ es →
  page (app (run es p)) = page (app p).
Proof.
  revert p. induction es as [|e es IH]; intros p Hst Hres Hb Hv Hf Hr; [done|].
  cbn [feasible] in Hf. apply andb_prop in Hf as [He Hf].
  apply not_elem_of_cons in Hr as [Hne Hr].
  destruct (stuck_stepA e p Hst Hres Hb Hv He ltac:(congruence))
    as (Hp & Hc & Hv').
  destruct (page_same _ _ Hp) as (H1 & H2 & H3).
  cbn [run foldl]. change (foldl step (step p e) es) with (run es (step p e)).
  rewrite IH; try done; try congruence.
  unfold busy in *. by rewrite Hc.
Qed.

End AsyncFacts.

(** ** The component await by await *)

Section TasksFacts.

Import WebAudio Narrator NarratorTasks.
Import NarratorAsync (Page, app, videoUrl, calls).

Lemma firstPending_None t : quiescent (jobs t) → firstPending t = None.
Proof.
  intros Hq. unfold firstPending.
  destruct (list_find is_Some (jobs t)) as [[i x]|] eqn:E; [|done].
  apply list_find_Some in E as (Hi & Hx & _).
  eapply Forall_lookup_1 in Hq; [|done]. subst x. by destruct Hx.
Qed.

Lemma firstPending_Some t l j r :
  jobs t = l ++ Some j :: r → quiescent l → firstPending t = Some (length l).
Proof.
  intros Hj Hq. unfold firstPending.
  assert (list_find is_Some (jobs t) = Some (length l, Some j)) as ->; [|done].
  apply list_find_Some. rewrite Hj. split_and!.
  - by rewrite lookup_app_r, Nat.sub_diag.
  - by eexists.
  - intros i x Hi Hlt. rewrite lookup_app_l in Hi by done.
    eapply Forall_lookup_1 in Hq; [|done]. subst x. by intros [? ?].
Qed.

Lemma settleAll_quiescent n t : quiescent (jobs t) → settleAll n t = t.
Proof. intros Hq. destruct n; [done|]. cbn. by rewrite firstPending_None. Qed.

Lemma weight_app l1 l2 :
  sum_list (weight <$> (l1 ++ l2))
  = (sum_list (weight <$> l1) + sum_list (weight <$> l2))%nat.
Proof. induction l1 as [|x l1 IH]; [done|]. cbn. rewrite IH. lia. Qed.

Lemma weight_quiescent l : quiescent l → sum_list (weight <$> l) = 0%nat.
Proof.
  induction 1 as [|x l -> _ IH]; [done|]. cbn. exact IH.
Qed.

Lemma component_eq {A} (m : M State A) t :
  component m t = ((m (app (page t))).1, set_app (m (app (page t))).2 t).
Proof. exact (zoom_eq (λ t, app (page t)) set_app m t). Qed.

Lemma exec_component {A} (m : M State A) t :
  exec (component m) t = set_app (exec m (app (page t))) t.
Proof. unfold exec. by rewrite component_eq. Qed.

Lemma settled_simple j t :
  simple j → exec (settled j) t = set_app (exec (flush j) (app (page t))) t.
Proof. destruct j; try done; intros _; apply exec_component. Qed.

Lemma with_app_same p : with_app (app p) p = p.
Proof. by destruct p. Qed.

Lemma insert_pending (l : list (option Job)) j r :
  <[length l := None]> (l ++ Some j :: r) = (l ++ [None]) ++ r.
Proof.
  rewrite insert_app_r_alt by lia. rewrite Nat.sub_diag. cbn.
  by rewrite <- app_assoc.
Qed.

Lemma quiescent_snoc l : quiescent l → quiescent (l ++ [None]).
Proof. intros Hq. apply Forall_app. split; [done|]. by apply Forall_singleton. Qed.

Lemma settled_PlayResumed c d t :
  exec (settled (PlayResumed c d)) t =
  let t1 := set_app (exec (platform (resume c)) (app (page t))) t in
  match (platform (resume c) (app (page t))).1 with
  | Done _ =>
      match Base64.decode d with
      | Ok bytes =>
          match decodeAudioData bytes c 24000 1 with
          | Ok b => add_job (PlayDecoded c b) t1
          | Err _ => t1
          end
      | Err _ => t1
      end
  | Threw _ => t1
  end.
Proof.
  cbn [settled]. unfold exec at 1, bind at 1. rewrite component_eq.
  unfold exec.
  destruct (platform (resume c) (app (page t))) as [[[]|e] s1]; cbn [fst snd];
    [|done].
  unfold decodeBuffer, bind. rewrite component_eq. cbn [page app set_app].
  destruct (Base64.decode d) as [bytes|e]; cbn [lift ret throw fst snd];
    [|done].
  rewrite component_eq. cbn [page app set_app].
  by destruct (decodeAudioData bytes c 24000 1) as [b|e].
Qed.

Lemma flush_PlayResumed c d s :
  exec (flush (PlayResumed c d)) s =
  let s1 := exec (platform (resume c)) s in
  match (platform (resume c) s).1 with
  | Done _ =>
      match Base64.decode d with
      | Ok bytes =>
          match decodeAudioData bytes c 24000 1 with
          | Ok b => exec (playBuffer c b) s1
          | Err _ => s1
          end
      | Err _ => s1
      end
  | Threw _ => s1
  end.
Proof.
  cbn [flush]. unfold exec at 1, bind at 1. unfold exec.
  destruct (platform (resume c) s) as [[[]|e] s1]; cbn [fst snd]; [|done].
  unfold bind.
  destruct (Base64.decode d) as [bytes|e]; cbn [lift ret throw fst snd];
    [|done].
  by destruct (decodeAudioData bytes c 24000 1) as [b|e].
Qed.

Lemma owed_cons j js :
  sum_list ((λ j, weight (Some j)) <$> j :: js)
  = (weight (Some j) + sum_list ((λ j, weight (Some j)) <$> js))%nat.
Proof. reflexivity. Qed.

Lemma settleAll_flush n : ∀ js l t,
  jobs t = l ++ (Some <$> js) → quiescent l → inOrder js →
  (sum_list ((λ j, weight (Some j)) <$> js) ≤ n)%nat →
  page (settleAll n t) = with_app (flushAll js (app (page t))) (page t)
  ∧ quiescent (jobs (settleAll n t)).
Proof.
  induction n as [|n IH]; intros js l t Hj Hq Ho Hn.
  - destruct js as [|j js];
      [|rewrite owed_cons in Hn; destruct j; cbn [weight] in Hn; lia].
    cbn in *. rewrite app_nil_r in Hj. rewrite with_app_same, Hj. done.
  - destruct js as [|j js].
    { cbn in Hj. rewrite app_nil_r in Hj.
      rewrite settleAll_quiescent by (by rewrite Hj).
      cbn. by rewrite with_app_same, Hj. }
    cbn [fmap list_fmap] in Hj. rewrite owed_cons in Hn.
    cbn [settleAll]. rewrite (firstPending_Some t l j _ Hj Hq).
    assert (step t (Settled (length l))
            = exec (settled j)
                {| page := page t;
                   jobs := (l ++ [None]) ++ (Some <$> js) |}) as ->.
    { cbn [step]. rewrite Hj, insert_pending.
      by rewrite lookup_app_r, Nat.sub_diag by lia. }
    destruct Ho as [Hs Ho].
    assert (simple j ∨ ∃ c d, j = PlayResumed c d) as [Hsim|(c & d & ->)]
      by (destruct j; eauto; by left).
    + rewrite (settled_simple j _ Hsim). cbn [page app jobs set_app].
      edestruct (IH js (l ++ [None])
                   (set_app (exec (flush j) (app (page t)))
                      {| page := page t;
                         jobs := (l ++ [None]) ++ (Some <$> js) |}))
        as [H1 H2]; [done | by apply quiescent_snoc | done | |].
      { generalize dependent (sum_list ((λ j, weight (Some j)) <$> js)).
        intros w Hw. destruct j; cbn [weight simple] in Hw, Hsim; try done; lia. }
      split; [|exact H2]. rewrite H1. cbn [page app set_app videoUrl calls].
      done.
    + destruct Hs as [Hs| ->]; [done|].
      cbn [fmap list_fmap] in *. rewrite app_nil_r.
      rewrite settled_PlayResumed. cbn [flushAll foldl].
      rewrite flush_PlayResumed. cbn [page app].
      set (s1 := exec (platform (resume c)) (app (page t))).
      destruct (platform (resume c) (app (page t))).1 as [[]|e];
        [destruct (Base64.decode d) as [bytes|e];
         [destruct (decodeAudioData bytes c 24000 1) as [b|e]|]|];
        try (rewrite settleAll_quiescent by (by apply quiescent_snoc);
             split; [done | by apply quiescent_snoc]).
      edestruct (IH [PlayDecoded c b] (l ++ [None])
                   (add_job (PlayDecoded c b)
                      (set_app s1 {| page := page t; jobs := l ++ [None] |})))
        as [H1 H2]; [done | by apply quiescent_snoc | by split; [left|] | |].
      { cbn [weight] in Hn. cbn. lia. }
      split; [|exact H2]. rewrite H1. done.
Qed.

Ltac norm :=
  cbv [set_audio set_sources set_contexts set_activeSourceRef
       set_audioContextRef set_isPlaying set_isPaused];
  cbn [status result error isPlaying isPaused audioContextRef
       activeSourceRef downloads audio sources contexts allowedToStart
       fst snd].

Lemma add_jobs_nil t : add_jobs [] t = t.
Proof. destruct t. unfold add_jobs. cbn. by rewrite app_nil_r. Qed.

Lemma bind_component {A B} (m : M State A) (k : A → M Tab B) t :
  bind (component m) k t =
  match (m (app (page t))).1 with
  | Done a => k a (set_app (m (app (page t))).2 t)
  | Threw e => (Threw e, set_app (m (app (page t))).2 t)
  end.
Proof. exact (bind_zoom (λ t, app (page t)) set_app m k t). Qed.

Lemma bind_post {B} j (k : unit → M Tab B) t :
  bind (post j) k t = k tt (add_job j t).
Proof. reflexivity. Qed.

Lemma set_app_same t : set_app (app (page t)) t = t.
Proof. by destruct t as [[s v cs] js]. Qed.

Lemma set_app_twice s s' t : set_app s (set_app s' t) = set_app s t.
Proof. reflexivity. Qed.

Ltac tab :=
  repeat first
    [ rewrite bind_bind
    | rewrite bind_ret
    | rewrite bind_post
    | rewrite bind_component;
      cbn [gets modify ret throw lift try_catch detach fst snd
           setIsPlaying setIsPaused setResult setError setStatus]
    | rewrite set_app_same
    | rewrite set_app_twice
    | progress cbn [page app jobs videoUrl calls set_app add_job] ].

Lemma stopAudio_tab t :
  NarratorTasks.stopAudio t
  = (Done tt, add_jobs (resumeAsked (app (page t)))
                (set_app (stoppedNow (app (page t))) t)).
Proof.
  destruct t as [[[st res err pl pa cref src dl au] v cs] js].
  unfold NarratorTasks.stopAudio, stoppedNow, resumeAsked, add_jobs.
  cbn [page app jobs videoUrl calls audioContextRef activeSourceRef audio
       status result error downloads haltRef set_app].
  tab. norm.
  destruct src as [i|]; tab; norm.
  - unfold platform. rewrite zoom_eq. norm.
    change (stop i au).2 with (haltRef (Some i) au).
    destruct cref as [c|]; tab; norm.
    + rewrite zoom_eq, contextState_eq. norm.
      rewrite (stateOf_haltRef (Some i) c au). cbn [haltRef].
      destruct (stateOf c au); tab; norm; by rewrite ?app_nil_r.
    + by rewrite app_nil_r.
  - destruct cref as [c|]; tab; norm.
    + unfold platform. rewrite zoom_eq, contextState_eq. norm.
      destruct (stateOf c au); tab; norm; by rewrite ?app_nil_r.
    + by rewrite app_nil_r.
Qed.

Lemma exec_detach_platform (m : M Audio unit) s :
  exec (detach (platform m)) s = set_audio (exec m (audio s)) s.
Proof. unfold exec, detach, platform. by rewrite zoom_eq. Qed.

Lemma flush_resumeAsked s :
  flushAll (resumeAsked s) (stoppedNow s) = afterStop s.
Proof.
  unfold resumeAsked, afterStop, stoppedNow, resumeRef.
  destruct (audioContextRef s) as [c|] eqn:Hc; [|done].
  rewrite (stateOf_haltRef (activeSourceRef s) c (audio s)).
  destruct (stateOf c (audio s)) eqn:E; try done.
  cbn [flushAll foldl flush]. by rewrite exec_detach_platform.
Qed.

Lemma inOrder_resumeAsked s : inOrder (resumeAsked s).
Proof.
  unfold resumeAsked. destruct (audioContextRef s) as [c|]; [|done].
  destruct (stateOf c (audio s)); try done. cbn. auto.
Qed.

Lemma playBuffer_on c b s : playBuffer c b s = (Done tt, launchedOn c b s).
Proof.
  destruct s as [st res err pl pa cref src dl [al cs ns]]. cbn.
  unfold playBuffer, launchedOn, platform. norm.
  rewrite !alter_last. rewrite bind_zoom. norm.
  erewrite start_unscheduled; [|apply lookup_last|reflexivity].
  norm. by rewrite alter_last.
Qed.

Lemma playBuffer_eq c b s :
  audioContextRef s = Some c → playBuffer c b s = (Done tt, launched b s).
Proof.
  intros Hc. rewrite playBuffer_on. unfold launchedOn, launched.
  by rewrite Hc.
Qed.

Lemma decodeBuffer_tab c d t :
  exec (decodeBuffer c d) t = add_jobs (decodeAsked c d) t.
Proof.
  unfold exec, decodeBuffer, decodeAsked. tab.
  destruct (Base64.decode d) as [bytes|e]; cbn [lift ret throw fst snd]; tab;
    [|by rewrite add_jobs_nil].
  destruct (decodeAudioData bytes c 24000 1) as [b|e];
    cbn [lift ret throw fst snd]; tab; [done | by rewrite add_jobs_nil].
Qed.

Lemma add_jobs_app js1 js2 t :
  add_jobs js2 (add_jobs js1 t) = add_jobs (js1 ++ js2) t.
Proof. unfold add_jobs. cbn. by rewrite fmap_app, app_assoc. Qed.

Lemma startNewAudio_tab d t :
  exec (NarratorTasks.startNewAudio d) t
  = add_jobs (playAsked d (app (page t)))
      (set_app (ensuredNow (app (page t))) t).
Proof.
  unfold exec, NarratorTasks.startNewAudio.
  rewrite (bind_Done _ _ _ _ _ (stopAudio_tab t)).
  destruct t as [[[st res err pl pa cref src dl au] v cs] js].
  unfold playAsked, ensuredNow, stoppedNow, add_jobs.
  cbn [page app jobs videoUrl calls audioContextRef activeSourceRef audio
       status result error downloads set_app].
  generalize (resumeAsked
       {| status := st; result := res; error := err; isPlaying := pl;
          isPaused := pa; audioContextRef := cref; activeSourceRef := src;
          downloads := dl; audio := au |}). intros rs.
  generalize (haltRef src au). intros [al cs' ns].
  tab. norm.
  destruct cref as [c|]; cbn [contextOf ensured]; tab; norm.
  - unfold platform. rewrite zoom_eq, contextState_eq. norm.
    destruct (stateOf c _); tab; norm.
    + pose proof (decodeBuffer_tab c d) as H. unfold exec in H. rewrite H.
      unfold add_jobs. cbn. by rewrite fmap_app, app_assoc.
    + by rewrite fmap_app, app_assoc.
    + pose proof (decodeBuffer_tab c d) as H. unfold exec in H. rewrite H.
      unfold add_jobs. cbn. by rewrite fmap_app, app_assoc.
  - unfold platform. rewrite zoom_eq. cbv [newAudioContext]. norm. tab. norm.
    rewrite zoom_eq, contextState_eq. norm. unfold exec. norm.
    destruct (stateOf (length cs') _); tab; norm.
    + pose proof (decodeBuffer_tab (length cs') d) as H. unfold exec in H.
      rewrite H. unfold add_jobs. cbn. by rewrite fmap_app, app_assoc.
    + by rewrite fmap_app, app_assoc.
    + pose proof (decodeBuffer_tab (length cs') d) as H. unfold exec in H.
      rewrite H. unfold add_jobs. cbn. by rewrite fmap_app, app_assoc.
Qed.

Lemma flushAll_app js1 js2 s :
  flushAll (js1 ++ js2) s = flushAll js2 (flushAll js1 s).
Proof. apply foldl_app. Qed.

Lemma with_state_same ctx : with_state (state ctx) ctx = ctx.
Proof. by destruct ctx. Qed.

Lemma resume_running c a :
  stateOf c a = running → resume c a = (Done tt, a).
Proof.
  intros E. destruct (stateOf_running _ _ E) as (ctx & Hc & Hs).
  unfold resume. erewrite transition_open; [|done|by rewrite Hs].
  f_equal. destruct a as [al cs ns]. unfold set_contexts. cbn in *. f_equal.
  apply alter_fixed. intros x Hx. rewrite Hc in Hx. injection Hx as <-.
  rewrite <- Hs. apply with_state_same.
Qed.

Lemma exec_platform {A} (m : M Audio A) s :
  exec (platform m) s = set_audio (exec m (audio s)) s.
Proof. unfold exec, platform. by rewrite zoom_eq. Qed.

Lemma fst_platform {A} (m : M Audio A) s :
  (platform m s).1 = (m (audio s)).1.
Proof. unfold platform. by rewrite zoom_eq. Qed.

(** The state in which [startNewAudio] decodes, reached by the requests
    it has made. *)
Lemma prepared_flush d s :
  let c := contextOf (audioContextRef s)
                     (haltRef (activeSourceRef s) (audio s)) in
  match stateOf c (audio (ensuredNow s)) with
  | suspended =>
      resumeAsked s ++ [PlayResumed c d] = playAsked d s
      ∧ ∃ s1, flushAll (resumeAsked s) (ensuredNow s) = s1
              ∧ platform (resume c) s1 = (Done tt, prepared s)
  | _ =>
      resumeAsked s = [] ∧ decodeAsked c d = playAsked d s
      ∧ ensuredNow s = prepared s
  end.
Proof.
  intros c. subst c. unfold playAsked.
  destruct s as [st res err pl pa cref src dl au].
  unfold ensuredNow, prepared, afterStop, resumeAsked.
  cbn [audioContextRef activeSourceRef audio status result error downloads].
  destruct cref as [c|]; cbn [contextOf ensured resumeRef].
  - rewrite (stateOf_haltRef src c au).
    destruct (stateOf c au) eqn:E.
    + split; [done|]. split; [done|].
      by rewrite (stateOf_haltRef src c au), E.
    + split; [done|]. eexists. split; [done|].
      cbn [flushAll foldl flush]. rewrite exec_detach_platform.
      cbn [audio].
      assert (stateOf c (exec (resume c) (haltRef src au)) = running) as E'
        by (apply stateOf_resumed; by rewrite stateOf_haltRef).
      rewrite E'. unfold platform. rewrite zoom_eq. cbn [audio set_audio].
      by rewrite (resume_running _ _ E').
    + split; [done|]. split; [done|].
      by rewrite (stateOf_haltRef src c au), E.
  - set (a := haltRef src au).
    set (c := length (contexts a)).
    destruct (stateOf c (exec (newAudioContext 24000) a)) eqn:E.
    + split; [done|]. split; [done|]. done.
    + split; [done|]. eexists. split; [done|]. cbn [flushAll foldl].
      unfold platform. rewrite zoom_eq. cbn [audio set_audio].
      rewrite (resume_suspended _ _ E). cbn [fst snd].
      pose proof (resume_suspended _ _ E) as R.
      apply (f_equal snd) in R. cbn [snd] in R. fold (exec (resume c)) in R.
      unfold exec in R |- *. by rewrite R.
    + split; [done|]. split; [done|]. done.
Qed.

Lemma contextOf_afterStop s :
  contextOf (audioContextRef s) (audio (afterStop s))
  = contextOf (audioContextRef s)
              (haltRef (activeSourceRef s) (audio s)).
Proof. unfold afterStop. cbn [audio]. by destruct (audioContextRef s). Qed.

Lemma prepared_ref s :
  audioContextRef (prepared s)
  = Some (contextOf (audioContextRef s)
                    (haltRef (activeSourceRef s) (audio s))).
Proof. unfold prepared. cbn [audioContextRef]. by rewrite contextOf_afterStop. Qed.

Lemma flush_decodeAsked d s :
  flushAll
    (decodeAsked (contextOf (audioContextRef s)
                    (haltRef (activeSourceRef s) (audio s))) d)
    (prepared s)
  = exec (Narrator.startNewAudio d) s.
Proof.
  unfold exec. rewrite startNewAudio_eq, contextOf_afterStop.
  unfold decodeAsked.
  destruct (Base64.decode d) as [bytes|e]; [|done].
  destruct (decodeAudioData bytes _ 24000 1) as [b|e]; [|done].
  cbn [flushAll foldl flush]. unfold exec.
  by rewrite (playBuffer_eq _ _ _ (prepared_ref s)).
Qed.

Lemma flush_playAsked d s :
  flushAll (playAsked d s) (ensuredNow s) = exec (Narrator.startNewAudio d) s.
Proof.
  pose proof (prepared_flush d s) as H. cbn zeta in H.
  destruct (stateOf _ (audio (ensuredNow s))).
  - destruct H as (Hr & <- & ->). apply flush_decodeAsked.
  - destruct H as (<- & s1 & Hs1 & Hres).
    rewrite flushAll_app, Hs1. cbn [flushAll foldl].
    rewrite flush_PlayResumed. cbn zeta.
    assert (exec (platform (resume (contextOf (audioContextRef s)
              (haltRef (activeSourceRef s) (audio s))))) s1 = prepared s)
      as -> by (unfold exec; by rewrite Hres).
    rewrite Hres. cbn [fst snd].
    pose proof (flush_decodeAsked d s) as Hd. unfold decodeAsked in Hd.
    destruct (Base64.decode d) as [bytes|e]; [|done].
    by destruct (decodeAudioData bytes _ 24000 1) as [b|e].
  - destruct H as (Hr & <- & ->). apply flush_decodeAsked.
Qed.

Lemma inOrder_app js1 js2 :
  Forall simple js1 → inOrder js2 → inOrder (js1 ++ js2).
Proof.
  induction 1 as [|j js1 Hj _ IH]; [done|]. intros H2. cbn. auto.
Qed.

Lemma simple_resumeAsked s : Forall simple (resumeAsked s).
Proof.
  unfold resumeAsked. destruct (audioContextRef s) as [c|]; [|done].
  destruct (stateOf c (audio s)); try done. by apply Forall_singleton.
Qed.

Lemma inOrder_decodeAsked c d : inOrder (decodeAsked c d).
Proof.
  unfold decodeAsked. destruct (Base64.decode d) as [bytes|e]; [|done].
  destruct (decodeAudioData bytes c 24000 1) as [b|e]; [|done]. cbn. auto.
Qed.

Lemma inOrder_playAsked d s : inOrder (playAsked d s).
Proof.
  unfold playAsked. apply inOrder_app; [apply simple_resumeAsked|].
  destruct (stateOf _ _); try apply inOrder_decodeAsked. cbn. auto.
Qed.

(** *** A handler with its promises settled *)

Lemma drain_add_jobs js t :
  quiescent (jobs t) → inOrder js →
  page (drain (add_jobs js t))
  = with_app (flushAll js (app (page t))) (page t)
  ∧ quiescent (jobs (drain (add_jobs js t))).
Proof.
  intros Hq Ho. unfold drain.
  apply (settleAll_flush _ js (jobs t) (add_jobs js t)); try done.
  cbn [add_jobs jobs]. rewrite weight_app, (weight_quiescent _ Hq).
  by rewrite <- list_fmap_compose.
Qed.

Lemma drain_quiescent t : quiescent (jobs t) → drain t = t.
Proof. intros Hq. by apply settleAll_quiescent. Qed.

Lemma add_jobs_set_app js s t :
  add_jobs js (set_app s t) = set_app s (add_jobs js t).
Proof. reflexivity. Qed.

Lemma drain_set_app js s t :
  quiescent (jobs t) → inOrder js →
  page (drain (add_jobs js (set_app s t)))
  = with_app (flushAll js s) (page t)
  ∧ quiescent (jobs (drain (add_jobs js (set_app s t)))).
Proof.
  intros Hq Ho.
  destruct (drain_add_jobs js (set_app s t) Hq Ho) as [H1 H2].
  split; [|done]. by rewrite H1.
Qed.

Lemma exec_stopAudio_tab t :
  exec NarratorTasks.stopAudio t
  = add_jobs (resumeAsked (app (page t)))
      (set_app (stoppedNow (app (page t))) t).
Proof. unfold exec. by rewrite stopAudio_tab. Qed.

Lemma drain_stopAudio t :
  quiescent (jobs t) →
  page (drain (exec NarratorTasks.stopAudio t))
  = NarratorAsync.on_app Narrator.stopAudio (page t)
  ∧ quiescent (jobs (drain (exec NarratorTasks.stopAudio t))).
Proof.
  intros Hq. rewrite exec_stopAudio_tab.
  destruct (drain_set_app (resumeAsked (app (page t)))
              (stoppedNow (app (page t))) t Hq)
    as [H1 H2].
  { rewrite <- (app_nil_r (resumeAsked _)).
    apply inOrder_app; [apply simple_resumeAsked | done]. }
  split; [|done]. rewrite H1, flush_resumeAsked.
  unfold NarratorAsync.on_app, exec. by rewrite stopAudio_eq.
Qed.

Lemma drain_startNewAudio d t :
  quiescent (jobs t) →
  page (drain (exec (NarratorTasks.startNewAudio d) t))
  = NarratorAsync.on_app (Narrator.startNewAudio d) (page t)
  ∧ quiescent (jobs (drain (exec (NarratorTasks.startNewAudio d) t))).
Proof.
  intros Hq. rewrite startNewAudio_tab.
  destruct (drain_set_app (playAsked d (app (page t)))
              (ensuredNow (app (page t))) t Hq (inOrder_playAsked _ _))
    as [H1 H2].
  split; [|done]. by rewrite H1, flush_playAsked.
Qed.

Lemma exec_detach {St} (m : M St unit) s : exec (detach m) s = exec m s.
Proof. reflexivity. Qed.

Lemma on_app_ret p : NarratorAsync.on_app (ret tt) p = p.
Proof. by destruct p. Qed.

Lemma drain_whenTruthy data t :
  quiescent (jobs t) →
  let m := NarratorTasks.whenTruthy data
             (λ d, detach (NarratorTasks.startNewAudio d)) in
  page (drain (exec m t))
  = NarratorAsync.on_app
      (Narrator.whenTruthy data (λ d, detach (Narrator.startNewAudio d)))
      (page t)
  ∧ quiescent (jobs (drain (exec m t))).
Proof.
  intros Hq m. subst m.
  unfold NarratorTasks.whenTruthy, Narrator.whenTruthy.
  destruct data as [d|]; [destruct (truthy (Some d))|].
  - rewrite exec_detach. apply drain_startNewAudio, Hq.
  - rewrite drain_quiescent by done. by rewrite on_app_ret.
  - rewrite drain_quiescent by done. by rewrite on_app_ret.
Qed.

Lemma togglePlayback_tab t :
  let s := app (page t) in
  exec NarratorTasks.togglePlayback t =
  match audioContextRef s with
  | None => t
  | Some c =>
      if isPaused s then add_jobs [ToggleResumed c] t
      else if isPlaying s then add_jobs [ToggleSuspended c] t
      else exec (NarratorTasks.whenTruthy (resultAudio s)
                   (λ d, detach (NarratorTasks.startNewAudio d))) t
  end.
Proof.
  intros s. subst s. unfold exec, NarratorTasks.togglePlayback. tab.
  destruct (audioContextRef (app (page t))) as [c|]; [|done]. tab.
  destruct (isPaused (app (page t))); [done|].
  by destruct (isPlaying (app (page t))).
Qed.

Lemma togglePlayback_flush s :
  exec Narrator.togglePlayback s =
  match audioContextRef s with
  | None => s
  | Some c =>
      if isPaused s then exec (flush (ToggleResumed c)) s
      else if isPlaying s then exec (flush (ToggleSuspended c)) s
      else exec (Narrator.whenTruthy (resultAudio s)
                   (λ d, detach (Narrator.startNewAudio d))) s
  end.
Proof.
  unfold exec, Narrator.togglePlayback. rewrite bind_gets.
  destruct (audioContextRef s) as [c|]; [|done]. rewrite !bind_gets.
  destruct (isPaused s); [done|]. by destruct (isPlaying s).
Qed.

Lemma on_app_eq m p s :
  exec m (app p) = s → NarratorAsync.on_app m p = with_app s p.
Proof. by intros <-. Qed.

Lemma drain_togglePlayback t :
  quiescent (jobs t) →
  page (drain (exec NarratorTasks.togglePlayback t))
  = NarratorAsync.on_app Narrator.togglePlayback (page t)
  ∧ quiescent (jobs (drain (exec NarratorTasks.togglePlayback t))).
Proof.
  intros Hq. rewrite togglePlayback_tab. cbn zeta.
  rewrite (on_app_eq _ _ _ (togglePlayback_flush (app (page t)))).
  destruct (audioContextRef (app (page t))) as [c|] eqn:Hc.
  2:{ rewrite drain_quiescent by done. by rewrite with_app_same. }
  destruct (isPaused (app (page t))).
  { by destruct (drain_add_jobs [ToggleResumed c] t Hq) as [H1 H2];
      [by split; [left|]|]. }
  destruct (isPlaying (app (page t))).
  { by destruct (drain_add_jobs [ToggleSuspended c] t Hq) as [H1 H2];
      [by split; [left|]|]. }
  apply (drain_whenTruthy _ _ Hq).
Qed.

Lemma flush_resumeAsked_frame (f : State → State) s :
  (∀ a x, set_audio a (f x) = f (set_audio a x)) →
  (∀ x, audio (f x) = audio x) →
  flushAll (resumeAsked s) (f (stoppedNow s)) = f (afterStop s).
Proof.
  intros Hset Haud. rewrite <- flush_resumeAsked. unfold resumeAsked.
  destruct (audioContextRef s) as [c|]; [|done].
  destruct (stateOf c (audio s)); try done.
  cbn [flushAll foldl flush]. by rewrite !exec_detach_platform, Hset, Haud.
Qed.

Lemma clearResults_tab t :
  exec NarratorTasks.clearResults t
  = add_jobs (resumeAsked (app (page t)))
      (set_app (reset (stoppedNow (app (page t)))) t).
Proof.
  unfold exec, NarratorTasks.clearResults.
  rewrite (bind_Done _ _ _ _ _ (stopAudio_tab t)). by tab.
Qed.

Lemma stoppedNow_silent s :
  tracked s → ∀ j, ¬ isStarted j (audio (stoppedNow s)).
Proof.
  intros Ht j. unfold isStarted. cbn [stoppedNow audio].
  rewrite haltRef_sources.
  destruct (activeSourceRef s) as [i|] eqn:Hi; simpl.
  - rewrite started_halted. intros [Hne Hj]. apply Ht in Hj. congruence.
  - intros Hj. apply Ht in Hj. congruence.
Qed.

Lemma clearResults_completes t : completes NarratorTasks.clearResults t.
Proof.
  unfold completes, NarratorTasks.clearResults.
  rewrite (bind_Done _ _ _ _ _ (stopAudio_tab t)). tab. by eexists.
Qed.

Lemma resetAll_completes t : completes NarratorTasks.resetAll t.
Proof.
  unfold completes, NarratorTasks.resetAll.
  rewrite (bind_Done _ _ _ _ _ (stopAudio_tab t)). tab. by eexists.
Qed.

Lemma clearResults_reset s : exec Narrator.clearResults s = reset (afterStop s).
Proof.
  unfold exec, Narrator.clearResults.
  by rewrite (bind_Done _ _ _ _ _ (stopAudio_eq s)).
Qed.

Lemma drain_clearResults t :
  quiescent (jobs t) →
  page (drain (exec NarratorTasks.clearResults t))
  = NarratorAsync.on_app Narrator.clearResults (page t)
  ∧ quiescent (jobs (drain (exec NarratorTasks.clearResults t))).
Proof.
  intros Hq. rewrite clearResults_tab.
  destruct (drain_set_app (resumeAsked (app (page t)))
              (reset (stoppedNow (app (page t)))) t Hq)
    as [H1 H2].
  { rewrite <- (app_nil_r (resumeAsked _)).
    apply inOrder_app; [apply simple_resumeAsked | done]. }
  split; [|done]. rewrite H1, flush_resumeAsked_frame by done.
  by rewrite (on_app_eq _ _ _ (clearResults_reset _)).
Qed.

Lemma resetAll_tab t :
  exec NarratorTasks.resetAll t
  = add_jobs (resumeAsked (app (page t)))
      (set_videoUrl false (set_app (reset (stoppedNow (app (page t)))) t)).
Proof.
  unfold exec, NarratorTasks.resetAll.
  rewrite (bind_Done _ _ _ _ _ (stopAudio_tab t)). by tab.
Qed.

Lemma handleFileUpload_tab t :
  exec NarratorTasks.handleFileUpload t
  = add_jobs (resumeAsked (app (page t)))
      (set_videoUrl true (set_app (reset (stoppedNow (app (page t)))) t)).
Proof.
  unfold exec, NarratorTasks.handleFileUpload, NarratorTasks.resetAll.
  rewrite bind_bind, (bind_Done _ _ _ _ _ (stopAudio_tab t)). by tab.
Qed.

Lemma drain_resetAll t :
  quiescent (jobs t) →
  page (drain (exec NarratorTasks.resetAll t))
  = NarratorAsync.resetAll (page t)
  ∧ quiescent (jobs (drain (exec NarratorTasks.resetAll t))).
Proof.
  intros Hq. rewrite resetAll_tab.
  edestruct (drain_add_jobs (resumeAsked (app (page t)))
               (set_videoUrl false
                  (set_app (reset (stoppedNow (app (page t)))) t)))
    as [H1 H2]; [exact Hq| |].
  { rewrite <- (app_nil_r (resumeAsked _)).
    apply inOrder_app; [apply simple_resumeAsked | done]. }
  split; [|exact H2]. rewrite H1. cbn [page app set_videoUrl set_app].
  rewrite flush_resumeAsked_frame by done.
  unfold NarratorAsync.resetAll, with_app. cbn [videoUrl calls app].
  by rewrite <- clearResults_reset.
Qed.

Lemma drain_handleFileUpload t :
  quiescent (jobs t) →
  page (drain (exec NarratorTasks.handleFileUpload t))
  = NarratorAsync.handleFileUpload (page t)
  ∧ quiescent (jobs (drain (exec NarratorTasks.handleFileUpload t))).
Proof.
  intros Hq. rewrite handleFileUpload_tab.
  edestruct (drain_add_jobs (resumeAsked (app (page t)))
               (set_videoUrl true
                  (set_app (reset (stoppedNow (app (page t)))) t)))
    as [H1 H2]; [exact Hq| |].
  { rewrite <- (app_nil_r (resumeAsked _)).
    apply inOrder_app; [apply simple_resumeAsked | done]. }
  split; [|exact H2]. rewrite H1. cbn [page app set_videoUrl set_app].
  rewrite flush_resumeAsked_frame by done.
  unfold NarratorAsync.handleFileUpload, NarratorAsync.resetAll, with_app.
  cbn [videoUrl calls app].
  by rewrite <- clearResults_reset.
Qed.

Lemma unmount_tab t :
  exec NarratorTasks.unmount t =
  match audioContextRef (app (page t)) with
  | Some c => add_jobs [Close c] t
  | None => t
  end.
Proof.
  unfold exec, NarratorTasks.unmount. tab.
  by destruct (audioContextRef (app (page t))).
Qed.

Lemma unmount_flush s :
  exec Narrator.unmount s =
  match audioContextRef s with
  | Some c => exec (flush (Close c)) s
  | None => s
  end.
Proof.
  unfold exec, Narrator.unmount. rewrite bind_gets.
  by destruct (audioContextRef s).
Qed.

Lemma drain_unmount t :
  quiescent (jobs t) →
  page (drain (exec NarratorTasks.unmount t))
  = NarratorAsync.on_app Narrator.unmount (page t)
  ∧ quiescent (jobs (drain (exec NarratorTasks.unmount t))).
Proof.
  intros Hq. rewrite unmount_tab.
  rewrite (on_app_eq _ _ _ (unmount_flush (app (page t)))).
  destruct (audioContextRef (app (page t))) as [c|].
  - by destruct (drain_add_jobs [Close c] t Hq) as [H1 H2];
      [by split; [left|]|].
  - rewrite drain_quiescent by done. by rewrite with_app_same.
Qed.

Lemma drain_finish a d t :
  quiescent (jobs t) →
  page (drain (exec (NarratorTasks.finish a d) t))
  = NarratorAsync.on_app (NarratorAsync.finish a d) (page t)
  ∧ quiescent (jobs (drain (exec (NarratorTasks.finish a d) t))).
Proof.
  intros Hq.
  set (r := Some {| text := narration a; audioData := d;
                    thinkingProcess := Some (analysis a);
                    genreDetected := genre a |}).
  set (t1 := set_app (set_status COMPLETED (set_result r (app (page t)))) t).
  assert (exec (NarratorTasks.finish a d) t
          = exec (NarratorTasks.whenTruthy d
                    (λ d, detach (NarratorTasks.startNewAudio d))) t1) as ->.
  { unfold exec, NarratorTasks.finish. by tab. }
  destruct (drain_whenTruthy d t1 Hq) as [H1 H2]. split; [|done].
  rewrite H1. done.
Qed.

Lemma click_tab c t :
  exec (shown <- component (gets (rendered c)) ;;
        if shown then NarratorTasks.onClick c else ret tt)%handler t
  = if rendered c (app (page t)) then exec (NarratorTasks.onClick c) t
    else t.
Proof.
  unfold exec. tab. by destruct (rendered c (app (page t))).
Qed.

Lemma click_atomic c s :
  exec (handle (Click c)) s
  = if rendered c s then exec (Narrator.onClick c) s else s.
Proof.
  unfold exec. cbn [handle]. rewrite bind_gets. by destruct (rendered c s).
Qed.

Lemma drain_click c t :
  quiescent (jobs t) →
  let m := (shown <- component (gets (rendered c)) ;;
            if shown then NarratorTasks.onClick c else ret tt)%handler in
  page (drain (exec m t))
  = NarratorAsync.on_app (handle (Click c)) (page t)
  ∧ quiescent (jobs (drain (exec m t))).
Proof.
  intros Hq m. subst m. rewrite click_tab.
  rewrite (on_app_eq _ _ _ (click_atomic c (app (page t)))).
  destruct (rendered c (app (page t))).
  - destruct c; cbn [NarratorTasks.onClick Narrator.onClick].
    + apply (drain_togglePlayback t Hq).
    + apply (drain_stopAudio t Hq).
    + rewrite exec_component, drain_quiescent by done. done.
  - rewrite drain_quiescent by done. by rewrite with_app_same.
Qed.

(** *** Promises that settle before the next event *)

Lemma drain_step e t :
  quiescent (jobs t) →
  page (drain (step t (OnPage e))) = NarratorAsync.step (page t) e
  ∧ quiescent (jobs (drain (step t (OnPage e)))).
Proof.
  intros Hq.
  assert (∀ f, page (drain (on_page f t)) = f (page t)
               ∧ quiescent (jobs (drain (on_page f t)))) as Hsame.
  { intros f. by rewrite drain_quiescent. }
  destruct e as [| |i m|i r|i r|e]; try apply Hsame.
  - apply (drain_handleFileUpload t Hq).
  - destruct r as [d|msg]; [|apply Hsame].
    cbn [step NarratorAsync.step].
    destruct (calls (page t) !! i) as [[[| |a]|]|];
      try (by rewrite drain_quiescent).
    destruct (drain_finish a d (on_page (NarratorAsync.settle i None) t) Hq)
      as [H1 H2].
    split; [|done]. rewrite H1. done.
  - destruct e as [analyzed spoken|c| | |j|]; try apply Hsame.
    + apply (drain_click c t Hq).
    + apply (drain_clearResults t Hq).
    + apply (drain_resetAll t Hq).
    + apply (drain_unmount t Hq).
Qed.

Lemma runSettled_atomic es : ∀ t,
  quiescent (jobs t) →
  page (runSettled es t) = NarratorAsync.run es (page t)
  ∧ quiescent (jobs (runSettled es t)).
Proof.
  induction es as [|e es IH]; intros t Hq; [done|].
  destruct (drain_step e t Hq) as [H1 H2].
  cbn [runSettled NarratorAsync.run foldl].
  destruct (IH _ H2) as [H3 H4]. split; [|exact H4].
  unfold runSettled in H3. rewrite H3, H1. done.
Qed.

(** *** What every event and every settling keeps *)

Section TabKept.

Variable I : State → Prop.

Hypothesis I_status : ∀ v s, I s → I (set_status v s).
Hypothesis I_result : ∀ v s, I s → I (set_result v s).
Hypothesis I_error : ∀ v s, I s → I (set_error v s).
Hypothesis I_download :
  ∀ bytes s, I s → I (add_download (Wav.createWavBlob bytes 24000) s).
Hypothesis I_stopped : ∀ s, I s → I (stoppedNow s).
Hypothesis I_ensured : ∀ s, I s → I (ensuredNow s).
Hypothesis I_flush : ∀ j, simple j → preserves I (flush j).
Hypothesis I_resume : ∀ c, preserves I (platform (resume c)).
Hypothesis I_ended : ∀ i, preserves I (handle (Ended i)).

Lemma whenTruthy_tab_kept data t :
  I (app (page t)) →
  I (app (page (exec (NarratorTasks.whenTruthy data
                        (λ d, detach (NarratorTasks.startNewAudio d))) t))).
Proof.
  intros Ht. unfold NarratorTasks.whenTruthy.
  destruct data as [d|]; [destruct (truthy (Some d))|]; try done.
  rewrite exec_detach, startNewAudio_tab. by apply I_ensured.
Qed.

Lemma downloadAudio_tab_kept s : I s → I (exec downloadAudio s).
Proof.
  intros Hs. unfold exec, downloadAudio. rewrite bind_gets.
  unfold Narrator.whenTruthy.
  destruct (resultAudio s) as [d|]; [destruct (truthy (Some d))|]; try done.
  destruct (Base64.decode d) as [bytes|e]; [|done]. by apply I_download.
Qed.

Lemma page_step_kept e p :
  (∀ c, e ≠ NarratorAsync.Sync (Click c)) →
  e ≠ NarratorAsync.Sync ClearResults → e ≠ NarratorAsync.Sync Unmount →
  e ≠ NarratorAsync.Sync ResetAll → e ≠ NarratorAsync.FileChosen →
  (∀ i d, e ≠ NarratorAsync.Spoken i (Resolved d)) →
  I (app p) → I (app (NarratorAsync.step p e)).
Proof.
  intros H1 H2 H3 H4 H5 H6 Hp.
  destruct e as [| |i m|i r|i r|e]; cbn [NarratorAsync.step]; try done.
  - destruct (videoUrl p); [by apply I_status | done].
  - destruct (calls p !! i) as [[[| |a]|]|]; try done.
    destruct (videoUrl p); [by apply I_status | by apply I_status, I_error].
  - destruct (calls p !! i) as [[[| |a]|]|]; try done.
    destruct r; [by apply I_status | by apply I_status, I_error].
  - destruct (calls p !! i) as [[[| |a]|]|]; try done.
    destruct r as [d|msg]; [by destruct (H6 i d)|].
    by apply I_status, I_error.
  - destruct e as [analyzed spoken|c| | |j|]; try done.
    + by destruct (H1 c).
    + by apply I_ended.
Qed.

Lemma onPage_kept e t :
  I (app (page t)) → I (app (page (step t (OnPage e)))).
Proof.
  intros Ht.
  assert (I (reset (stoppedNow (app (page t))))) as Hreset
    by (by apply I_status, I_error, I_result, I_stopped).
  destruct e as [| |i m|i r|i r|e].
  - cbn [step]. by rewrite handleFileUpload_tab.
  - by apply page_step_kept.
  - by apply page_step_kept.
  - by apply page_step_kept.
  - destruct r as [d|msg]; [|by apply page_step_kept].
    cbn [step]. destruct (calls (page t) !! i) as [[[| |a]|]|]; try done.
    unfold exec, NarratorTasks.finish. tab.
    apply (whenTruthy_tab_kept d). cbn [page app set_app].
    by apply I_status, I_result.
  - destruct e as [analyzed spoken|c| | |j|];
      try (by apply page_step_kept).
    + cbn [step]. rewrite click_tab.
      destruct (rendered c (app (page t))); [|done].
      destruct c; cbn [NarratorTasks.onClick].
      * rewrite togglePlayback_tab. cbn zeta.
        destruct (audioContextRef (app (page t))); [|done].
        destruct (isPaused (app (page t))); [done|].
        destruct (isPlaying (app (page t))); [done|].
        by apply whenTruthy_tab_kept.
      * rewrite exec_stopAudio_tab. by apply I_stopped.
      * rewrite exec_component. by apply downloadAudio_tab_kept.
    + cbn [step]. by rewrite clearResults_tab.
    + cbn [step]. by rewrite resetAll_tab.
    + cbn [step]. rewrite unmount_tab.
      by destruct (audioContextRef (app (page t))).
Qed.

Lemma step_kept e t : I (app (page t)) → I (app (page (step t e))).
Proof.
  intros Ht. destruct e as [e|j]; [by apply onPage_kept|].
  cbn [step]. destruct (jobs t !! j) as [[job|]|]; try done.
  assert (simple job ∨ ∃ c d, job = PlayResumed c d) as [Hs|(c & d & ->)]
    by (destruct job; eauto; by left).
  - rewrite (settled_simple _ _ Hs). by apply I_flush.
  - rewrite settled_PlayResumed. cbn zeta. cbn [page app].
    assert (I (exec (platform (resume c)) (app (page t)))) as Hr
      by (by apply I_resume).
    destruct (platform (resume c) (app (page t))).1; [|done].
    destruct (Base64.decode d); [|done].
    by destruct (decodeAudioData _ _ _ _).
Qed.

Lemma run_kept es t : I (app (page t)) → I (app (page (run es t))).
Proof.
  revert t. induction es as [|e es IH]; intros t Ht; [done|].
  apply IH. by apply step_kept.
Qed.

End TabKept.

(** *** The flags and the source the controller holds *)

Lemma Held_frame s s' :
  isPlaying s' = isPlaying s → isPaused s' = isPaused s →
  activeSourceRef s' = activeSourceRef s →
  sources (audio s') = sources (audio s) →
  Held s → Held s'.
Proof.
  intros H1 H2 H3 H4 (Hf & Hh & Hw). unfold Held, isStarted.
  by rewrite H1, H2, H3, H4.
Qed.

Lemma halted_onended n : onended (halted n) = onended n.
Proof. unfold halted. by destruct (playback n). Qed.

Lemma haltRef_wired src a :
  Forall (λ n, onended n = true) (sources a) →
  Forall (λ n, onended n = true) (sources (haltRef src a)).
Proof.
  intros Hw. rewrite haltRef_sources. destruct src as [i|]; [|done]. cbn.
  apply Forall_alter; [done|]. intros n _ Hn. by rewrite halted_onended.
Qed.

Lemma Held_stopped s : Held s → Held (stoppedNow s).
Proof.
  intros (_ & _ & Hw). split; [done|]. split; [done|].
  by apply haltRef_wired.
Qed.

Lemma Held_ensured s : Held s → Held (ensuredNow s).
Proof.
  intros (_ & _ & Hw). split; [done|]. split; [done|].
  cbn [ensuredNow audio].
  assert (sources (ensured (audioContextRef s)
                     (haltRef (activeSourceRef s) (audio s)))
          = sources (haltRef (activeSourceRef s) (audio s))) as ->
    by (by destruct (audioContextRef s)).
  by apply haltRef_wired.
Qed.

Lemma Held_transition st c s :
  Held s → Held (exec (platform (transition st c)) s).
Proof.
  intros Hs. rewrite exec_platform.
  apply (Held_frame s); try done. cbn. apply transition_sources.
Qed.

Lemma Held_toggled st c pa pl s :
  pa = negb pl →
  Held s →
  Held (exec (platform (transition st c) ;; setIsPaused pa ;;
              setIsPlaying pl)%handler s).
Proof.
  intros -> Hs. unfold exec, platform. rewrite bind_zoom.
  destruct (transition_cases st c (audio s)) as [[Hc ->]|[Hc ->]];
    cbn [fst snd].
  { apply (Held_frame s); by destruct s. }
  destruct Hs as (Hf & Hh & Hw).
  unfold Held, isStarted. cbn. rewrite transition_sources.
  split; [by destruct pl|]. split; [|done].
  intros i Hi. destruct (Hh i Hi) as [Hst _]. split; [done|].
  destruct pl; auto.
Qed.

Lemma Held_launched c b s : Held s → Held (launchedOn c b s).
Proof.
  intros (_ & _ & Hw). split; [done|]. split.
  - intros i [= <-]. split; [|by left]. unfold isStarted. cbn.
    by rewrite lookup_last.
  - cbn. apply Forall_app. split; [done|]. by apply Forall_singleton.
Qed.

Lemma Held_flush j : simple j → preserves Held (flush j).
Proof.
  intros Hj s Hs.
  destruct j as [c|c|c d|c b|c|c]; cbn [simple] in Hj; try done;
    cbn [flush].
  - rewrite exec_detach. by apply Held_transition.
  - unfold exec. rewrite playBuffer_on. by apply Held_launched.
  - by apply (Held_toggled running c false true).
  - by apply (Held_toggled suspended c true false).
Qed.

Lemma with_ended_onended n : onended (with_ended n) = onended n.
Proof. done. Qed.

Lemma Held_ended i : preserves Held (handle (Ended i)).
Proof.
  intros s (Hf & Hh & Hw). unfold exec, handle, platform.
  rewrite bind_zoom, takeEnded_fst.
  destruct (endedPending i (audio s)) eqn:E; cbn [andb].
  - assert (from_option onended false (sources (audio s) !! i) = true) as ->.
    { unfold endedPending in E.
      destruct (sources (audio s) !! i) as [n|] eqn:Hi; [|done]. cbn.
      by eapply Forall_lookup_1 in Hw. }
    unfold takeEnded. rewrite E. split; [done|]. split; [done|]. cbn.
    apply Forall_alter; [done|]. by intros n _ Hn.
  - unfold takeEnded. rewrite E. cbn [fst snd].
    apply (Held_frame s); by destruct s.
Qed.

Lemma step_Held e t : Held (app (page t)) → Held (app (page (step t e))).
Proof.
  apply step_kept.
  - intros v s. by apply Held_frame.
  - intros v s. by apply Held_frame.
  - intros v s. by apply Held_frame.
  - intros bytes s. by apply Held_frame.
  - apply Held_stopped.
  - apply Held_ensured.
  - apply Held_flush.
  - intros c s. apply Held_transition.
  - apply Held_ended.
Qed.

Lemma run_Held es t : Held (app (page t)) → Held (app (page (run es t))).
Proof.
  revert t. induction es as [|e es IH]; intros t Ht; [done|].
  apply IH. by apply step_Held.
Qed.

Lemma initial_Held allowed : Held (app (page (initialTab allowed))).
Proof. split; [done|]. split; [done|]. constructor. Qed.

(** *** The shared device *)

Lemma Device_frame s s' :
  audioContextRef s' = audioContextRef s →
  contexts (audio s') = contexts (audio s) → Device s → Device s'.
Proof. unfold Device, oneContext. by intros -> ->. Qed.

Lemma Device_alter f c s s' :
  (∀ ctx, ctxSampleRate (f ctx) = ctxSampleRate ctx) →
  audioContextRef s' = audioContextRef s →
  contexts (audio s') = alter f c (contexts (audio s)) →
  Device s → Device s'.
Proof.
  intros Hf Hr Hc. unfold Device. rewrite Hr.
  by apply (oneContext_alter _ f c).
Qed.

Lemma Device_transition st c : preserves Device (platform (transition st c)).
Proof.
  intros s. rewrite exec_platform.
  apply (Device_alter (moved st) c); [apply moved_sampleRate|by destruct s|].
  destruct s. cbn. apply transition_contexts.
Qed.

Lemma Device_toggled st c pa pl :
  preserves Device
    (platform (transition st c) ;; setIsPaused pa ;; setIsPlaying pl)%handler.
Proof.
  intros s Hs. unfold exec, platform. rewrite bind_zoom.
  destruct (transition_cases st c (audio s)) as [[Hc ->]|[Hc ->]];
    cbn [fst snd].
  { apply (Device_frame s); by destruct s. }
  apply (Device_alter (moved st) c s); [apply moved_sampleRate|done| |done].
  cbn. apply transition_contexts.
Qed.

Lemma Device_stopped s : Device s → Device (stoppedNow s).
Proof. apply Device_frame; [done|]. cbn. apply haltRef_contexts. Qed.

Lemma Device_ensured s : Device s → Device (ensuredNow s).
Proof.
  unfold Device. cbn [ensuredNow audioContextRef audio].
  destruct (audioContextRef s) as [c|]; cbn [contextOf ensured oneContext].
  - by rewrite haltRef_contexts.
  - intros Hc. rewrite haltRef_contexts, Hc. split; [done|].
    unfold exec, newAudioContext. cbn. rewrite haltRef_contexts, Hc.
    by eexists.
Qed.

Lemma Device_flush j : simple j → preserves Device (flush j).
Proof.
  intros Hj s Hs.
  destruct j as [c|c|c d|c b|c|c]; cbn [simple] in Hj; try done;
    cbn [flush].
  - rewrite exec_detach. by apply Device_transition.
  - rewrite exec_platform.
    apply (Device_alter (with_state closed) c s); try done; by destruct s.
  - unfold exec. rewrite playBuffer_on. apply (Device_frame s); by destruct s.
  - by apply Device_toggled.
  - by apply Device_toggled.
Qed.

Lemma Device_ended i : preserves Device (handle (Ended i)).
Proof.
  intros s Hs. unfold exec, handle, platform. rewrite bind_zoom.
  assert (contexts (takeEnded i (audio s)).2 = contexts (audio s)) as Hc
    by apply takeEnded_contexts.
  destruct (takeEnded i (audio s)) as [[[]|e] a']; cbn [fst snd] in *;
    apply (Device_frame s); by destruct s.
Qed.

Lemma run_Device es t :
  Device (app (page t)) → Device (app (page (run es t))).
Proof.
  apply run_kept.
  - intros v s. by apply Device_frame.
  - intros v s. by apply Device_frame.
  - intros v s. by apply Device_frame.
  - intros bytes s. by apply Device_frame.
  - apply Device_stopped.
  - apply Device_ensured.
  - apply Device_flush.
  - intros c. apply Device_transition.
  - apply Device_ended.
Qed.

(** *** Only the cleanup closes the context *)

Lemma unclosing_add js t t' :
  jobs t' = jobs t → Forall (λ j, ∀ c, j ≠ Close c) js →
  Forall unclosing (jobs t) → Forall unclosing (jobs (add_jobs js t')).
Proof.
  intros Hj Hjs Ht. cbn [add_jobs jobs]. rewrite Hj.
  apply Forall_app. split; [done|]. apply Forall_fmap.
  eapply Forall_impl; [done|]. intros j Hne c [= ->]. by apply (Hne c).
Qed.

Lemma resumeAsked_unclosing s : Forall (λ j, ∀ c, j ≠ Close c) (resumeAsked s).
Proof.
  unfold resumeAsked. destruct (audioContextRef s) as [c|]; [|constructor].
  destruct (stateOf c (audio s)); repeat constructor; done.
Qed.

Lemma decodeAsked_unclosing c d :
  Forall (λ j, ∀ c, j ≠ Close c) (decodeAsked c d).
Proof.
  unfold decodeAsked. destruct (Base64.decode d); [|constructor].
  destruct (decodeAudioData _ _ _ _); repeat constructor; done.
Qed.

Lemma playAsked_unclosing d s : Forall (λ j, ∀ c, j ≠ Close c) (playAsked d s).
Proof.
  unfold playAsked. apply Forall_app. split; [apply resumeAsked_unclosing|].
  destruct (stateOf _ _); try apply decodeAsked_unclosing.
  repeat constructor; done.
Qed.

Lemma whenTruthy_unclosing data t :
  Forall unclosing (jobs t) →
  Forall unclosing
    (jobs (exec (NarratorTasks.whenTruthy data
                   (λ d, detach (NarratorTasks.startNewAudio d))) t)).
Proof.
  intros Ht. unfold NarratorTasks.whenTruthy.
  destruct data as [d|]; [destruct (truthy (Some d))|]; try done.
  rewrite exec_detach, startNewAudio_tab.
  by apply (unclosing_add _ t); [|apply playAsked_unclosing|].
Qed.

Lemma step_unclosing e t :
  e ≠ OnPage (NarratorAsync.Sync Unmount) →
  Forall unclosing (jobs t) → Forall unclosing (jobs (step t e)).
Proof.
  intros He Ht. destruct e as [e|j].
  - destruct e as [| |i m|i r|i r|e]; try done.
    + cbn [step]. rewrite handleFileUpload_tab.
      by apply (unclosing_add _ t); [|apply resumeAsked_unclosing|].
    + destruct r as [d|msg]; [|done].
      cbn [step]. destruct (calls (page t) !! i) as [[[| |a]|]|]; try done.
      unfold exec, NarratorTasks.finish. tab.
      by apply (whenTruthy_unclosing d).
    + destruct e as [analyzed spoken|c| | |j|]; try done.
      * cbn [step]. rewrite click_tab.
        destruct (rendered c (app (page t))); [|done].
        destruct c; cbn [NarratorTasks.onClick].
        -- rewrite togglePlayback_tab. cbn zeta.
           destruct (audioContextRef (app (page t))) as [c|]; [|done].
           destruct (isPaused (app (page t))).
           { apply (unclosing_add _ t); [done| |done].
             repeat constructor; done. }
           destruct (isPlaying (app (page t))).
           { apply (unclosing_add _ t); [done| |done].
             repeat constructor; done. }
           by apply whenTruthy_unclosing.
        -- rewrite exec_stopAudio_tab.
           by apply (unclosing_add _ t); [|apply resumeAsked_unclosing|].
        -- by rewrite exec_component.
      * cbn [step]. rewrite clearResults_tab.
        by apply (unclosing_add _ t); [|apply resumeAsked_unclosing|].
      * cbn [step]. rewrite resetAll_tab.
        by apply (unclosing_add _ t); [|apply resumeAsked_unclosing|].
  - cbn [step]. destruct (jobs t !! j) as [[job|]|] eqn:Hj; try done.
    assert (Forall unclosing (<[j:=None]> (jobs t))) as Ht'
      by (apply Forall_insert; [done|]; by intros c).
    assert (simple job ∨ ∃ c d, job = PlayResumed c d) as [Hs|(c & d & ->)]
      by (destruct job; eauto; by left).
    + by rewrite (settled_simple _ _ Hs).
    + rewrite settled_PlayResumed. cbn zeta.
      destruct (platform (resume c) _).1; [|done].
      destruct (Base64.decode d); [|done].
      destruct (decodeAudioData _ _ _ _); [|done].
      cbn [add_job jobs set_app]. apply Forall_app. split; [done|].
      repeat constructor; done.
Qed.

Lemma Open_frame s s' :
  contexts (audio s') = contexts (audio s) → Open s → Open s'.
Proof. unfold Open, allOpen. by intros ->. Qed.

Lemma Open_transition st c :
  st ≠ closed → preserves Open (platform (transition st c)).
Proof. intros Hst. by apply platform_Open, transition_allOpen. Qed.

Lemma Open_toggled st c pa pl :
  st ≠ closed →
  preserves Open
    (platform (transition st c) ;; setIsPaused pa ;; setIsPlaying pl)%handler.
Proof.
  intros Hst s Hs. unfold exec, platform. rewrite bind_zoom.
  destruct (transition_cases st c (audio s)) as [[Hc ->]|[Hc ->]];
    cbn [fst snd].
  { apply (Open_frame s); by destruct s. }
  by apply (transition_allOpen st c Hst).
Qed.

Lemma Open_ensured s : Open s → Open (ensuredNow s).
Proof.
  unfold Open, allOpen. cbn [ensuredNow audio].
  destruct (audioContextRef s) as [c|]; cbn [ensured].
  - by rewrite haltRef_contexts.
  - intros Hs. unfold exec, newAudioContext. cbn. rewrite haltRef_contexts.
    apply Forall_app. split; [done|]. apply Forall_singleton. cbn.
    by destruct (allowedToStart _).
Qed.

Lemma step_StillOpen e t :
  e ≠ OnPage (NarratorAsync.Sync Unmount) →
  StillOpen t → StillOpen (step t e).
Proof.
  intros He [Hj Ho]. split; [by apply step_unclosing|].
  destruct e as [e|j].
  - apply (onPage_kept Open); try done.
    + intros s Hs. apply (Open_frame s); [|done]. cbn. apply haltRef_contexts.
    + apply Open_ensured.
    + intros i. by apply handle_Open.
  - cbn [step]. destruct (jobs t !! j) as [[job|]|] eqn:Hjob; try done.
    assert (∀ c, job ≠ Close c) as Hne.
    { intros c ->. eapply Forall_lookup_1 in Hj; [|done]. by apply (Hj c). }
    destruct job as [c|c|c d|c b|c|c].
    + rewrite settled_simple by done. cbn [set_app page app flush].
      rewrite exec_detach. by apply Open_transition.
    + by destruct (Hne c).
    + rewrite settled_PlayResumed. cbn zeta. cbn [page app].
      assert (Open (exec (platform (resume c)) (app (page t)))) as Hr
        by (by apply Open_transition).
      destruct (platform (resume c) (app (page t))).1; [|done].
      destruct (Base64.decode d); [|done].
      by destruct (decodeAudioData _ _ _ _).
    + rewrite settled_simple by done. cbn [set_app page app flush].
      unfold exec. rewrite playBuffer_on. apply (Open_frame (app (page t)));
        [|done]. by destruct (app (page t)) as [? ? ? ? ? ? ? ? []].
    + rewrite settled_simple by done. cbn [set_app page app flush].
      by apply Open_toggled.
    + rewrite settled_simple by done. cbn [set_app page app flush].
      by apply Open_toggled.
Qed.

Lemma run_StillOpen es t :
  OnPage (NarratorAsync.Sync Unmount) ∉ es →
  StillOpen t → StillOpen (run es t).
Proof.
  revert t. induction es as [|e es IH]; intros t Hes Ht; [done|].
  apply not_elem_of_cons in Hes as [He Hes].
  apply IH; [done|]. apply step_StillOpen; [congruence | done].
Qed.

End TasksFacts.

(** ** The desktop edition *)

Section SteadyFacts.

Import Desktop DesktopView.

Lemma haltRef_Steady allowed src a :
  Steady allowed a → Steady allowed (haltRef src a).
Proof.
  destruct src as [i|]; [|done]. intros [Ha Hc]. unfold Steady, haltRef.
  by rewrite stop_allowed, stop_contexts.
Qed.

Lemma ensured_Steady allowed ref a :
  Steady allowed a → Steady allowed (ensured ref a).
Proof.
  destruct ref as [c|]; [done|]. intros [Ha Hc]. split; [done|].
  cbn. apply Forall_app. split; [done|]. apply Forall_singleton.
  cbn. by rewrite Ha.
Qed.

Lemma playAudio_Steady allowed d :
  preserves (λ s, Steady allowed (audio s)) (playAudio d).
Proof.
  intros s Hs. unfold exec. rewrite playAudio_eq.
  destruct (stopFails _ _); [done|].
  assert (Steady allowed (audio (readied s))) as Hr
    by by apply ensured_Steady, haltRef_Steady.
  destruct (decode d) as [bytes|e]; [|done].
  by destruct (decodeAudioData _ _ _ _).
Qed.

Lemma takeEnded_Steady allowed i :
  preserves (λ s, Steady allowed (audio s)) (platform (takeEnded i)).
Proof.
  intros s Hs. unfold exec, platform. rewrite zoom_eq.
  cbn [snd audio set_audio].
  unfold takeEnded. by destruct (endedPending i (audio s)).
Qed.

Lemma run_Steady allowed es s :
  Steady allowed (audio s) → Steady allowed (audio (run es s)).
Proof.
  apply (runD_kept (λ s, Steady allowed (audio s))); try done.
  - apply playAudio_Steady.
  - apply takeEnded_Steady.
Qed.

Lemma playAudio_outcome s d :
  validRef s →
  (playAudio d s).1 = match decode d with
                      | Ok _ => Done tt
                      | Err e => Threw e
                      end.
Proof.
  intros Hv. rewrite playAudio_eq, (validRef_stop _ Hv).
  destruct (decode d) as [bytes|e]; [|done]. by rewrite pcm_24000_mono.
Qed.

Lemma playAudio_status d s : status (exec (playAudio d) s) = status s.
Proof.
  unfold exec. rewrite playAudio_eq.
  destruct (stopFails _ _); [done|].
  destruct (decode d) as [bytes|e]; [|done].
  by destruct (decodeAudioData _ _ _ _).
Qed.

End SteadyFacts.

(** ** [processVideo] of the desktop edition, call by call *)

Section DesktopAsyncFacts.

Import Desktop DesktopView DesktopAsync GeminiService.

Lemma finish_atomicD a audioBase64 s :
  exec (finish a audioBase64) s
  = Desktop.step s (ProcessVideo (Resolved a) (Resolved audioBase64)).
Proof. by destruct audioBase64 as [[|ch d]|]. Qed.

(** The component after an event: as before, or with another status or
    error, or after an event of the component run in one piece. *)
Lemma step_appD p e :
  app (step p e) = app p
  ∨ (∃ v, app (step p e) = set_status v (app p))
  ∨ (∃ v m, app (step p e) = set_status v (set_error m (app p)))
  ∨ (∃ e', app (step p e) = Desktop.step (app p) e').
Proof.
  destruct e as [| |ctx|i b|i r|i r|e]; cbn [step].
  - right; right; right. by exists FileUpload.
  - by left.
  - destruct (videoUrl p); [|by left]. right; left. by exists SAMPLING.
  - destruct (calls p !! i) as [[[ctx k frames|frames|a]|]|]; try by left.
    destruct (afterTimer _ _ _ _ _) as [[ctx' k' frames'|frames'|a']|];
      try by left.
    + right; left. by exists ANALYZING.
    + right; right; left. by eexists _, _.
  - destruct (calls p !! i) as [[[ctx k frames|frames|a]|]|]; try by left.
    destruct r as [a|msg].
    + right; left. by exists NARRATING.
    + right; right; left. by eexists _, _.
  - destruct (calls p !! i) as [[[ctx k frames|frames|a]|]|]; try by left.
    destruct r as [d|msg].
    + right; right; right.
      exists (ProcessVideo (Resolved a) (Resolved d)). cbn [settle on_app app].
      apply finish_atomicD.
    + right; right; left. by eexists _, _.
  - destruct e as [analyzed spoken|c| |j]; try by left.
    + right; right; right. by exists (Click c).
    + right; right; right. by exists (Ended j).
Qed.

Lemma step_OneD e s : OneD s → OneD (Desktop.step s e).
Proof. intros Hs. exact (run_OneD [e] s Hs). Qed.

Lemma step_Steady allowed e s :
  Steady allowed (audio s) → Steady allowed (audio (Desktop.step s e)).
Proof. intros Hs. exact (run_Steady allowed [e] s Hs). Qed.

Lemma step_SoundD allowed p e :
  SoundD allowed (app p) → SoundD allowed (app (step p e)).
Proof.
  intros [Ho Hs].
  destruct (step_appD p e) as [->|[[v ->]|[(v & m & ->)|(e' & ->)]]];
    try done.
  split; [by apply step_OneD | by apply step_Steady].
Qed.

Lemma run_SoundD allowed es p :
  SoundD allowed (app p) → SoundD allowed (app (run es p)).
Proof.
  revert p. induction es as [|e es IH]; intros p Hp; [done|].
  apply IH. by apply step_SoundD.
Qed.

Lemma reached_SoundD allowed es :
  SoundD allowed (app (run es (initialPage allowed))).
Proof.
  apply run_SoundD. split; [apply initial_OneD|].
  split; [done | apply Forall_nil_2].
Qed.

(** *** The frames of the sampling loop *)




(** *** After a failure *)

Lemma audio_event_status e s :
  (∀ analyzed spoken, e ≠ ProcessVideo analyzed spoken) → e ≠ FileUpload →
  status (Desktop.step s e) = status s.
Proof.
  intros Hp Hu.
  destruct e as [analyzed spoken|c| |i]; try done.
  - by destruct (Hp analyzed spoken).
  - unfold Desktop.step, exec, handle. rewrite bind_gets.
    destruct (rendered c s); [|done].
    destruct c; cbn [onClick].
    + rewrite bind_gets. apply (playAudio_status (resultAudio s) s).
    + unfold download. rewrite bind_gets.
      by destruct (decode (resultAudio s)).
  - unfold Desktop.step, exec, handle, platform. rewrite bind_zoom.
    destruct (takeEnded i (audio s)) as [[[|]|err] a']; done.
Qed.

Lemma busy_falseD p :
  busy p = false ↔ ∀ j w, calls p !! j = Some (Some w) → False.
Proof.
  unfold busy. rewrite bool_decide_eq_false, Exists_exists. split.
  - intros Hn j w Hj. apply Hn. exists (Some w).
    split; [by eapply list_elem_of_lookup_2 | done].
  - intros Hn (x & Hx & [w ->]).
    apply list_elem_of_lookup_1 in Hx as [j Hj]. by eapply Hn.
Qed.

Lemma stuck_step_desktop p e :
  status (app p) = ERROR → busy p = false →
  offered e p = true → e ≠ FileChosen →
  status (app (step p e)) = ERROR ∧ busy (step p e) = false.
Proof.
  intros Hst Hb He Hne. pose proof (proj1 (busy_falseD p) Hb) as Hnone.
  destruct e as [| |ctx|i b|i r|i r|e]; try done; cbn [step].
  - cbn [offered] in He. unfold startDisabled in He. by rewrite Hst in He.
  - destruct (calls p !! i) as [[w|]|] eqn:Hi; [|done|done].
    by destruct (Hnone i w).
  - destruct (calls p !! i) as [[w|]|] eqn:Hi; [|done|done].
    by destruct (Hnone i w).
  - destruct (calls p !! i) as [[w|]|] eqn:Hi; [|done|done].
    by destruct (Hnone i w).
  - destruct e as [analyzed spoken|c| |j]; try done.
    + split; [|done]. cbn [on_app app].
      change (exec (handle (Click c)) (app p))
        with (Desktop.step (app p) (Click c)).
      by rewrite audio_event_status.
    + split; [|done]. cbn [on_app app].
      change (exec (handle (Ended j)) (app p))
        with (Desktop.step (app p) (Ended j)).
      by rewrite audio_event_status.
Qed.

Lemma stuck_run_desktop es p :
  status (app p) = ERROR → busy p = false →
  feasible es p = true → FileChosen ∉ es →
  status (app (run es p)) = ERROR.
Proof.
  revert p. induction es as [|e es IH]; intros p Hst Hb Hes Hr; [done|].
  cbn [feasible] in Hes. apply andb_prop in Hes as [He Hes].
  apply not_elem_of_cons in Hr as [Hne Hr].
  destruct (stuck_step_desktop p e Hst Hb He) as [Hst' Hb']; [congruence|].
  cbn [run foldl]. change (foldl step (step p e) es) with (run es (step p e)).
  by apply IH.
Qed.

End DesktopAsyncFacts.

(** ** The requests *)

Section RequestFacts.

Import GeminiService.

Lemma styles_differ : sportsStyle ≠ newsStyle.
Proof. discriminate. Qed.

Lemma prefix_app (w s : string) :
  String.prefix w s = true ↔ ∃ b, s = (w ++ b)%string.
Proof.
  revert s. induction w as [|c w IH]; intros s.
  - split; [intros _; by exists s | by destruct s].
  - destruct s as [|c' s]; cbn; [split; [done | by intros [b ?]]|].
    destruct (Ascii.ascii_dec c c') as [->|Hne].
    + rewrite IH. split; intros [b Hb]; exists b; congruence.
    + split; [done|]. intros [b Hb]. congruence.
Qed.

Lemma includes_app (s w : string) :
  includes s w = true ↔ ∃ a b, s = (a ++ w ++ b)%string.
Proof.
  induction s as [|c s IH]; cbn [includes].
  - rewrite orb_false_r, prefix_app. split.
    + intros [b Hb]. by exists EmptyString, b.
    + intros (a & b & Hab). destruct a; [by exists b|done].
  - rewrite orb_true_iff, prefix_app, IH. split.
    + intros [[b Hb]|(a & b & Hab)].
      * by exists EmptyString, b.
      * exists (String c a), b. cbn. by rewrite Hab.
    + intros (a & b & Hab). destruct a as [|c' a]; cbn in Hab.
      * left. by exists b.
      * right. exists a, b. congruence.
Qed.

Lemma toLowerCase_app (a b : string) :
  toLowerCase (a ++ b) = (toLowerCase a ++ toLowerCase b)%string.
Proof. induction a as [|c a IH]; cbn; [done | by rewrite IH]. Qed.

Lemma toLowerCase_split (g x y : string) :
  toLowerCase g = (x ++ y)%string →
  ∃ gx gy, g = (gx ++ gy)%string ∧ toLowerCase gx = x ∧ toLowerCase gy = y.
Proof.
  revert g. induction x as [|c x IH]; intros g H.
  - by exists EmptyString, g.
  - destruct g as [|c' g]; [done|]. cbn in H. injection H as Hc Hg.
    destruct (IH g Hg) as (gx & gy & -> & Hx & Hy).
    exists (String c' gx), gy. cbn. by rewrite Hc, Hx.
Qed.

Lemma mentionsSport_true (genreDetected : option string) :
  mentionsSport genreDetected = Some true
  ↔ ∃ a w b, genreDetected = Some (a ++ w ++ b)%string
             ∧ toLowerCase w = "deport"%string.
Proof.
  unfold mentionsSport. destruct genreDetected as [g|]; cbn.
  - split.
    + intros [= H]. apply includes_app in H as (x & y & H).
      apply toLowerCase_split in H as (a & r & -> & Ha & H).
      apply toLowerCase_split in H as (w & b & -> & Hw & Hb).
      by exists a, w, b.
    + intros (a & w & b & [= ->] & Hw). f_equal. apply includes_app.
      exists (toLowerCase a), (toLowerCase b).
      by rewrite !toLowerCase_app, Hw.
  - split; [done | by intros (? & ? & ? & ? & ?)].
Qed.

Lemma base64Audio_Some response d :
  base64Audio response = Some d
  ↔ ∃ c cs ct p ps blob,
      candidates response = Some (c :: cs) ∧ content c = Some ct
      ∧ parts ct = Some (p :: ps) ∧ inlineData p = Some blob
      ∧ blobData blob = Some d.
Proof.
  unfold base64Audio. split.
  - destruct (candidates response) as [[|c cs]|] eqn:Hcs; try done. cbn.
    destruct (content c) as [ct|] eqn:Hct; try done. cbn.
    destruct (parts ct) as [[|p ps]|] eqn:Hps; try done. cbn.
    destruct (inlineData p) as [blob|] eqn:Hb; try done. cbn.
    intros Hd. by exists c, cs, ct, p, ps, blob.
  - intros (c & cs & ct & p & ps & blob & -> & Hc & Hp & Hb & Hd). cbn.
    rewrite Hc. cbn. rewrite Hp. cbn. by rewrite Hb.
Qed.

End RequestFacts.

(** ** Frame sampling *)

Section SamplingFacts.

Import GeminiService FrameSampling.

Lemma shots_snoc ts t :
  shots (ts ++ [t])
  = shots ts ++ match t with Seeked b => [b] | Timer => [] end.
Proof. unfold shots. rewrite omap_app. by destruct t. Qed.

Lemma positions_snoc l s :
  positions (l ++ [s])
  = positions l ++ match s with Position k => [k] | _ => [] end.
Proof. unfold positions. rewrite omap_app. by destruct s. Qed.

Lemma sampleFrames_Sampled ctx ts : Sampled ctx ts (sampleFrames ctx ts).
Proof.
  induction ts as [|t ts IH] using rev_ind.
  - repeat split. by destruct ctx.
  - unfold sampleFrames in *. rewrite foldl_snoc.
    generalize dependent (foldl (tick ctx) begin ts). intros v IH.
    destruct IH as (Hc & Hl & Hf & Hr & Hp).
    unfold Sampled. rewrite shots_snoc.
    destruct t as [b|]; cbn [tick].
    + rewrite length_app. cbn [length].
      remember (length (shots ts)) as n eqn:En.
      rewrite Hl. case_bool_decide as Hn.
      * unfold onSeeked. rewrite Hc, (Nat.min_l n 20) by lia.
        destruct (decide (S n < 20)%nat) as [Hlt|Hge].
        -- rewrite (proj2 (Nat.ltb_lt _ _)) by (unfold frameCount; lia).
           cbn [currentFrame listening frames resolved seeks].
           rewrite positions_snoc, Hp, Hl, Hr, Hf.
           rewrite !bool_decide_eq_true_2 by lia.
           split; [lia|]. split; [done|]. split.
           { destruct ctx; [|done].
             rewrite (take_ge (shots ts)) by (rewrite <- En; lia).
             rewrite take_ge by (rewrite length_app, <- En; cbn; lia).
             by rewrite map_app. }
           split; [done|].
           rewrite (Nat.min_l n 19), (Nat.min_l (n + 1) 19) by lia.
           replace (n + 1)%nat with (S n) by lia.
           by rewrite seq_S.
        -- rewrite (proj2 (Nat.ltb_ge _ _)) by (unfold frameCount; lia).
           cbn [currentFrame listening frames resolved seeks].
           assert (n = 19%nat) as Hn19 by lia.
           rewrite Hr, Hf, Hp.
           rewrite !bool_decide_eq_false_2 by lia. cbn [resolve].
           split; [lia|]. split; [done|].
           assert (n `min` 19 = (n + 1) `min` 19)%nat as <- by lia.
           destruct ctx; [|done].
           rewrite (take_ge (shots ts)) by (rewrite <- En; lia).
           rewrite take_ge by (rewrite length_app, <- En; cbn; lia).
           by rewrite map_app.
      * rewrite Hc, Hl, Hr, !Hf, Hp.
        rewrite !bool_decide_eq_false_2 by lia.
        rewrite take_app_le by (rewrite <- En; lia).
        split; [lia|]. do 3 (split; [done|]).
        by rewrite (Nat.min_r n 19), (Nat.min_r (n + 1) 19) by lia.
    + rewrite app_nil_r. cbn [currentFrame listening frames resolved seeks].
      rewrite positions_snoc, app_nil_r. done.
Qed.

End SamplingFacts.

(** ** Theorems *)

Section InterleavingTheorems.

Import Narrator NarratorView NarratorAsync.

Lemma reached_Sound allowed es : Sound (app (run es (initialPage allowed))).
Proof.
  apply run_Sound. split; [apply initial_Inv | apply initial_Session].
Qed.

(** When the handlers of the playback bar run with their promises settled,
    the controller is always in one of three states, however the calls of
    [processVideo] interleave with the events: idle (no source held, neither
    playing nor paused), playing, or paused; in the last two the source it
    holds was started and not stopped. *)
Lemma session_states_atomic (allowed : bool) (es : list Event) :
  let s := app (run es (initialPage allowed)) in
  idle s
  ∨ (∃ i, activeSourceRef s = Some i ∧ isStarted i (audio s)
          ∧ isPlaying s = true ∧ isPaused s = false)
  ∨ (∃ i, activeSourceRef s = Some i ∧ isStarted i (audio s)
          ∧ isPlaying s = false ∧ isPaused s = true).
Proof.
  intros s. destruct (reached_Sound allowed es) as [_ Hs]. fold s in Hs.
  unfold Session, idle in *.
  destruct (activeSourceRef s) as [i|]; [|by left].
  destruct Hs as [Hi (c & _ & [(? & ? & _)|(? & ? & _)])]; right;
    [left | right]; by exists i.
Qed.

(** With the promises settled, nothing is heard while the controller shows
    a paused playback. *)
Lemma paused_silent_atomic (allowed : bool) (es : list Event) :
  let s := app (run es (initialPage allowed)) in
  isPaused s = true → ∀ j, ¬ audible j (audio s).
Proof.
  intros s Hp. destruct (reached_Sound allowed es) as [Hi Hs].
  fold s in Hi, Hs.
  destruct (paused_not_running s Hs Hp) as (c & Hc & Hst).
  by apply (suspended_silent s c).
Qed.

(** With the promises settled, the source the controller holds is heard
    while it shows a playback in progress and the component is mounted. *)
Lemma playing_audible_atomic (allowed : bool) (es : list Event) :
  let s := app (run es (initialPage allowed)) in
  Sync Unmount ∉ es → isPlaying s = true →
  ∃ i, activeSourceRef s = Some i ∧ audible i (audio s).
Proof.
  intros s Hes Hp.
  destruct (reached_Sound allowed es) as [[[Hc Hn] _] Hs].
  fold s in Hc, Hn, Hs.
  assert (Open s) as Ho by (apply run_OpenA; [done | apply Forall_nil_2]).
  unfold Session in Hs.
  destruct (activeSourceRef s) as [i|]; [|destruct Hs; congruence].
  destruct Hs as [Hi (c & Href & Hm)].
  destruct Hm as [(_ & _ & Hst)|(? & _)]; [|congruence].
  exists i. split; [done|].
  rewrite Href in Hc. destruct Hc as [-> (ctx & Hcs & _)].
  unfold isStarted in Hi.
  destruct (sources (audio s) !! i) as [n|] eqn:Hn'; [|done].
  injection Hi as Hi.
  eapply Forall_lookup_1 in Hn; [|done].
  destruct Hn as (Hctx & _ & Hconn & _).
  exists n, ctx. split; [done|]. split; [done|]. split; [done|].
  rewrite Hctx, Hcs. split; [done|].
  unfold Open, allOpen in Ho. rewrite Hcs in Ho.
  rewrite Forall_singleton in Ho.
  unfold stateOf in Hst. rewrite Hcs in Hst. simpl in Hst.
  by destruct (state ctx).
Qed.

(** X7. A call of [processVideo] that brings no audio (a collaborator
    fails, or the speech comes back absent or empty) leaves the playback as
    it was: at none of its steps are the audio state and the controller's
    flags touched. When [generateSpeech] answers such a call, the new
    narration is shown with status COMPLETED, in the result panel, and
    without playback controls: the play/pause, stop and download buttons
    are not rendered, also while an earlier sound still plays. When a step
    of the call fails, the status is ERROR, the message shown is the
    error's, or the default text when that is empty, and the earlier result
    stays. *)
Theorem narration_without_audio_keeps_playback (p : Page) (e : Event) :
  quiet e = true →
  let s := app p in
  let s' := app (step p e) in
  audio s' = audio s ∧ view s' = view s
  ∧ audioContextRef s' = audioContextRef s
  ∧ (∀ i a data,
       e = Spoken i (Resolved data) →
       calls p !! i = Some (Some (AwaitSpeech a)) →
       status s' = COMPLETED ∧ error s' = error s
       ∧ (text <$> result s') = Some (narration a)
       ∧ controls s' = [] ∧ resultShown s' = true)
  ∧ (∀ i message,
       fails p e i message →
       status s' = ERROR ∧ result s' = result s
       ∧ error s' = Some (if truthy (Some message) then message
                          else defaultError)).
Proof.
  intros He s s'. subst s s'.
  destruct e as [| |i m|i r|i r|e]; try done; cbn [step fails].
  - destruct (videoUrl p); split_and!; done.
  - destruct (calls p !! i) as [[[| |a]|]|] eqn:Hi;
      try (split_and!; try done; intros ? ? (<- & _ & Hx & _);
           by rewrite Hi in Hx).
    destruct (videoUrl p) eqn:Hv.
    + split_and!; try done. by intros ? ? (_ & _ & _ & [=]).
    + split_and!; try done. by intros ? ? (<- & <- & _ & _).
  - destruct (calls p !! i) as [[[| |a]|]|] eqn:Hi;
      try (split_and!; try done; destruct r; try done;
           intros ? ? (<- & _ & Hx); by rewrite Hi in Hx).
    destruct r as [a|msg]; split_and!; try done.
    by intros ? ? (<- & <- & _).
  - destruct (calls p !! i) as [[[| |a]|]|] eqn:Hi;
      try (split_and!;
           [done|done|done| intros ? ? ? [= -> ->] Hx; by rewrite Hi in Hx
           | destruct r; try done; intros ? ? (<- & _ & ? & Hx);
             by rewrite Hi in Hx]).
    destruct r as [data|msg].
    + cbn [quiet] in He. apply negb_true_iff in He.
      assert (exec (finish a data) (app p)
              = set_status COMPLETED
                  (set_result (Some {| text := narration a;
                                       audioData := data;
                                       thinkingProcess := Some (analysis a);
                                       genreDetected := genre a |})
                     (app p))) as Hf.
      { unfold finish, whenTruthy. rewrite He. by destruct data. }
      cbn [settle on_app app]. rewrite Hf.
      split_and!; try done.
      intros ? a0 ? [= <- <-] Hx. rewrite Hi in Hx. injection Hx as <-.
      split_and!; try done.
      unfold controls. cbn. by rewrite He.
    + split_and!; try done. by intros ? ? (<- & <- & _).
Qed.

(** Its use while the first payload plays and a second narration comes
    back without audio: node 0 goes on, the controls are gone. *)
Lemma narration_without_audio_keeps_playback_witness :
  isStarted 0
    (audio (app (step (run secondA (initialPage true))
                   (Spoken 1 (narrated None).2))))
  ∧ controls (app (step (run secondA (initialPage true))
                     (Spoken 1 (narrated None).2))) = [].
Proof.
  pose proof (narration_without_audio_keeps_playback
                (run secondA (initialPage true))
                (Spoken 1 (narrated None).2) eq_refl) as H.
  split.
  - rewrite (proj1 H). vm_compute. reflexivity.
  - refine (proj1 (proj2 (proj2 (proj2
             (proj1 (proj2 (proj2 (proj2 H))) 1%nat _ _ eq_refl _))))).
    vm_compute. reflexivity.
Defined.

(** X9. The status tells what the page shows, as long as the user lets a
    narration finish (no reset, clearing or new file while a call of
    [processVideo] waits) and does what the page allows. Either no call
    waits and the status is IDLE with neither result nor error shown,
    COMPLETED with a result and no error, or ERROR with the error banner,
    whose message is never empty; or a call waits, the status is SAMPLING,
    ANALYZING or NARRATING, the start button is disabled and no error is
    shown. *)
Theorem status_tells_what_is_shown (allowed : bool) (es : list Event) :
  feasible es (initialPage allowed) = true →
  unhurried es (initialPage allowed) = true →
  let p := run es (initialPage allowed) in
  let s := app p in
  busy p = false
  ∧ (status s = IDLE ∧ resultShown s = false ∧ errorShown s = false
     ∨ status s = COMPLETED ∧ resultShown s = true ∧ errorShown s = false
     ∨ status s = ERROR ∧ errorShown s = true)
  ∨ busy p = true ∧ startDisabled s = true ∧ errorShown s = false
    ∧ (status s = SAMPLING ∨ status s = ANALYZING ∨ status s = NARRATING).
Proof.
  intros Hf Hu p s.
  assert (DisplayA p) as Hp.
  { apply run_DisplayA; [done|done|]. left. by split. }
  destruct Hp as [[Hb Hd]|(i & w & [Hi _] & Hst & Herr & _)].
  - left. split; [done|]. fold s in Hd.
    unfold Display, resultShown, errorShown in *.
    destruct (status s); try done.
    + left. destruct Hd as [-> ->]. split; [done|]. split; [|done].
      apply bool_decide_eq_false_2. by intros [? ?].
    + right; left. destruct Hd as [Hr ->]. split; [done|]. split; [|done].
      by apply bool_decide_eq_true_2.
    + right; right. by split.
  - right. fold s in Hst, Herr. split; [by eapply busy_true|].
    unfold startDisabled, errorShown. rewrite Hst, Herr.
    by destruct w; split_and!; try done; auto.
Qed.

Lemma status_tells_what_is_shown_witness :
  status (app (run failA (initialPage true))) = ERROR
  ∧ errorShown (app (run failA (initialPage true))) = true.
Proof.
  destruct (status_tells_what_is_shown true failA eq_refl eq_refl)
    as [[_ [[H _]|[[H _]|H]]]|[_ (_ & _ & [H|[H|H]])]];
    solve [discriminate H | exact H].
Defined.

(** X10. A failure with no earlier result on the page can only be left by
    [resetAll], which removes the video: with no call of [processVideo]
    waiting, the status stays ERROR, so the start button stays disabled,
    and the panel with the button of [clearResults] is not shown, whatever
    else the page allows. *)
Theorem first_failure_needs_reset (p : Page) (es : list Event) :
  status (app p) = ERROR → result (app p) = None →
  busy p = false → videoUrl p = true →
  feasible es p = true → Sync ResetAll ∉ es →
  let s' := app (run es p) in
  status s' = ERROR ∧ startDisabled s' = true ∧ resultShown s' = false.
Proof.
  intros Hst Hres Hb Hv Hf Hr s'.
  destruct (page_same _ _ (stuck_runA es p Hst Hres Hb Hv Hf Hr))
    as (H1 & H2 & _).
  fold s' in H1, H2. unfold startDisabled, resultShown.
  rewrite H1, H2, Hst, Hres. split; [done|]. split; [done|].
  apply bool_decide_eq_false_2. by intros [? ?].
Qed.

Lemma first_failure_needs_reset_witness :
  startDisabled
    (app (run [Sync (Click PlayPauseButton); Spoken 0 (Resolved None);
               Sync (Ended 0)]
              (run failA (initialPage true))))
  = true.
Proof.
  refine (proj1 (proj2
            (first_failure_needs_reset (run failA (initialPage true))
               [Sync (Click PlayPauseButton); Spoken 0 (Resolved None);
                Sync (Ended 0)] _ _ _ _ _ _)));
    try (vm_compute; reflexivity).
  repeat (apply not_elem_of_cons; split; [discriminate|]).
  apply not_elem_of_nil.
Defined.

Lemma finish_plays a d bytes s :
  Base64.decode d = Ok bytes → truthy (Some d) = true →
  let s' := exec (finish a (Some d)) s in
  status s' = COMPLETED
  ∧ result s' = Some {| text := narration a; audioData := Some d;
                        thinkingProcess := Some (analysis a);
                        genreDetected := genre a |}
  ∧ isPlaying s' = true ∧ isPaused s' = false
  ∧ activeSourceRef s' = Some (length (sources (audio s)))
  ∧ isStarted (length (sources (audio s))) (audio s').
Proof.
  intros Hd Ht s'. subst s'. unfold exec, finish, setResult, setStatus.
  rewrite !bind_modify. unfold whenTruthy. rewrite Ht. unfold detach.
  cbn [snd]. rewrite (startNewAudio_Ok _ _ _ Hd). cbn [snd].
  split_and!; try done.
  - cbn [launched activeSourceRef]. f_equal.
    rewrite prepared_sources, afterStop_sources. cbn.
    destruct (activeSourceRef s); cbn; by rewrite ?length_alter.
  - apply launched_started. right.
    rewrite prepared_sources, afterStop_sources. cbn.
    destruct (activeSourceRef s); cbn; by rewrite ?length_alter.
Qed.

(** X21. Nothing cancels a call of [processVideo]. [resetAll] and
    [clearResults] bring the page back to IDLE with no result, and leave
    the calls that wait as they are. When [generateSpeech] then answers a
    call with a payload, the narration is shown again with status COMPLETED
    and starts playing, with the video gone after [resetAll]; when
    [sampleFrames] resolves after [resetAll], the read of
    [videoRef.current.duration] throws and the page shows the error. *)
Theorem reset_does_not_cancel (p : Page) (i : nat) (cancel : Event) :
  cancel = Sync ResetAll ∨ cancel = Sync ClearResults →
  let q := step p cancel in
  calls q = calls p
  ∧ status (app q) = IDLE ∧ result (app q) = None
  ∧ (∀ a d bytes,
       calls p !! i = Some (Some (AwaitSpeech a)) →
       Base64.decode d = Ok bytes → truthy (Some d) = true →
       let s' := app (step q (Spoken i (Resolved (Some d)))) in
       status s' = COMPLETED
       ∧ (text <$> result s') = Some (narration a)
       ∧ controls s' ≠ [] ∧ isPlaying s' = true
       ∧ ∃ j, activeSourceRef s' = Some j ∧ isStarted j (audio s'))
  ∧ (∀ message,
       cancel = Sync ResetAll →
       calls p !! i = Some (Some AwaitFrames) →
       let s' := app (step q (FramesSampled i message)) in
       status s' = ERROR ∧ result s' = None
       ∧ error s' = Some (if truthy (Some message) then message
                          else defaultError)).
Proof.
  intros Hc q.
  assert (calls q = calls p) as Hq by (subst q; by destruct Hc as [->| ->]).
  assert (page (app q) = (IDLE, None, None)) as Hp.
  { subst q. destruct Hc as [->| ->]; apply clearResults_page. }
  apply page_eq in Hp as (H1 & H2 & H3).
  split; [done|]. split; [done|]. split; [done|]. split.
  - intros a d bytes Hi Hd Ht s'. subst s'. cbn [step]. rewrite Hq, Hi.
    cbn [settle on_app app].
    destruct (finish_plays a d bytes (app q) Hd Ht)
      as (Hs & Hr & Hpl & _ & Hsrc & Hst).
    split; [done|]. split; [by rewrite Hr|]. split.
    + unfold controls. rewrite Hr. cbn [audioData]. by rewrite Ht.
    + split; [done|]. by eexists.
  - intros message -> Hi s'. subst s' q. cbn [step resetAll calls]. rewrite Hi.
    cbn [videoUrl settle on_app app]. split_and!; try done.
Qed.

Lemma reset_does_not_cancel_witness :
  let p := run [FileChosen; Start; FramesSampled 0 EmptyString;
                Analyzed 0 (narrated (Some payloadA)).1]
               (initialPage true) in
  videoUrl (step p (Sync ResetAll)) = false
  ∧ isPlaying
      (app (step (step p (Sync ResetAll))
              (Spoken 0 (narrated (Some payloadA)).2))) = true.
Proof.
  intros p. split; [reflexivity|].
  refine (proj1 (proj2 (proj2 (proj2
            (proj1 (proj2 (proj2 (proj2
               (reset_does_not_cancel p 0 (Sync ResetAll) (or_introl eq_refl)))))
               _ payloadA [x00; x80] _ _ _))))).
  - vm_compute. reflexivity.
  - vm_compute. reflexivity.
  - reflexivity.
Defined.

(** The four steps of a call, run in a row, do what [processVideo] does
    when it is run in one piece. *)
Lemma phases_atomic p message analyzed spoken :
  videoUrl p = true →
  let i := length (calls p) in
  app (run [Start; FramesSampled i message; Analyzed i analyzed;
            Spoken i spoken] p)
  = Narrator.step (app p) (ProcessVideo analyzed spoken).
Proof.
  intros Hv i. subst i. unfold run. cbn [foldl]. cbn [step]. rewrite Hv.
  cbn [calls videoUrl]. rewrite lookup_last.
  cbn [settle on_app calls app videoUrl].
  rewrite list_lookup_insert_eq by (rewrite length_app; cbn; lia).
  destruct analyzed as [a|msg]; cbn [settle on_app calls app videoUrl].
  - rewrite list_lookup_insert_eq
      by (rewrite length_insert, length_app; cbn; lia).
    destruct spoken as [d|msg]; cbn [settle on_app calls app videoUrl].
    + by destruct d as [[|ch d]|].
    + done.
  - rewrite list_lookup_insert_eq
      by (rewrite length_insert, length_app; cbn; lia).
    done.
Qed.

End InterleavingTheorems.

Section NarratorTheorems.

Import Narrator.

(** With the promises settled, pause and resume are inverse. *)
Lemma toggle_twice_atomic (s : State) (c : nat) :
  audioContextRef s = Some c → stateOf c (audio s) = running →
  isPlaying s = true → isPaused s = false →
  let s' := exec togglePlayback s in
  isPlaying s' = false ∧ isPaused s' = true
  ∧ stateOf c (audio s') = suspended
  ∧ sources (audio s') = sources (audio s)
  ∧ exec togglePlayback s' = s.
Proof.
  intros Href Hst Hpl Hpa s'. subst s'. unfold exec.
  rewrite (togglePlayback_pauses s c Href Hst Hpl Hpa). cbn [snd].
  split; [done|]. split; [done|]. split.
  { unfold stateOf, pausedFrom, set_contexts. cbn [audio contexts].
    rewrite list_lookup_alter_eq. unfold stateOf in Hst.
    by destruct (contexts (audio s) !! c). }
  split; [done|].
  rewrite (togglePlayback_resumes s c Href Hst). cbn [snd].
  rewrite <- Hpl, <- Hpa. by destruct s.
Qed.

End NarratorTheorems.

Section SettlingTheorems.

Import WebAudio Narrator NarratorView NarratorTasks.
Import NarratorAsync (Page, app, videoUrl, calls).

Lemma initial_quiescent allowed : quiescent (jobs (initialTab allowed)).
Proof. constructor. Qed.

Lemma reached_settled allowed es :
  app (page (runSettled es (initialTab allowed)))
  = app (NarratorAsync.run es (NarratorAsync.initialPage allowed)).
Proof.
  by destruct (runSettled_atomic es (initialTab allowed)
                 (initial_quiescent allowed)) as [-> _].
Qed.

Lemma initial_Device allowed : Device (app (page (initialTab allowed))).
Proof. done. Qed.

Lemma initial_StillOpen allowed : StillOpen (initialTab allowed).
Proof. split; constructor. Qed.

(** C8. The audio context is the one shared device. In every state either
    component reaches there is at most one context; none exists until a
    narration arrives (in the first component: one with audio), and a call
    of [startNewAudio] or [playAudio] leaves exactly one, created at 24000 Hz
    by the first call and reused by the later ones: it is the one the
    controller holds from then on, and every node ever played was created
    on it. The unmount cleanup of the first component closes it, and
    nothing else does; the desktop edition has no cleanup and never closes
    it. The same holds of the first component await by await, however its
    promises settle: at most one context, at 24000 Hz, which
    [startNewAudio] has made or found by the time it first waits; none
    closed before the cleanup, whose [close()] closes it. *)
Theorem shared_context_lifecycle (allowed : bool) :
  (∀ es, let s := Narrator.run es (Narrator.initial allowed) in
     (length (contexts (Narrator.audio s)) ≤ 1)%nat
     ∧ (Narrator.audioContextRef s = None ∧ contexts (Narrator.audio s) = []
        ∨ Narrator.audioContextRef s = Some 0%nat
          ∧ ∃ ctx, contexts (Narrator.audio s) = [ctx])
     ∧ Forall (λ n, context n = 0%nat) (sources (Narrator.audio s))
     ∧ (Forall (λ e, delivers e = false) es →
        contexts (Narrator.audio s) = [])
     ∧ (Narrator.Unmount ∉ es →
        Forall (λ ctx, state ctx ≠ closed) (contexts (Narrator.audio s)))
     ∧ (∀ base64,
          let s' := exec (Narrator.startNewAudio base64) s in
          Narrator.audioContextRef s' = Some 0%nat
          ∧ ∃ ctx, contexts (Narrator.audio s') = [ctx]
                   ∧ ctxSampleRate ctx = 24000)
     ∧ Forall (λ ctx, state ctx = closed)
         (contexts (Narrator.audio (Narrator.step s Narrator.Unmount))))
  ∧ (∀ es, let s := Desktop.run es (Desktop.initial allowed) in
       (length (contexts (Desktop.audio s)) ≤ 1)%nat
       ∧ (Desktop.audioContextRef s = None ∧ contexts (Desktop.audio s) = []
          ∨ Desktop.audioContextRef s = Some 0%nat
            ∧ ∃ ctx, contexts (Desktop.audio s) = [ctx])
       ∧ Forall (λ n, context n = 0%nat) (sources (Desktop.audio s))
       ∧ (Forall (λ e, deliversD e = false) es →
          contexts (Desktop.audio s) = [])
       ∧ Forall (λ ctx, state ctx ≠ closed) (contexts (Desktop.audio s))
       ∧ (∀ base64,
            let s' := exec (Desktop.playAudio base64) s in
            Desktop.audioContextRef s' = Some 0%nat
            ∧ ∃ ctx, contexts (Desktop.audio s') = [ctx]
                     ∧ ctxSampleRate ctx = 24000))
  ∧ (∀ es, let t := NarratorTasks.run es (initialTab allowed) in
           let s := app (page t) in
       (length (contexts (Narrator.audio s)) ≤ 1)%nat
       ∧ (Narrator.audioContextRef s = None
          ∧ contexts (Narrator.audio s) = []
          ∨ Narrator.audioContextRef s = Some 0%nat
            ∧ ∃ ctx, contexts (Narrator.audio s) = [ctx]
                     ∧ ctxSampleRate ctx = 24000)
       ∧ (OnPage (NarratorAsync.Sync Narrator.Unmount) ∉ es →
          Forall (λ ctx, state ctx ≠ closed) (contexts (Narrator.audio s)))
       ∧ (∀ base64,
            let s' := app (page (exec (NarratorTasks.startNewAudio base64) t))
            in
            Narrator.audioContextRef s' = Some 0%nat
            ∧ ∃ ctx, contexts (Narrator.audio s') = [ctx]
                     ∧ ctxSampleRate ctx = 24000)
       ∧ (let t1 :=
            NarratorTasks.step t (OnPage (NarratorAsync.Sync Narrator.Unmount))
          in
          jobs t1
          = jobs t
            ++ match Narrator.audioContextRef s with
               | Some c => [Some (Close c)]
               | None => []
               end
          ∧ page t1 = page t
          ∧ Forall (λ ctx, state ctx = closed)
              (contexts (Narrator.audio
                 (app (page (NarratorTasks.step t1
                               (Settled (length (jobs t)))))))))).
Proof.
  split; [|split]; cycle 2.
  { intros es t s.
    pose proof (run_Device es _ (initial_Device allowed)) as Hd.
    fold t in Hd. fold s in Hd.
    assert (Narrator.audioContextRef s = None
            ∧ contexts (Narrator.audio s) = []
            ∨ Narrator.audioContextRef s = Some 0%nat
              ∧ ∃ ctx, contexts (Narrator.audio s) = [ctx]
                       ∧ ctxSampleRate ctx = 24000) as Hc.
    { unfold Device in Hd.
      destruct (Narrator.audioContextRef s) as [c|]; hnf in Hd.
      - right. by destruct Hd as [-> ?].
      - by left. }
    split.
    { destruct Hc as [[_ ->]|[_ (ctx & -> & _)]]; simpl; lia. }
    split; [done|]. split; [|split].
    - intros Hes.
      by destruct (run_StillOpen es _ Hes (initial_StillOpen allowed)).
    - intros base64 s'. subst s'. rewrite startNewAudio_tab.
      cbn [add_jobs set_app page app]. fold s.
      pose proof (Device_ensured s Hd) as He. unfold Device in He.
      cbn [ensuredNow Narrator.audioContextRef] in He. hnf in He.
      destruct He as [Hz He]. split; [|exact He].
      cbn [ensuredNow Narrator.audioContextRef]. f_equal. exact Hz.
    - cbn zeta. cbn [NarratorTasks.step]. rewrite unmount_tab. fold s.
      destruct Hc as [[Hr Hn]|[Hr (ctx & Hn & _)]]; rewrite Hr.
      + rewrite app_nil_r. split; [done|]. split; [done|].
        cbn [NarratorTasks.step]. rewrite lookup_ge_None_2 by done.
        fold s. rewrite Hn. constructor.
      + cbn [add_jobs jobs page]. split; [done|]. split; [done|].
        cbn [NarratorTasks.step jobs].
        rewrite lookup_app_r, Nat.sub_diag by done.
        change ((Some <$> [Close 0%nat]) !! 0%nat)
          with (Some (Some (Close 0%nat))). cbv iota.
        rewrite settled_simple by done. cbn [set_app page app flush].
        rewrite exec_platform. fold s. destruct s as [? ? ? ? ? ? ? ? a].
        cbn in Hn |- *. rewrite Hn. by apply Forall_singleton. }
  - intros es s.
    pose proof (run_Inv es _ (initial_Inv allowed)) as Hs. fold s in Hs.
    destruct Hs as [Ha Hd].
    destruct (goodAudio_device _ _ Ha) as (H1 & H2 & H3).
    repeat (split; [done|]). split; [|split; [|split]].
    + intros Hes. by apply (run_Silent es (Narrator.initial allowed)).
    + intros Hes. apply (run_Open es); [done | constructor].
    + intros base64. by apply startNewAudio_creates.
    + by apply unmount_closes.
  - intros es s.
    pose proof (run_InvD es _ (initial_InvD allowed)) as Hs. fold s in Hs.
    destruct (run_OneD es _ (initial_OneD allowed)) as [_ Hv]. fold s in Hv.
    destruct Hs as [Ha Hd].
    destruct (goodAudio_device _ _ Ha) as (H1 & H2 & H3).
    repeat (split; [done|]). split; [|split].
    + intros Hes. by apply (run_SilentD es (Desktop.initial allowed)).
    + apply (run_OpenD es). constructor.
    + intros base64. by apply playAudio_creates.
Qed.

(** X3. Whatever the events and however the promises of [resume()],
    [suspend()] and of the decoder settle between them, the two flags of
    the controller are never both set, and a source it holds was started
    and not stopped, with one of the flags set. When every promise settles
    before the next event of the page, the controller is in one of three
    states: idle (no source held, neither playing nor paused), playing, or
    paused, with a source held in the last two. Without that it need not be:
    a stop clicked before the [suspend()] of a pause has settled leaves the
    controller paused with no source. *)
Theorem playback_session_states (allowed : bool) :
  (∀ es, let s := app (page (run es (initialTab allowed))) in
     (isPlaying s = true → isPaused s = false)
     ∧ ∀ i, activeSourceRef s = Some i →
            isStarted i (audio s)
            ∧ (isPlaying s = true ∨ isPaused s = true))
  ∧ (∀ es, let s := app (page (runSettled es (initialTab allowed))) in
       idle s
       ∨ (∃ i, activeSourceRef s = Some i ∧ isStarted i (audio s)
               ∧ isPlaying s = true ∧ isPaused s = false)
       ∨ (∃ i, activeSourceRef s = Some i ∧ isStarted i (audio s)
               ∧ isPlaying s = false ∧ isPaused s = true))
  ∧ (let s := app (page (run pauseThenStop (initialTab allowed))) in
     activeSourceRef s = None ∧ isPlaying s = false ∧ isPaused s = true).
Proof.
  split; [|split].
  - intros es s.
    destruct (run_Held es _ (initial_Held allowed)) as (H1 & H2 & _).
    by split.
  - intros es s. subst s. rewrite reached_settled.
    apply session_states_atomic.
  - destruct allowed; vm_compute; done.
Qed.

(** X4. When every promise settles before the next event of the page,
    nothing is heard while the controller shows a paused playback: no
    source node renders on a running context. *)
Theorem paused_is_silent (allowed : bool) (es : list NarratorAsync.Event) :
  let s := app (page (runSettled es (initialTab allowed))) in
  isPaused s = true → ∀ j, ¬ audible j (audio s).
Proof.
  intros s. subst s. rewrite reached_settled. apply paused_silent_atomic.
Qed.

(** Its use on a paused playback: node 0 was started and is not heard. *)
Lemma paused_is_silent_witness :
  isPaused (app (page pausedT)) = true
  ∧ isStarted 0 (audio (app (page pausedT)))
  ∧ ∀ j, ¬ audible j (audio (app (page pausedT))).
Proof.
  split; [vm_compute; reflexivity|]. split; [vm_compute; reflexivity|].
  refine (paused_is_silent true pauseA _). vm_compute. reflexivity.
Defined.

(** X5. When every promise settles before the next event of the page, the
    source the controller holds is heard while it shows a playback in
    progress and the component is mounted: started, connected, on a running
    context. This holds also where the platform starts a new context
    suspended, since [startNewAudio] resumes it. Without that it need not
    be: a stop clicked before the [resume()] of a paused playback has
    settled leaves the controller showing a playback in progress with no
    source held and none heard. *)
Theorem playing_is_audible :
  (∀ allowed es,
     let s := app (page (runSettled es (initialTab allowed))) in
     NarratorAsync.Sync Unmount ∉ es → isPlaying s = true →
     ∃ i, activeSourceRef s = Some i ∧ audible i (audio s))
  ∧ (let s := app (page stoppedT) in
     quiescent (jobs stoppedT)
     ∧ isPlaying s = true ∧ activeSourceRef s = None
     ∧ ∀ j, ¬ audible j (audio s)).
Proof.
  split.
  - intros allowed es s. subst s. rewrite reached_settled.
    apply playing_audible_atomic.
  - split; [vm_compute; repeat constructor|].
    split; [vm_compute; reflexivity|]. split; [vm_compute; reflexivity|].
    intros j (n & ctx & Hn & Hp & _).
    destruct j as [|j]; vm_compute in Hn.
    + injection Hn as <-. discriminate Hp.
    + destruct j; discriminate Hn.
Qed.

(** Its use where the platform starts contexts suspended. *)
Lemma playing_is_audible_witness :
  ∃ i, activeSourceRef
         (app (page (runSettled narrateA (initialTab false)))) = Some i
       ∧ audible i
           (audio (app (page (runSettled narrateA (initialTab false))))).
Proof.
  apply (proj1 playing_is_audible false narrateA).
  - repeat (apply not_elem_of_cons; split; [discriminate|]).
    apply not_elem_of_nil.
  - vm_compute. reflexivity.
Defined.

(** X6. Pause and resume are inverse when the [suspend()] of the pause has
    settled before the second click: from a state that plays on a running
    context with no promise pending, [togglePlayback] suspends the context
    and shows the playback as paused, leaving the source nodes alone, and a
    second [togglePlayback], once its [resume()] has settled, gives back
    the very page it started from. A second click before the [suspend()] of
    the first has settled pauses again: the playback is left paused. *)
Theorem pause_resume_round_trip :
  (∀ (t : Tab) (c : nat),
     let s := app (page t) in
     quiescent (jobs t) →
     audioContextRef s = Some c → stateOf c (audio s) = running →
     isPlaying s = true → isPaused s = false →
     let t1 := drain (exec togglePlayback t) in
     let s1 := app (page t1) in
     isPlaying s1 = false ∧ isPaused s1 = true
     ∧ stateOf c (audio s1) = suspended
     ∧ sources (audio s1) = sources (audio s)
     ∧ page (drain (exec togglePlayback t1)) = page t)
  ∧ (let t2 := drain (exec togglePlayback (exec togglePlayback playingT)) in
     let s2 := app (page t2) in
     quiescent (jobs t2)
     ∧ isPlaying s2 = false ∧ isPaused s2 = true
     ∧ stateOf 0 (audio s2) = suspended).
Proof.
  split.
  - intros t c s Hq Href Hst Hpl Hpa t1 s1.
    destruct (drain_togglePlayback t Hq) as [H1 Hq1]. fold t1 in H1, Hq1.
    destruct (drain_togglePlayback t1 Hq1) as [H2 _].
    destruct (toggle_twice_atomic s c Href Hst Hpl Hpa)
      as (A1 & A2 & A3 & A4 & A5).
    assert (s1 = exec Narrator.togglePlayback s) as Hs1
      by (subst s1; by rewrite H1).
    rewrite Hs1. split_and!; try done.
    rewrite H2, H1. unfold NarratorAsync.on_app. cbn [app videoUrl calls].
    fold s. rewrite A5. subst s. by destruct (page t).
  - split; [vm_compute; repeat constructor|].
    split_and!; vm_compute; reflexivity.
Qed.

Lemma pause_resume_round_trip_witness :
  page (drain (exec togglePlayback (drain (exec togglePlayback playingT))))
  = page playingT.
Proof.
  refine (proj2 (proj2 (proj2 (proj2
            (proj1 pause_resume_round_trip playingT 0%nat _ _ _ _ _)))));
    vm_compute; try reflexivity.
  repeat constructor.
Defined.



(** X8. [clearResults] and [resetAll] never throw and leave the component
    in the same state: status IDLE, no result, no error, no playback
    controls, the controller idle, the audio context kept for the next
    playback, and at most the request of [stopAudio] to resume a suspended
    context pending. From a state in which the controller holds every source
    that renders, no source renders afterwards. They differ on the video:
    [clearResults] leaves it, [resetAll] removes it, and with it the start
    button, so that only the file input is left. *)
Theorem clearResults_resets (t : Tab) :
  let s := app (page t) in
  let t1 := exec clearResults t in
  let t2 := exec resetAll t in
  let s1 := app (page t1) in
  completes clearResults t ∧ completes resetAll t
  ∧ app (page t2) = s1 ∧ jobs t2 = jobs t1
  ∧ jobs t1 = jobs t ++ (Some <$> resumeAsked s)
  ∧ videoUrl (page t1) = videoUrl (page t) ∧ videoUrl (page t2) = false
  ∧ NarratorAsync.offered NarratorAsync.Start (page t2) = false
  ∧ NarratorAsync.offered NarratorAsync.FileChosen (page t2) = true
  ∧ calls (page t1) = calls (page t) ∧ calls (page t2) = calls (page t)
  ∧ status s1 = IDLE ∧ result s1 = None ∧ error s1 = None
  ∧ idle s1 ∧ controls s1 = []
  ∧ audioContextRef s1 = audioContextRef s
  ∧ downloads s1 = downloads s
  ∧ (tracked s → ∀ j, ¬ isStarted j (audio s1)).
Proof.
  intros s t1 t2 s1. subst s1 t1 t2.
  rewrite clearResults_tab, resetAll_tab.
  split; [apply clearResults_completes|].
  split; [apply resetAll_completes|].
  split_and!; try done.
  intros Ht j. apply (stoppedNow_silent s Ht j).
Qed.

Lemma clearResults_resets_witness :
  tracked (app (page pausedT))
  ∧ ∀ j, ¬ isStarted j (audio (app (page (exec clearResults pausedT)))).
Proof.
  assert (tracked (app (page pausedT))) as Ht
    by (intros [|j] Hj; [reflexivity | discriminate Hj]).
  split; [exact Ht|].
  exact (proj2 (proj2 (proj2 (proj2 (proj2 (proj2 (proj2 (proj2 (proj2
           (proj2 (proj2 (proj2 (proj2 (proj2 (proj2 (proj2 (proj2 (proj2
           (clearResults_resets pausedT)))))))))))))))))) Ht).
Defined.

End SettlingTheorems.

Section DesktopTheorems.

Import Desktop DesktopView.

(** X13. [handleFileUpload] of the desktop edition does not stop the sound:
    the audio state and the source the controller holds are as before, the
    status is IDLE and the result is gone, and with it both buttons, so that
    no click reaches the playback. *)
Theorem desktop_upload_leaves_audio_playing (s : State) (cs : list Control) :
  let s' := step s FileUpload in
  audio s' = audio s ∧ activeSourceRef s' = activeSourceRef s
  ∧ status s' = IDLE ∧ controls s' = []
  ∧ run (map Click cs) s' = s'.
Proof.
  intros s'. subst s'. split_and!; try done.
  induction cs as [|c cs IH]; [done|]. cbn [map run foldl].
  replace (step (step s FileUpload) (Click c)) with (step s FileUpload);
    [exact IH|].
  unfold step at 2. unfold exec, handle. rewrite bind_gets. done.
Qed.

End DesktopTheorems.

Section DesktopAsyncTheorems.

Import Desktop DesktopView DesktopAsync GeminiService.

(** X11. The desktop edition never changes the state of its audio context:
    in every state it reaches, however the events of the page and the
    continuations of its calls of [processVideo] interleave, a context is in
    the state in which the platform created it. [playAudio] never calls
    [resume], so where the platform starts a context suspended, no source
    is ever heard. *)
Theorem desktop_context_never_resumed (allowed : bool) (es : list Event) :
  let s := app (run es (initialPage allowed)) in
  (∀ c ctx, contexts (audio s) !! c = Some ctx →
            state ctx = if allowed then running else suspended)
  ∧ (allowed = false → ∀ j, ¬ audible j (audio s)).
Proof.
  intros s.
  destruct (reached_SoundD allowed es) as [_ [_ Hc]]. fold s in Hc.
  split.
  - intros c ctx Hctx. by eapply Forall_lookup_1 in Hc.
  - intros -> j (n & ctx & _ & _ & _ & Hctx & Hrun).
    eapply Forall_lookup_1 in Hc; [|done]. simpl in Hc. congruence.
Qed.

(** Its use where the platform starts contexts suspended: the first payload
    is started and not heard. *)
Lemma desktop_context_never_resumed_witness :
  isStarted 0 (audio (app (run narrateD (initialPage false))))
  ∧ isPlaying (app (run narrateD (initialPage false))) = true
  ∧ ∀ j, ¬ audible j (audio (app (run narrateD (initialPage false)))).
Proof.
  split; [vm_compute; reflexivity|]. split; [vm_compute; reflexivity|].
  exact (proj2 (desktop_context_never_resumed false narrateD) eq_refl).
Defined.

(** X12. The [stop()] at the head of [playAudio], which no [try] guards,
    never throws in a state the desktop edition reaches: [playAudio]
    completes exactly when its payload decodes, and otherwise throws the
    error of [decode]. *)
Theorem desktop_stop_never_throws (allowed : bool) (es : list Event)
  (base64 : option string) :
  let s := app (run es (initialPage allowed)) in
  (playAudio base64 s).1 = match decode base64 with
                           | Ok _ => Done tt
                           | Err e => Threw e
                           end.
Proof.
  intros s. apply playAudio_outcome.
  by destruct (reached_SoundD allowed es) as [[_ Hv] _].
Qed.

(** X14. After a failure, once no call of [processVideo] is waiting, the
    desktop edition stays in status ERROR until a file is chosen: the start
    button is disabled and reads "Analizando...", and the progress bar is
    shown with every segment pending, whatever else the page allows. The
    file input is there only after the video has been closed. *)
Theorem desktop_failure_needs_upload (p : Page) (es : list Event) :
  status (app p) = ERROR → busy p = false →
  feasible es p = true → FileChosen ∉ es →
  let s' := app (run es p) in
  status s' = ERROR ∧ startDisabled s' = true
  ∧ startLabel s' = "Analizando..."%string
  ∧ progressBar s' = Some (replicate 3 pendingClass).
Proof.
  intros Hst Hb Hes Hr s'.
  pose proof (stuck_run_desktop es p Hst Hb Hes Hr) as H. fold s' in H.
  unfold startDisabled, startLabel, progressBar. by rewrite H.
Qed.

Lemma desktop_failure_needs_upload_witness :
  startLabel
    (app (run [Sync (Click ReproducirButton); TimerFired 0 "f";
               CloseVideo; Sync (Ended 0)]
              (run failD (initialPage true))))
  = "Analizando..."%string.
Proof.
  refine (proj1 (proj2 (proj2
            (desktop_failure_needs_upload (run failD (initialPage true))
               [Sync (Click ReproducirButton); TimerFired 0 "f";
                CloseVideo; Sync (Ended 0)]
               _ _ _ _))));
    try (vm_compute; reflexivity).
  repeat (apply not_elem_of_cons; split; [discriminate|]).
  apply not_elem_of_nil.
Defined.



End DesktopAsyncTheorems.

Section ProgressTheorems.

(** X15. The progress bar of the component with pause and stop controls
    fills from the left: for every status but ERROR its three segments are
    some that are done, then at most one in progress, then the pending
    ones; the label lit is the one of the segment in progress; a segment is
    in progress exactly when the status is one of the three stages, and all
    three are done exactly when the status is COMPLETED. *)
Theorem progress_bar_fills_in_order (status : AppStatus) :
  status ≠ ERROR →
  ∃ (d : nat) (c : bool),
    ProgressBar.segments status = bar doneClass currentClass pendingClass d c
    ∧ ProgressBar.labels status = bar dimClass litClass dimClass d c
    ∧ (c = true ↔ status ∈ map ProgressBar.id ProgressBar.stages)
    ∧ (d = 3%nat ↔ status = COMPLETED).
Proof.
  intros He.
  assert (∀ x : AppStatus, x ∈ map ProgressBar.id ProgressBar.stages
            ↔ x = SAMPLING ∨ x = ANALYZING ∨ x = NARRATING) as Hin.
  { intros x. cbn. rewrite !elem_of_cons, elem_of_nil. tauto. }
  destruct status; try done;
    [exists 0%nat, false | exists 0%nat, false | exists 0%nat, true
    | exists 1%nat, true | exists 2%nat, true | exists 3%nat, false];
    (split; [reflexivity|]); (split; [reflexivity|]);
    rewrite Hin; split; intuition congruence.
Qed.

Lemma progress_bar_fills_in_order_witness :
  ∃ (d : nat) (c : bool),
    ProgressBar.segments ANALYZING
    = bar doneClass currentClass pendingClass d c
    ∧ ProgressBar.labels ANALYZING = bar dimClass litClass dimClass d c
    ∧ (c = true ↔ ANALYZING ∈ map ProgressBar.id ProgressBar.stages)
    ∧ (d = 3%nat ↔ ANALYZING = COMPLETED).
Proof. apply progress_bar_fills_in_order. discriminate. Defined.

(** X16. The progress bar of the desktop edition shows the same progress as
    the other one for every status but ERROR (as many segments done, the
    same one in progress, the same label lit). For ERROR the other bar is
    red throughout, while the desktop bar has every segment pending and no
    label lit, as for IDLE. *)
Theorem desktop_progress_bar_hides_failure (status : AppStatus) :
  (status ≠ ERROR →
   ∃ (d : nat) (c : bool),
     ProgressBar.segments status
     = bar doneClass currentClass pendingClass d c
     ∧ DesktopProgressBar.segments status
       = bar "bg-sky-500"%string "bg-sky-400 animate-pulse"%string
             pendingClass d c
     ∧ DesktopProgressBar.labels status
       = bar "text-slate-600"%string litClass "text-slate-600"%string d c)
  ∧ ProgressBar.segments ERROR = replicate 3 failedClass
  ∧ DesktopProgressBar.segments ERROR = replicate 3 pendingClass
  ∧ DesktopProgressBar.segments ERROR = DesktopProgressBar.segments IDLE
  ∧ DesktopProgressBar.labels ERROR = DesktopProgressBar.labels IDLE.
Proof.
  split; [|by split_and!].
  intros He.
  destruct status; try done;
    [exists 0%nat, false | exists 0%nat, false | exists 0%nat, true
    | exists 1%nat, true | exists 2%nat, true | exists 3%nat, false];
    by split_and!.
Qed.

Lemma desktop_progress_bar_hides_failure_witness :
  ∃ (d : nat) (c : bool),
    ProgressBar.segments NARRATING
    = bar doneClass currentClass pendingClass d c
    ∧ DesktopProgressBar.segments NARRATING
      = bar "bg-sky-500"%string "bg-sky-400 animate-pulse"%string
            pendingClass d c
    ∧ DesktopProgressBar.labels NARRATING
      = bar "text-slate-600"%string litClass "text-slate-600"%string d c.
Proof.
  apply (proj1 (desktop_progress_bar_hides_failure NARRATING)).
  discriminate.
Defined.

End ProgressTheorems.

Section RequestTheorems.

Import GeminiService.

(** X17. The two editions ask [generateSpeech] for the same style, except
    in NEWS mode when the detected genre contains "deport" in any letter
    case: the desktop edition then asks for the sports style, the other
    one for the news style. *)
Theorem news_mode_overridden_in_desktop (mode : Mode)
  (genreDetected : option string) :
  styleInstruction (DesktopRequest.isSports mode genreDetected)
  ≠ styleInstruction (NarratorRequest.isSports mode genreDetected)
  ↔ mode = NEWS
    ∧ ∃ a w b, genreDetected = Some (a ++ w ++ b)%string
               ∧ toLowerCase w = "deport"%string.
Proof.
  rewrite <- mentionsSport_true.
  unfold DesktopRequest.isSports, NarratorRequest.isSports, styleInstruction.
  destruct mode; cbn.
  - split; [by intros H | by intros [? _]].
  - split; [by intros H | by intros [? _]].
  - destruct (mentionsSport genreDetected) as [[|]|]; cbn.
    + split; [done|]. intros _. apply styles_differ.
    + split; [by intros H | by intros [_ ?]].
    + split; [by intros H | by intros [_ ?]].
Qed.

Lemma news_mode_overridden_in_desktop_witness :
  mentionsSport (Some "Deportes"%string) = Some true
  ∧ styleInstruction (DesktopRequest.isSports NEWS (Some "Deportes"%string))
    ≠ styleInstruction
        (NarratorRequest.isSports NEWS (Some "Deportes"%string)).
Proof.
  split; [reflexivity|].
  apply (proj2 (news_mode_overridden_in_desktop NEWS
                  (Some "Deportes"%string))).
  split; [reflexivity|].
  by exists EmptyString, "Deport"%string, "es"%string.
Defined.

End RequestTheorems.

Section SpeechTheorems.

Import GeminiService Narrator NarratorView NarratorAsync.

(** X18. Of the response of the speech model only the first part of the
    first candidate is read. When a call of [processVideo] of the component
    with pause and stop controls is resumed with what [generateSpeech]
    returns, it completes, and the playback controls are shown exactly when
    that part carries inline data that is not empty; audio in a later part
    or candidate is ignored, and a missing link gives no error. *)
Theorem controls_follow_first_part (p : Page) (i : nat) (a : Analysis)
  (response : Response) :
  calls p !! i = Some (Some (AwaitSpeech a)) →
  let s' := app (step p (Spoken i (Resolved (base64Audio response)))) in
  status s' = COMPLETED
  ∧ error s' = error (app p)
  ∧ (controls s' ≠ []
     ↔ ∃ c cs ct part ps blob d,
         candidates response = Some (c :: cs) ∧ content c = Some ct
         ∧ parts ct = Some (part :: ps) ∧ inlineData part = Some blob
         ∧ blobData blob = Some d ∧ d ≠ EmptyString).
Proof.
  intros Hi s'. subst s'. cbn [step]. rewrite Hi.
  cbn [settle on_app app]. rewrite finish_atomic.
  set (s := app p).
  set (s' := Narrator.step s
               (ProcessVideo (Resolved a) (Resolved (base64Audio response)))).
  destruct (page_eq _ _ _ _
              (processVideo_page (Resolved a)
                 (Resolved (base64Audio response)) s)) as (H1 & H2 & H3).
  change (exec (Narrator.processVideo (Resolved a)
                  (Resolved (base64Audio response))) s) with s' in *.
  split; [done|]. split; [done|].
  unfold Narrator.controls. rewrite H2.
  cbn [audioData]. split.
  - destruct (base64Audio response) as [d|] eqn:Hd; [|done].
    apply base64Audio_Some in Hd as (c & cs & ct & part & ps & blob & Hd).
    intros Ht. exists c, cs, ct, part, ps, blob, d.
    destruct Hd as (? & ? & ? & ? & ?). split_and!; try done.
    by intros ->.
  - intros (c & cs & ct & part & ps & blob & d
            & H & Hc & Hp & Hb & Hd & Hne).
    rewrite (proj2 (base64Audio_Some response d)).
    + by destruct d.
    + by exists c, cs, ct, part, ps, blob.
Qed.

(** Its use on an answer with two parts: the call completes and the first
    payload plays. *)
Lemma controls_follow_first_part_witness :
  let p := run [FileChosen; Start; FramesSampled 0 EmptyString;
                Analyzed 0 (narrated None).1] (initialPage true) in
  base64Audio spokenA = Some payloadA
  ∧ status (app (step p (Spoken 0 (Resolved (base64Audio spokenA)))))
    = COMPLETED.
Proof.
  intros p. split; [reflexivity|].
  refine (proj1 (controls_follow_first_part p 0 _ spokenA _)).
  vm_compute. reflexivity.
Defined.

End SpeechTheorems.

Section SamplingTheorems.

Import GeminiService FrameSampling.

(** X19. [sampleFrames] takes twenty pictures: its promise is pending until
    the twentieth [seeked] event and is then resolved with one JPEG frame
    per event, in order (with no frame at all when the canvas gives no 2D
    context); later [seeked] events find no listener. [onSeeked] asks for
    the positions 1/19, 2/19, ... 19/19 of the duration, one after each of
    the first nineteen events, whenever the timer fires. *)
Theorem sampleFrames_takes_twenty (ctx : bool) (ts : list Tick) :
  let v := sampleFrames ctx ts in
  let n := length (shots ts) in
  (resolved v = None ↔ (n < 20)%nat)
  ∧ ((20 ≤ n)%nat →
     resolved v = Some (if ctx then map jpeg (take 20 (shots ts)) else []))
  ∧ listening v = bool_decide (n < 20)%nat
  ∧ (length (frames v) ≤ 20)%nat
  ∧ positions (seeks v) = seq 1 (n `min` 19).
Proof.
  intros v n.
  destruct (sampleFrames_Sampled ctx ts) as (Hc & Hl & Hf & Hr & Hp).
  fold v n in Hc, Hl, Hf, Hr, Hp.
  split_and!; try done.
  - rewrite Hr. case_bool_decide; split; (done || lia).
  - intros Hn. rewrite Hr, bool_decide_eq_false_2 by lia. by rewrite Hf.
  - rewrite Hf. destruct ctx; [|cbn; lia].
    rewrite length_map, length_take. lia.
Qed.

Lemma sampleFrames_takes_twenty_witness :
  resolved (sampleFrames true twentyOne)
  = Some (map jpeg (take 20 (shots twentyOne))).
Proof.
  refine (proj1 (proj2 (sampleFrames_takes_twenty true twentyOne)) _).
  vm_compute. lia.
Defined.

(** X20. The request of [analyzeVideo] for the frames that [sampleFrames]
    resolved with holds one inline JPEG per [seeked] event, in the order of
    the events, and the prompt as its last part: 21 parts, or the prompt
    alone when the canvas gave no 2D context. *)
Theorem analysis_request_parts (ctx : bool) (ts : list Tick)
  (prompt : string) (sampled : list VideoFrame) :
  resolved (sampleFrames ctx ts) = Some sampled →
  let request := analyzeParts sampled prompt in
  length request = (if ctx then 21 else 1)%nat
  ∧ last request = Some (Text prompt)
  ∧ (ctx = true → ∀ i, (i < 20)%nat →
       request !! i
       = (λ b, InlineData b "image/jpeg") <$> shots ts !! i).
Proof.
  intros Hres request.
  destruct (sampleFrames_Sampled ctx ts) as (_ & _ & Hf & Hr & _).
  rewrite Hres in Hr. case_bool_decide as Hn; [done|].
  injection Hr as ->. subst request. unfold analyzeParts.
  split_and!.
  - rewrite length_app, length_map, Hf. destruct ctx; [|done].
    rewrite length_map, length_take. cbn [length]. lia.
  - by rewrite last_snoc.
  - intros -> i Hi. rewrite Hf.
    rewrite lookup_app_l
      by (rewrite !length_map, length_take; lia).
    rewrite !list_lookup_fmap, lookup_take_lt by done.
    by destruct (shots ts !! i).
Qed.

Lemma analysis_request_parts_witness :
  length (analyzeParts (map jpeg (take 20 (shots twentyOne))) "p") = 21%nat.
Proof.
  refine (proj1 (analysis_request_parts true twentyOne "p" _ _)).
  vm_compute. reflexivity.
Defined.

End SamplingTheorems.
